(** * Riva Meta AI Generator: batch generation and resumability controller

    A shallow embedding of the generation client (services/geminiService) and
    of the App component's handlers (file normalisation and validation, the
    chunked generation run, resume, stop, per-row regeneration, and the
    session snapshot kept in localStorage), followed by the properties the
    specification states about them.

    A second part of the embedding covers the rest of the App component (the
    mount, the theme, the reading of the selected file, the download, what
    the render offers), the components FileUpload, ProductTable and
    AdvancedSettings, and the variant of the generation client that writes
    both languages; the last part of the file states further properties of
    the code.

    Conventions of the embedding.
    - A JavaScript string is a [string]: the bytes of its UTF-8 encoding, so
      that the ASCII characters are the bytes below 128.  The methods
      [toLowerCase] and [trim] are the JavaScript engine's and are taken as
      given ([StringPrototype]); what ECMAScript fixes for them on text of
      ASCII characters is assumed where it is needed ([StringPrototypeSpec]).
    - A product row is a JavaScript object whose values are strings; it is
      modelled by the list of its own properties in enumeration order
      ([Obj]).  Column names that JavaScript treats specially (canonical
      array indices, names found on Object.prototype) are outside the model.
    - A JavaScript [Map] is a [gmap] built by successive insertions (the last
      write for a key wins); a [Set] is a [gset].  A property that may be
      [undefined] is an [option].
    - The component's state variables, the cancellation ref and the stored
      session are the fields of one record ([State]).  A handler is a closure
      of the render that created it: it reads the state variables as that
      render saw them (a parameter [r]) and updates the current state (a
      parameter [s]).
    - An asynchronous function is cut at its [await]s.  What the outside
      world does while a call is in flight (the service's reply, a click on
      the stop button) is an explicit input ([Env]).
    - The state updates made by one stretch of synchronous code are applied
      together and followed by one render, whose effects run before the code
      after the pending [await] resumes ([commit]). *)

From stdpp Require Import gmap strings list fin_maps.
From Stdlib Require Import DecimalString.

(** ** JavaScript strings *)

Definition nl : string := String (Ascii.ascii_of_nat 10) "".

(** [String.prototype.includes]. *)
Fixpoint includes (needle hay : string) : bool :=
  String.prefix needle hay ||
  match hay with
  | EmptyString => false
  | String _ rest => includes needle rest
  end.

(** A number inside a template literal (non-negative integers only). *)
Definition show_nat (n : nat) : string :=
  NilEmpty.string_of_uint (Nat.to_uint n).

(** [String.prototype.toLowerCase] and [String.prototype.trim] belong to the
    JavaScript engine.  ECMAScript defines them over all of Unicode: the
    first by the case mappings of the Unicode Character Database (the Kelvin
    sign U+212A becomes k), the second by the language's white space and line
    terminators (U+00A0 and U+FEFF among them).  The embedding takes the two
    methods as given. *)
Class StringPrototype : Type := {
  toLowerCase : string → string;
  trim : string → string
}.

(** What the standard fixes for text of ASCII characters: [toLowerCase] maps
    A to Z onto a to z and keeps every other character; [trim] removes tab,
    line feed, vertical tab, form feed, carriage return and space from both
    ends. *)
Fixpoint isAscii (s : string) : bool :=
  match s with
  | EmptyString => true
  | String c rest => (Ascii.nat_of_ascii c <? 128) && isAscii rest
  end.

Definition lower_ascii (c : Ascii.ascii) : Ascii.ascii :=
  let n := Ascii.nat_of_ascii c in
  if (65 <=? n) && (n <=? 90) then Ascii.ascii_of_nat (n + 32) else c.

Fixpoint toLowerCase_ascii (s : string) : string :=
  match s with
  | EmptyString => EmptyString
  | String c rest => String (lower_ascii c) (toLowerCase_ascii rest)
  end.

Definition is_space (c : Ascii.ascii) : bool :=
  let n := Ascii.nat_of_ascii c in
  ((9 <=? n) && (n <=? 13)) || (n =? 32).

Fixpoint trimStart (s : string) : string :=
  match s with
  | EmptyString => EmptyString
  | String c rest => if is_space c then trimStart rest else s
  end.

Fixpoint trimEnd (s : string) : string :=
  match s with
  | EmptyString => EmptyString
  | String c rest =>
      match trimEnd rest with
      | EmptyString => if is_space c then EmptyString else String c EmptyString
      | kept => String c kept
      end
  end.

Definition trim_ascii (s : string) : string := trimEnd (trimStart s).

Class StringPrototypeSpec (M : StringPrototype) : Prop := {
  toLowerCase_of_ascii (s : string) :
    isAscii s = true → toLowerCase s = toLowerCase_ascii s;
  trim_of_ascii (s : string) :
    isAscii s = true → trim s = trim_ascii s
}.

(** Truthiness of a value that is a string or [undefined]. *)
Definition truthy (v : option string) : bool :=
  match v with
  | Some (String _ _) => true
  | _ => false
  end.

(** [a || b] on such values, where [b] is a string. *)
Definition or_else (v : option string) (d : string) : string :=
  match v with
  | Some (String c rest) => String c rest
  | _ => d
  end.

(** ** JavaScript objects with string values *)

Abbreviation Obj := (list (string * string)) (only parsing).

Fixpoint obj_get (k : string) (o : Obj) : option string :=
  match o with
  | [] => None
  | (k', v) :: rest => if decide (k' = k) then Some v else obj_get k rest
  end.

(** [o[k] = v]: an existing property keeps its place, a new one goes last. *)
Fixpoint obj_set (k v : string) (o : Obj) : Obj :=
  match o with
  | [] => [(k, v)]
  | (k', v') :: rest =>
      if decide (k' = k) then (k, v) :: rest else (k', v') :: obj_set k v rest
  end.

(** The rest pattern [{ [k]: _, ...rest }]. *)
Definition obj_without (k : string) (o : Obj) : Obj :=
  filter (λ kv, kv.1 ≠ k) o.

Definition hasOwnProperty (k : string) (o : Obj) : bool :=
  bool_decide (is_Some (obj_get k o)).

(** ** JavaScript [Map] *)

Section js_map.
Context {K V : Type} `{Countable K}.

(** [new Map(entries)] and a run of [map.set]: later entries overwrite. *)
Definition map_set_all (entries : list (K * V)) (m : gmap K V) : gmap K V :=
  foldl (λ acc kv, <[kv.1 := kv.2]> acc) m entries.

Definition new_Map (entries : list (K * V)) : gmap K V :=
  map_set_all entries ∅.
End js_map.

(** ** types.ts *)

Abbreviation Product := Obj (only parsing).

Definition sku (p : Product) : option string := obj_get "sku" p.
Definition name (p : Product) : option string := obj_get "name" p.

(** The two generated columns, as the code spells them. *)
Definition MetaTitle : string := "Meta Title".
Definition MetaDescription : string := "Meta Description".

(** [{ ...p, 'Meta Title': t, 'Meta Description': d }]. *)
Definition with_meta (t d : string) (p : Product) : Product :=
  obj_set MetaDescription d (obj_set MetaTitle t p).

(** ** services/geminiService *)

(** [{ sku, metaTitle, metaDescription }], the shape of a response item and of
    a result handed to the caller. *)
Record Meta : Type := mkMeta {
  m_sku : option string;
  metaTitle : string;
  metaDescription : string
}.

#[global] Instance Meta_eq_dec : EqDecision Meta.
Proof. solve_decision. Defined.

(** The value [JSON.parse(response.text.trim())] of a batch response, at the
    type the code reads it at. *)
Inductive Parsed : Type :=
| PArray (items : list Meta)
| PNotArray.

(** What [JSON.parse(rawErrorString)] gives inside the catch block: it throws,
    or yields a value without a truthy [error] property, or one with an
    [error] whose [message] and [status] are read. *)
Inductive ParsedError : Type :=
| NotJson
| NoErrorField
| ErrorField (message : option string) (status : option string).

(** An exception reaching the catch block: the string the code derives from
    it and what parsing that string yields. *)
Record Thrown : Type := mkThrown {
  rawErrorString : string;
  parsedError : ParsedError
}.

(** How a call to [ai.models.generateContent] and the parsing of its text
    end: a token count and a parsed value, or an exception.  The service
    itself is a function from the request to such a reply. *)
Inductive Reply (A : Type) : Type :=
| Resolved (totalTokens : nat) (parsed : A)
| Rejected (t : Thrown).
Arguments Resolved {A} _ _.
Arguments Rejected {A} _.

(** How a promise of the client settles. *)
Inductive Settled (A : Type) : Type :=
| Fulfilled (a : A)
| Threw (message : string).
Arguments Fulfilled {A} _.
Arguments Threw {A} _.

(** The destructuring that drops the generated columns. *)
Definition strip_generated (p : Product) : Product :=
  obj_without MetaDescription (obj_without MetaTitle p).

(** *** JSON.stringify(value, null, 2) on rows *)

Definition hex_digit (n : nat) : Ascii.ascii :=
  Ascii.ascii_of_nat (if n <? 10 then 48 + n else 87 + n).

Definition dquote : Ascii.ascii := Ascii.ascii_of_nat 34.

Definition json_escape_char (c : Ascii.ascii) : string :=
  let n := Ascii.nat_of_ascii c in
  if n =? 34 then "\" +:+ String dquote EmptyString else
  if n =? 92 then "\\" else
  if n =? 8 then "\b" else
  if n =? 9 then "\t" else
  if n =? 10 then "\n" else
  if n =? 12 then "\f" else
  if n =? 13 then "\r" else
  if n <? 32 then
    "\u00" +:+ String (hex_digit (n / 16)) (String (hex_digit (n mod 16)) "")
  else String c "".

Fixpoint json_escape (s : string) : string :=
  match s with
  | EmptyString => EmptyString
  | String c rest => json_escape_char c +:+ json_escape rest
  end.

Definition json_quote (s : string) : string :=
  String dquote (json_escape s) +:+ String dquote EmptyString.

Fixpoint join (sep : string) (parts : list string) : string :=
  match parts with
  | [] => ""
  | [x] => x
  | x :: rest => x +:+ sep +:+ join sep rest
  end.

Fixpoint spaces (n : nat) : string :=
  match n with
  | 0 => ""
  | S k => " " +:+ spaces k
  end.

Definition stringify_object (indent : nat) (o : Obj) : string :=
  match o with
  | [] => "{}"
  | _ =>
      "{" +:+ nl +:+
      join ("," +:+ nl)
        (fmap (λ kv, spaces (indent + 2) +:+ json_quote kv.1 +:+ ": " +:+ json_quote kv.2) o)
      +:+ nl +:+ spaces indent +:+ "}"
  end.

Definition stringify_array (rows : list Obj) : string :=
  match rows with
  | [] => "[]"
  | _ =>
      "[" +:+ nl +:+
      join ("," +:+ nl) (fmap (λ o, spaces 2 +:+ stringify_object 2 o) rows)
      +:+ nl +:+ "]"
  end.

(** *** The request *)

(** A call to the external service, by what the code puts into it. *)
Inductive Request : Type :=
| BatchCall (instructions : string) (productDetailsForPrompt : list Product)
| SingleCall (instructions : string) (productDetailsForPrompt : Product).

(** The [contents] of the request: the prompt's template literal. *)
Definition contents (r : Request) : string :=
  match r with
  | BatchCall instructions details =>
      nl +:+ spaces 8 +:+ instructions +:+ nl +:+
      nl +:+ spaces 8 +:+
      "Your task is to generate a meta title and a meta description for EACH product in the following JSON list, using the provided product attributes."
      +:+ nl +:+
      nl +:+ spaces 8 +:+ "Product List:" +:+ nl +:+
      spaces 8 +:+ stringify_array details +:+ nl +:+ spaces 4
  | SingleCall instructions details =>
      nl +:+ spaces 8 +:+
      "Your task is to generate a new meta title and a new meta description for the following product."
      +:+ nl +:+
      spaces 8 +:+ nl +:+
      spaces 8 +:+ instructions +:+ nl +:+
      nl +:+ spaces 8 +:+ "Product Details:" +:+ nl +:+
      spaces 8 +:+ stringify_object 0 details +:+ nl +:+ spaces 4
  end.

Definition batch_request (products : list Product) (instructions : string) : Request :=
  BatchCall instructions (fmap strip_generated products).

Definition single_request (product : Product) (instructions : string) : Request :=
  SingleCall instructions (strip_generated product).

(** *** The catch block shared by both operations *)

Definition RESOURCE_EXHAUSTED : string := "RESOURCE_EXHAUSTED".
Definition QUOTA_TAG : string := "[QUOTA_EXCEEDED]".

(** The pair [(isQuotaError, detailedMessage)] at the end of the catch block. *)
Definition classify (t : Thrown) : bool * string :=
  let raw := rawErrorString t in
  let '(detailedMessage, isQuotaError) :=
    match parsedError t with
    | ErrorField message status =>
        (or_else message raw, bool_decide (status = Some RESOURCE_EXHAUSTED))
    | _ => (raw, false)
    end in
  let isQuotaError :=
    if negb isQuotaError &&
       (includes RESOURCE_EXHAUSTED detailedMessage || includes "quota" detailedMessage)
    then true else isQuotaError in
  (isQuotaError, detailedMessage).

Definition isQuotaError (t : Thrown) : bool := (classify t).1.
Definition detailedMessage (t : Thrown) : string := (classify t).2.

(** The message of the error the catch block throws. *)
Definition rethrow (failure_prefix : string) (t : Thrown) : string :=
  if isQuotaError t then QUOTA_TAG +:+ " " +:+ detailedMessage t
  else failure_prefix +:+ detailedMessage t.

Definition show_sku (k : option string) : string :=
  match k with
  | Some s => s
  | None => "undefined"
  end.

(** *** generateMetaContentForBatch *)

Definition NO_AI_RESPONSE : string := "Error: No AI Response".

Definition finalResults (products : list Product) (items : list Meta) : list Meta :=
  let returnedResultsMap := new_Map (fmap (λ item, (m_sku item, item)) items) in
  fmap (λ originalProduct,
         match returnedResultsMap !! sku originalProduct with
         | Some result =>
             mkMeta (m_sku result) (metaTitle result) (metaDescription result)
         | None =>
             mkMeta (sku originalProduct) NO_AI_RESPONSE
               "The AI did not provide a response for this item in the batch."
         end) products.

Definition generateMetaContentForBatch
    (products : list Product) (instructions : string)
    (generateContent : Request → Reply Parsed)
  : Settled (list Meta * nat) :=
  let failure := "Failed to generate meta content for a batch of products. " in
  match generateContent (batch_request products instructions) with
  | Resolved totalTokens (PArray items) =>
      Fulfilled (finalResults products items, totalTokens)
  | Resolved _ PNotArray =>
      Threw (rethrow failure
               (mkThrown "API response was not a JSON array as expected." NotJson))
  | Rejected t => Threw (rethrow failure t)
  end.

(** *** generateMetaContentForSingleProduct *)

Definition generateMetaContentForSingleProduct
    (product : Product) (instructions : string)
    (generateContent : Request → Reply Meta)
  : Settled (Meta * nat) :=
  match generateContent (single_request product instructions) with
  | Resolved totalTokens result => Fulfilled (result, totalTokens)
  | Rejected t =>
      Threw (rethrow
               ("Failed to generate meta content for product SKU "
                  +:+ show_sku (sku product) +:+ ". ") t)
  end.

(** ** App: state *)

(** The [SavedSession] type: the value stored, as JSON, under the key
    'riva-meta-generator-session'. *)
Module SavedSession.
Record t : Type := mk {
  fileName : string;
  originalData : list Product;
  processedData : list Product;
  isResumable : bool
}.
End SavedSession.

(** The texts [setProgressMessage] is given, one constructor per template. *)
Inductive ProgressMessage : Type :=
| AllProcessed
| Processing (count total : nat)
| GenerationStopped
| GenerationComplete (total tokens : nat).

(** The text shown; [toLocaleString] depends on the browser's locale. *)
Definition progress_text (toLocaleString : nat → string) (m : ProgressMessage) : string :=
  match m with
  | AllProcessed => "✓ All products have been processed!"
  | Processing count total =>
      "Processing... (" +:+ show_nat count +:+ " of " +:+ show_nat total +:+ " products)"
  | GenerationStopped => "Generation stopped. Ready to resume."
  | GenerationComplete total tokens =>
      "✓ Generation complete for " +:+ show_nat total +:+ " products! Tokens used: "
        +:+ toLocaleString tokens
  end.

(** The branch in which a run settled (the specification's Job outcome). *)
Inductive Outcome : Type :=
| Completed
| Stopped
| QuotaExceeded
| Failed.

(** The component's state, the cancellation ref, the stored session and the
    requests sent so far.  [processedRef] stands for the identity of the array
    held in [processedData]: every [setProcessedData] stores a new array.
    [outcome] is not a variable of the code: it records how the last run
    settled.  The progress percentage, the theme and the token estimate are
    presentation only and left out. *)
Record State : Type := mkState {
  originalData : list Product;
  processedData : list Product;
  processedRef : nat;
  isLoading : bool;
  error : option string;
  file : option string;
  progressMessage : option ProgressMessage;
  regeneratingSkus : gset (option string);
  customInstructions : string;
  savedSession : option SavedSession.t;
  isResumable : bool;
  isCancelledRef : bool;
  localStorage : option SavedSession.t;
  calls : list Request;
  outcome : option Outcome
}.

Definition setOriginalData (v : list Product) (s : State) : State :=
  mkState v (processedData s) (processedRef s) (isLoading s) (error s) (file s)
    (progressMessage s) (regeneratingSkus s) (customInstructions s) (savedSession s)
    (isResumable s) (isCancelledRef s) (localStorage s) (calls s) (outcome s).

Definition setProcessedData (v : list Product) (s : State) : State :=
  mkState (originalData s) v (S (processedRef s)) (isLoading s) (error s) (file s)
    (progressMessage s) (regeneratingSkus s) (customInstructions s) (savedSession s)
    (isResumable s) (isCancelledRef s) (localStorage s) (calls s) (outcome s).

Definition setIsLoading (v : bool) (s : State) : State :=
  mkState (originalData s) (processedData s) (processedRef s) v (error s) (file s)
    (progressMessage s) (regeneratingSkus s) (customInstructions s) (savedSession s)
    (isResumable s) (isCancelledRef s) (localStorage s) (calls s) (outcome s).

Definition setError (v : option string) (s : State) : State :=
  mkState (originalData s) (processedData s) (processedRef s) (isLoading s) v (file s)
    (progressMessage s) (regeneratingSkus s) (customInstructions s) (savedSession s)
    (isResumable s) (isCancelledRef s) (localStorage s) (calls s) (outcome s).

Definition setFile (v : option string) (s : State) : State :=
  mkState (originalData s) (processedData s) (processedRef s) (isLoading s) (error s) v
    (progressMessage s) (regeneratingSkus s) (customInstructions s) (savedSession s)
    (isResumable s) (isCancelledRef s) (localStorage s) (calls s) (outcome s).

Definition setProgressMessage (v : option ProgressMessage) (s : State) : State :=
  mkState (originalData s) (processedData s) (processedRef s) (isLoading s) (error s) (file s)
    v (regeneratingSkus s) (customInstructions s) (savedSession s)
    (isResumable s) (isCancelledRef s) (localStorage s) (calls s) (outcome s).

Definition setRegeneratingSkus (v : gset (option string)) (s : State) : State :=
  mkState (originalData s) (processedData s) (processedRef s) (isLoading s) (error s) (file s)
    (progressMessage s) v (customInstructions s) (savedSession s)
    (isResumable s) (isCancelledRef s) (localStorage s) (calls s) (outcome s).

Definition setSavedSession (v : option SavedSession.t) (s : State) : State :=
  mkState (originalData s) (processedData s) (processedRef s) (isLoading s) (error s) (file s)
    (progressMessage s) (regeneratingSkus s) (customInstructions s) v
    (isResumable s) (isCancelledRef s) (localStorage s) (calls s) (outcome s).

Definition setIsResumable (v : bool) (s : State) : State :=
  mkState (originalData s) (processedData s) (processedRef s) (isLoading s) (error s) (file s)
    (progressMessage s) (regeneratingSkus s) (customInstructions s) (savedSession s)
    v (isCancelledRef s) (localStorage s) (calls s) (outcome s).

(** [isCancelledRef.current = v]. *)
Definition setIsCancelled (v : bool) (s : State) : State :=
  mkState (originalData s) (processedData s) (processedRef s) (isLoading s) (error s) (file s)
    (progressMessage s) (regeneratingSkus s) (customInstructions s) (savedSession s)
    (isResumable s) v (localStorage s) (calls s) (outcome s).

(** [localStorage.setItem] / [removeItem] on the session key. *)
Definition setStored (v : option SavedSession.t) (s : State) : State :=
  mkState (originalData s) (processedData s) (processedRef s) (isLoading s) (error s) (file s)
    (progressMessage s) (regeneratingSkus s) (customInstructions s) (savedSession s)
    (isResumable s) (isCancelledRef s) v (calls s) (outcome s).

(** A request leaves for the external service ([calls] is the record of the
    requests the client has made, oldest first). *)
Definition send (q : Request) (s : State) : State :=
  mkState (originalData s) (processedData s) (processedRef s) (isLoading s) (error s) (file s)
    (progressMessage s) (regeneratingSkus s) (customInstructions s) (savedSession s)
    (isResumable s) (isCancelledRef s) (localStorage s) (calls s ++ [q]) (outcome s).

Definition settle (v : option Outcome) (s : State) : State :=
  mkState (originalData s) (processedData s) (processedRef s) (isLoading s) (error s) (file s)
    (progressMessage s) (regeneratingSkus s) (customInstructions s) (savedSession s)
    (isResumable s) (isCancelledRef s) (localStorage s) (calls s) v.

(** ** App: the session snapshot *)

(** Handlers are closures of a render.  Below, a parameter [r] is the state
    that render saw (what the closure reads as [file], [originalData],
    [processedData], [customInstructions]), and [s] is the state the handler's
    updates and its reads of the ref and of localStorage apply to. *)

Definition saveCurrentStateToSession (r : State) (isPartial : bool) (s : State) : State :=
  match file r with
  | Some fileName =>
      if 0 <? length (originalData r) then
        setStored
          (Some (SavedSession.mk fileName (originalData r) (processedData r) isPartial)) s
      else s
  | None => s
  end.

(** The effect that syncs edits to localStorage; it belongs to the current
    render. *)
Definition syncEffect (s : State) : State :=
  if bool_decide (is_Some (file s)) && (0 <? length (processedData s))
     && bool_decide (is_Some (localStorage s))
  then saveCurrentStateToSession s (isResumable s) s
  else s.

(** The render that follows a stretch of synchronous code: the updates of the
    stretch are applied together, and the effect runs when one of its
    dependencies [processedData] (by identity) or [isResumable] differs from
    the previous render [shown]. *)
Definition commit (shown s : State) : State :=
  if bool_decide (processedRef shown = processedRef s ∧ isResumable shown = isResumable s)
  then s else syncEffect s.

Definition handleDismissSession (s : State) : State :=
  setStored None (setSavedSession None s).

(** The session part of the effect run once at startup: a stored session
    with a file name is offered for restoration. *)
Definition sessionInit (s : State) : State :=
  match localStorage s with
  | Some sessionData =>
      if truthy (Some (SavedSession.fileName sessionData))
      then setSavedSession (Some sessionData) s
      else s
  | None => s
  end.

Definition handleStop (s : State) : State := setIsCancelled true s.

(** ** App: handleFileSelect *)

(** A row as the CSV or XLSX parser returns it: its columns in order; a cell
    that is [null] or [undefined] is [None]. *)
Abbreviation Row := (list (string * option string)) (only parsing).

Definition canonical_key `{M : StringPrototype} (originalKey : string) : string :=
  let lowerKey := trim (toLowerCase originalKey) in
  if bool_decide (lowerKey = "sku" ∨ lowerKey = "skus" ∨ lowerKey = "article number")
  then "sku"
  else if bool_decide (lowerKey = "name") then "name"
  else originalKey.

Definition normalizeRow `{M : StringPrototype} (row : Row) : Product :=
  foldl (λ normalizedRow cell,
           obj_set (canonical_key cell.1) (default "" cell.2) normalizedRow)
        [] row.

Definition normalizeData `{M : StringPrototype} (data : list Row) : list Product :=
  fmap normalizeRow data.

Definition MISSING_COLUMNS : string :=
  "Upload failed: Your file must contain 'sku' (or 'skus', 'Article Number') and 'name' columns.".
Definition MISSING_SKU_VALUE : string :=
  "Data validation failed: The first product is missing a value in the 'sku' column. SKUs are required for all products.".
Definition MISSING_NAME_VALUE : string :=
  "Data validation failed: The first product is missing a value in the 'name' column. Product names are required.".

(** The checks between [normalizeData] and [setOriginalData]: the message
    given to [setError], if any. *)
Definition validate (normalizedData : list Product) : option string :=
  match normalizedData with
  | [] => None
  | firstRow :: _ =>
      if negb (hasOwnProperty "sku" firstRow) || negb (hasOwnProperty "name" firstRow)
      then Some MISSING_COLUMNS
      else if negb (truthy (sku firstRow)) then Some MISSING_SKU_VALUE
      else if negb (truthy (name firstRow)) then Some MISSING_NAME_VALUE
      else None
  end.

(** The synchronous part of [handleFileSelect], for a file of that name. *)
Definition handleFileSelect (selectedFile : string) (s : State) : State :=
  commit s
    (setIsResumable false
       (setProgressMessage None
          (setError None
             (setProcessedData []
                (setOriginalData []
                   (setFile (Some selectedFile) (handleDismissSession s))))))).

(** [reader.onload], once the file content has been parsed into rows. *)
Definition onload `{M : StringPrototype} (resultsData : list Row) (s : State) : State :=
  let normalizedData := normalizeData resultsData in
  match validate normalizedData with
  | Some message => setError (Some message) s
  | None => setOriginalData normalizedData s
  end.

(** ** App: runGenerationProcess *)

(** What happens while the call for chunk [i] is in flight: how the service
    answers it, and whether the stop button is pressed. *)
Record Env : Type := mkEnv {
  reply : nat → Request → Reply Parsed;
  stopDuring : nat → bool
}.

Definition BATCH_SIZE : nat := 15.

(** [array.slice(i, j)] for [i <= j]. *)
Definition slice {A : Type} (i j : nat) (l : list A) : list A :=
  take (j - i) (drop i l).

(** The loop [for (i = 0; i < length; i += BATCH_SIZE) push(slice(i, i + BATCH_SIZE))]
    from [i] on; [fuel] bounds the number of rounds. *)
Fixpoint chunks_from {A : Type} (fuel i : nat) (l : list A) : list (list A) :=
  match fuel with
  | 0 => []
  | S fuel' =>
      if i <? length l
      then slice i (i + BATCH_SIZE) l :: chunks_from fuel' (i + BATCH_SIZE) l
      else []
  end.

Definition productChunks {A : Type} (l : list A) : list (list A) :=
  chunks_from (length l) 0 l.

Definition NOT_GENERATED : string := "Error: Not Generated".

Definition keyed (ps : list Product) : list (option string * Product) :=
  fmap (λ p, (sku p, p)) ps.

Definition processedChunk (chunk : list Product) (generatedMetas : list Meta) : list Product :=
  let metasMap := new_Map (fmap (λ m, (m_sku m, m)) generatedMetas) in
  fmap (λ product,
         let meta := metasMap !! sku product in
         with_meta (or_else (metaTitle <$> meta) NOT_GENERATED)
                   (or_else (metaDescription <$> meta) NOT_GENERATED) product)
      chunk.

(** The map built by the updater given to [setProcessedData] after a chunk:
    the previous rows by key, overwritten with the results of this run. *)
Definition newDataMap (currentRunResults prevData : list Product)
  : gmap (option string) Product :=
  map_set_all (keyed currentRunResults) (new_Map (keyed prevData)).

(** The updater: [originalData.map(og => newDataMap.get(og.sku)).filter(Boolean)]. *)
Definition merge (r : State) (currentRunResults prevData : list Product) : list Product :=
  omap (λ og, newDataMap currentRunResults prevData !! sku og) (originalData r).

Definition quota_message (processedCount total : nat) : string :=
  "Daily token limit reached. " +:+ show_nat processedCount +:+ " of " +:+ show_nat total
  +:+ " products were processed. You can download the partial results now or resume later when your quota is reset (midnight UTC).".

(** The catch block and the finally block of the run. *)
Definition run_catch (r : State) (initialProcessedCount : nat)
    (currentRunResults : list Product) (errorMessage : string) (s : State) : State :=
  let s :=
    if includes QUOTA_TAG errorMessage then
      let processedCount := initialProcessedCount + length currentRunResults in
      settle (Some QuotaExceeded)
        (saveCurrentStateToSession r true
           (setIsResumable true
              (setError (Some (quota_message processedCount (length (originalData r)))) s)))
    else settle (Some Failed) (setError (Some errorMessage) s) in
  setIsLoading false (setProgressMessage None s).

(** The code after the loop, and the finally block. *)
Definition run_end (r : State) (wasCancelled : bool) (totalTokensThisRun : nat)
    (s : State) : State :=
  let s :=
    if wasCancelled then
      settle (Some Stopped)
        (saveCurrentStateToSession r true
           (setIsResumable true (setProgressMessage (Some GenerationStopped) s)))
    else
      settle (Some Completed)
        (saveCurrentStateToSession r false
           (setProgressMessage
              (Some (GenerationComplete (length (originalData r)) totalTokensThisRun)) s)) in
  setIsLoading false s.

(** The request for a chunk leaves; while the call is in flight the render
    pending from the code run so far takes place. *)
Definition dispatch (r : State) (chunk : list Product) (shown s : State) : State :=
  commit shown (send (batch_request chunk (customInstructions r)) s).

(** The stop button, if it is pressed while call [i] is in flight. *)
Definition in_flight (env : Env) (i : nat) (s : State) : State :=
  if stopDuring env i then handleStop s else s.

(** The updates after a chunk's results have been appended to
    [currentRunResults]. *)
Definition merged (r : State) (initialProcessedCount : nat)
    (currentRunResults : list Product) (s : State) : State :=
  let overallProcessedCount := initialProcessedCount + length currentRunResults in
  setProgressMessage
    (Some (Processing overallProcessedCount (length (originalData r))))
    (setProcessedData (merge r currentRunResults (processedData s)) s).

(** The loop over the chunks, from chunk [i] on.  [shown] is the state of the
    last render. *)
Fixpoint process_chunks (r : State) (env : Env) (initialProcessedCount : nat)
    (i : nat) (chunks : list (list Product))
    (currentRunResults : list Product) (totalTokensThisRun : nat)
    (shown s : State) : State :=
  match chunks with
  | [] => commit shown (run_end r false totalTokensThisRun s)
  | chunk :: rest =>
      if isCancelledRef s then commit shown (run_end r true totalTokensThisRun s)
      else if length chunk =? 0 then
        process_chunks r env initialProcessedCount (S i) rest
          currentRunResults totalTokensThisRun shown s
      else
        let shown := dispatch r chunk shown s in
        let s := in_flight env i shown in
        match generateMetaContentForBatch chunk (customInstructions r) (reply env i) with
        | Fulfilled (generatedMetas, totalTokens) =>
            let totalTokensThisRun := totalTokensThisRun + totalTokens in
            let currentRunResults :=
              currentRunResults ++ processedChunk chunk generatedMetas in
            process_chunks r env initialProcessedCount (S i) rest
              currentRunResults totalTokensThisRun shown
              (merged r initialProcessedCount currentRunResults s)
        | Threw errorMessage =>
            commit shown (run_catch r initialProcessedCount currentRunResults errorMessage s)
        end
  end.

Definition runGenerationProcess (r : State) (env : Env)
    (productsToProcess : list Product) (shown s : State) : State :=
  let s := settle None (setIsResumable false (setError None (setIsLoading true s))) in
  let totalProductsInJob := length productsToProcess in
  if totalProductsInJob =? 0 then
    commit shown
      (settle (Some Completed) (setProgressMessage (Some AllProcessed) (setIsLoading false s)))
  else
    let initialProcessedCount := length (processedData r) in
    let s :=
      setProgressMessage
        (Some (Processing initialProcessedCount (length (originalData r)))) s in
    process_chunks r env initialProcessedCount 0 (productChunks productsToProcess)
      [] 0 shown s.

(** ** App: the handlers that start a run *)

Definition NO_DATA : string :=
  "No product data to process. Please upload a valid CSV or Excel file.".

Definition handleGenerate (r : State) (env : Env) (s : State) : State :=
  if length (originalData r) =? 0 then commit s (setError (Some NO_DATA) s)
  else
    runGenerationProcess r env (originalData r) s
      (setProcessedData [] (setIsCancelled false s)).

Definition handleResume (r : State) (env : Env) (s : State) : State :=
  let processedSkus : gset (option string) := list_to_set (fmap sku (processedData r)) in
  let remainingProducts :=
    filter (λ p, sku p ∉ processedSkus) (originalData r) in
  runGenerationProcess r env remainingProducts s (setIsCancelled false s).

(** ** App: handleCellChange and handleRegenerateRow *)

Definition handleCellChange (k : option string) (field value : string) (s : State) : State :=
  commit s
    (setProcessedData
       (fmap (λ row, if decide (sku row = k) then obj_set field value row else row)
            (processedData s)) s).

Definition REGENERATION_FAILED : string := "Error: Regeneration failed".

Definition regenerate_quota_message (k : option string) : string :=
  "Daily token limit reached. Regeneration failed for SKU " +:+ show_sku k
  +:+ ". Please try again later when your quota resets (midnight UTC).".

(** The code of [handleRegenerateRow] up to the [await]. *)
Definition regenerate_begin (r : State) (productToRegenerate : Product) (s : State) : State :=
  let k := sku productToRegenerate in
  commit s
    (send (single_request productToRegenerate (customInstructions r))
       (setError None (setRegeneratingSkus ({[k]} ∪ regeneratingSkus s) s))).

(** The code after the [await]: try, catch and finally. *)
Definition regenerate_end (productToRegenerate : Product) (instructions : string)
    (answer : Request → Reply Meta) (s : State) : State :=
  let k := sku productToRegenerate in
  let s' :=
    match generateMetaContentForSingleProduct productToRegenerate instructions answer with
    | Fulfilled (result, _) =>
        setProcessedData
          (fmap (λ row, if decide (sku row = k)
                       then with_meta (metaTitle result) (metaDescription result) row
                       else row)
               (processedData s)) s
    | Threw errorMessage =>
        if includes QUOTA_TAG errorMessage then
          setError (Some (regenerate_quota_message k)) s
        else
          setProcessedData
            (fmap (λ row, if decide (sku row = k)
                         then with_meta REGENERATION_FAILED
                                "Please try again or edit manually." row
                         else row)
                 (processedData s)) s
    end in
  commit s (setRegeneratingSkus (regeneratingSkus s' ∖ {[k]}) s').

Definition handleRegenerateRow (r : State) (productToRegenerate : Product)
    (answer : Request → Reply Meta) (s : State) : State :=
  regenerate_end productToRegenerate (customInstructions r) answer
    (regenerate_begin r productToRegenerate s).

Definition handleRestoreSession (s : State) : State :=
  match savedSession s with
  | Some saved =>
      let s1 :=
        setProcessedData (SavedSession.processedData saved)
          (setOriginalData (SavedSession.originalData saved)
             (setFile (Some (SavedSession.fileName saved)) s)) in
      let s2 :=
        if SavedSession.isResumable saved then
          setError
            (Some (quota_message (length (SavedSession.processedData saved))
                     (length (SavedSession.originalData saved))))
            (setIsResumable true s1)
        else s1 in
      commit s (handleDismissSession s2)
  | None => s
  end.

(** * The rest of the application *)

(** ** services/geminiService: the default instructions *)

Definition DEFAULT_AI_INSTRUCTIONS : string :=
  join (String dquote EmptyString)
    ["You are a world-class e-commerce SEO specialist and copywriter for Riva Fashion, a popular brand known for its stylish women's clothing and home goods.

Your mission is to craft compelling, SEO-optimized meta titles and descriptions. You will be given product data that includes a 'sku'.

**--- CRITICAL RULES (MUST FOLLOW) ---**

1.  **DO NOT INCLUDE THE SKU:** The product 'sku' is for identification ONLY. You MUST NOT, under any circumstances, include the 'sku' or any long product codes in the final 'metaTitle' or 'metaDescription'.

2.  **LANGUAGE DETECTION & PURITY:**
    - If a product's 'name' contains Arabic characters, you MUST generate the 'metaTitle' and 'metaDescription' in ARABIC.
    - If the language is ARABIC, the output text MUST contain ONLY Arabic characters, brand names in Arabic, numbers, and standard punctuation. Absolutely NO English letters are permitted in the Arabic content.
    - Otherwise, generate the 'metaTitle' and 'metaDescription' in ENGLISH.

3.  **ARABIC BRAND NAME TRANSLATION:** When generating content in Arabic, you MUST translate the brand names as follows:
    - ";
     "Riva Fashion";
     " becomes ";
     "ريفا فاشن";
     "
    - ";
     "Riva Home";
     " becomes ";
     "ريفا هوم";
     "
    - Use these exact translations. Do not use the English names in Arabic text.

4.  **ITERATE AND RETURN ALL (CRITICAL):** This is your most important instruction. You are receiving a list of products. You MUST iterate through this list one-by-one and generate a corresponding JSON object for EVERY SINGLE product without exception. The final output array MUST have the exact same number of items as the input `Product List`. If a product has insufficient data, you must still generate its JSON object with its correct ";
     "sku";
     " and use the specific string ";
     "Error: Could not generate due to insufficient data";
     " for both the ";
     "metaTitle";
     " and ";
     "metaDescription";
     " fields. DO NOT SKIP ANY PRODUCT. Omitting even one product from your response will cause a critical system failure.

**--- CONTENT GUIDELINES ---**

**Meta Title Guidelines:**
- Craft a complete, coherent, and appealing title.
- Strictly adhere to a 60-character limit. Do not truncate words or phrases unnaturally to meet this limit; prioritize a complete thought.
- Incorporate the primary product name and key features.
- For English titles, end with ";
     "| Riva Fashion";
     " (or ";
     "| Riva Home";
     ").
- For Arabic titles, end with ";
     "| ريفا فاشن";
     " (or ";
     "| ريفا هوم";
     " if it is a home product).

**Meta Description Guidelines:**
- Write a persuasive and complete description that sparks interest.
- Strictly adhere to a 160-character limit. Avoid abrupt endings.
- Showcase key features, style, and benefits by weaving in details from the product data.
- Transform product details into an engaging narrative. Avoid simply listing attributes.
- Naturally incorporate the correct brand name: ";
     "Riva Fashion";
     " for English, and ";
     "ريفا فاشن";
     " or ";
     "ريفا هوم";
     " for Arabic.

**--- QUALITY CHECKLIST (Before generating the final JSON) ---**
- Have I followed all CRITICAL RULES?
- Is my output array the exact same length as the input list?
- Is the language (English/Arabic) correct for the product?
- If Arabic, is the text 100% free of English letters?
- Is the SKU excluded from the title and description?
- Are the title and description complete, coherent, and not cut off?
- Is the correct brand name (and its correct translation) included?

**Technical Requirements:**
- Your entire response MUST be valid JSON that strictly adheres to the provided schema.
- The ";
     "sku";
     " in your JSON output must be an exact match to the input ";
     "sku";
     " to ensure correct data mapping. This is the ONLY place the SKU should appear."].

(** ** services/geminiService, the variant that writes both languages *)

Module Bilingual.

(** The shape of a response item and of a result. *)
Record Meta : Type := mkMeta {
  m_sku : option string;
  metaTitleEN : string;
  metaDescriptionEN : string;
  metaTitleAR : string;
  metaDescriptionAR : string
}.

Inductive Parsed : Type :=
| PArray (items : list Meta)
| PNotArray.

(** The four generated columns of this variant. *)
Definition GENERATED : list string :=
  ["Meta Title EN"; "Meta Description EN"; "Meta Title AR"; "Meta Description AR"].

(** The destructuring that drops them. *)
Definition strip_generated (p : Product) : Product :=
  obj_without "Meta Description AR"
    (obj_without "Meta Title AR"
       (obj_without "Meta Description EN" (obj_without "Meta Title EN" p))).

Inductive Request : Type :=
| BatchCall (instructions : string) (productDetailsForPrompt : list Product)
| SingleCall (instructions : string) (productDetailsForPrompt : Product).

Definition contents (r : Request) : string :=
  match r with
  | BatchCall instructions details =>
      nl +:+ spaces 8 +:+ instructions +:+ nl +:+
      nl +:+ spaces 8 +:+
      "Your task is to generate meta titles and descriptions in English and Arabic for EACH product in the following JSON list."
      +:+ nl +:+
      nl +:+ spaces 8 +:+ "Product List:" +:+ nl +:+
      spaces 8 +:+ stringify_array details +:+ nl +:+ spaces 4
  | SingleCall instructions details =>
      nl +:+ spaces 8 +:+
      "Your task is to generate a new meta title and a new meta description in both English and Arabic for the following product."
      +:+ nl +:+
      spaces 8 +:+ nl +:+
      spaces 8 +:+ instructions +:+ nl +:+
      nl +:+ spaces 8 +:+ "Product Details:" +:+ nl +:+
      spaces 8 +:+ stringify_object 0 details +:+ nl +:+ spaces 4
  end.

Definition batch_request (products : list Product) (instructions : string) : Request :=
  BatchCall instructions (fmap strip_generated products).

Definition single_request (product : Product) (instructions : string) : Request :=
  SingleCall instructions (strip_generated product).

Definition NO_RESPONSE_FOR_ITEM : string :=
  "The AI did not provide a response for this item.".

Definition fallback (k : option string) : Meta :=
  mkMeta k NO_AI_RESPONSE NO_RESPONSE_FOR_ITEM NO_AI_RESPONSE NO_RESPONSE_FOR_ITEM.

Definition finalResults (products : list Product) (items : list Meta) : list Meta :=
  let returnedResultsMap := new_Map (fmap (λ item, (m_sku item, item)) items) in
  fmap (λ originalProduct,
         match returnedResultsMap !! sku originalProduct with
         | Some result => result
         | None => fallback (sku originalProduct)
         end) products.

Definition generateMetaContentForBatch
    (products : list Product) (instructions : string)
    (generateContent : Request → Reply Parsed)
  : Settled (list Meta * nat) :=
  let failure := "Failed to generate meta content for a batch of products. " in
  match generateContent (batch_request products instructions) with
  | Resolved totalTokens (PArray items) =>
      Fulfilled (finalResults products items, totalTokens)
  | Resolved _ PNotArray =>
      Threw (rethrow failure
               (mkThrown "API response was not a JSON array as expected." NotJson))
  | Rejected t => Threw (rethrow failure t)
  end.

Definition generateMetaContentForSingleProduct
    (product : Product) (instructions : string)
    (generateContent : Request → Reply Meta)
  : Settled (Meta * nat) :=
  match generateContent (single_request product instructions) with
  | Resolved totalTokens result => Fulfilled (result, totalTokens)
  | Rejected t =>
      Threw (rethrow
               ("Failed to generate meta content for product SKU "
                  +:+ show_sku (sku product) +:+ ". ") t)
  end.
End Bilingual.

(** ** App: the first render *)

(** The state of a newly mounted component (the initial values given to
    [useState] and [useRef]) in a browser whose localStorage holds [stored]
    under the session key. *)
Definition initialState (stored : option SavedSession.t) : State :=
  mkState [] [] 0 false None None None ∅ DEFAULT_AI_INSTRUCTIONS None false false
    stored [] None.

(** The mount: the session part of the startup effect runs on the initial
    state. *)
Definition mount (stored : option SavedSession.t) : State :=
  sessionInit (initialState stored).

(** ** App: the theme *)

(** The [theme] state variable, the value stored under the key 'theme', and
    whether the document element carries the class 'dark'. *)
Module Theme.
Record t : Type := mk {
  theme : option string;
  stored : option string;
  darkClass : bool
}.
End Theme.

(** The effect on [theme]. *)
Definition themeEffect (t : Theme.t) : Theme.t :=
  match Theme.theme t with
  | Some (String c rest) =>
      let theme := String c rest in
      Theme.mk (Some theme) (Some theme) (bool_decide (theme = "dark"))
  | _ => t
  end.

(** The theme part of the startup effect, followed by the render it causes. *)
Definition themeInit (systemPrefersDark : bool) (t : Theme.t) : Theme.t :=
  let savedTheme := Theme.stored t in
  let theme :=
    if truthy savedTheme then savedTheme
    else Some (if systemPrefersDark then "dark" else "light") in
  themeEffect (Theme.mk theme (Theme.stored t) (Theme.darkClass t)).

Definition handleToggleTheme (t : Theme.t) : Theme.t :=
  let theme := if decide (Theme.theme t = Some "light") then "dark" else "light" in
  themeEffect (Theme.mk (Some theme) (Theme.stored t) (Theme.darkClass t)).

(** A page load in a browser that kept what [t] stored. *)
Definition themeReload (systemPrefersDark : bool) (t : Theme.t) : Theme.t :=
  themeInit systemPrefersDark (Theme.mk None (Theme.stored t) false).

(** ** components/FileUpload *)

(** [String.prototype.endsWith]. *)
Fixpoint endsWith (searchString s : string) : bool :=
  String.eqb s searchString ||
  match s with
  | EmptyString => false
  | String _ rest => endsWith searchString rest
  end.

Definition isValidFile `{M : StringPrototype} (fileName : string) : bool :=
  let lowerCaseName := toLowerCase fileName in
  endsWith ".csv" lowerCaseName || endsWith ".xlsx" lowerCaseName.

(** A file is taken by its name and by what reading it gives: [None] stands
    for a read that fails. *)
Record SelectedFile : Type := mkFile {
  file_name : string;
  readAsText : option string;
  readAsArrayBuffer : option (list Byte.byte)
}.

Module FileUpload.
Record t : Type := mk {
  isDragging : bool;
  fileName : string
}.

(** What a handler of the component does to the outside. *)
Inductive Effect : Type :=
| OnFileSelect (file : SelectedFile)
| Alert (message : string).

Definition INVALID_FILE : string := "Please upload a valid CSV or Excel (.xlsx) file.".

Definition handleDragEnter (disabled : bool) (c : t) : t :=
  if disabled then c else mk true (fileName c).

Definition handleDragLeave (c : t) : t := mk false (fileName c).

(** The check of the first file, shared by [handleDrop] and
    [handleFileChange]. *)
Definition take_first `{M : StringPrototype} (files : list SelectedFile) (c : t) : t * option Effect :=
  match files with
  | first :: _ =>
      if isValidFile (file_name first)
      then (mk (isDragging c) (file_name first), Some (OnFileSelect first))
      else (c, Some (Alert INVALID_FILE))
  | [] => (c, None)
  end.

Definition handleDrop `{M : StringPrototype} (disabled : bool) (files : list SelectedFile)
    (c : t)
  : t * option Effect :=
  let c := mk false (fileName c) in
  if disabled then (c, None) else take_first files c.

Definition handleFileChange `{M : StringPrototype} (files : list SelectedFile) (c : t)
  : t * option Effect :=
  take_first files c.
End FileUpload.

(** ** App: handleFileSelect, with the reader's callbacks *)

Inductive FileKind : Type := Csv | Xlsx.

(** The test on the file name that [handleFileSelect] makes to choose how to
    read the file, and makes again in [reader.onload] to choose the parser. *)
Definition fileKind `{M : StringPrototype} (fileName : string) : option FileKind :=
  if endsWith ".csv" (toLowerCase fileName) then Some Csv
  else if endsWith ".xlsx" (toLowerCase fileName) then Some Xlsx
  else None.

(** What the first sheet of a workbook gives: its rows, or the message of the
    exception the library throws. *)
Inductive Sheet : Type :=
| SheetRows (data : list Row)
| SheetThrew (errorMessage : string).

(** The parsing libraries: [Papa.parse] with its [errors] (their messages)
    and its [data]; [XLSX.read] followed by [sheet_to_json]. *)
Record Parsers : Type := mkParsers {
  Papa_parse : string → list string * list Row;
  XLSX_rows : list Byte.byte → Sheet
}.

Definition COULD_NOT_READ : string := "Could not read file content.".
Definition FAILED_TO_READ : string := "Failed to read the file.".
Definition UNSUPPORTED_FILE : string :=
  "Unsupported file type. Please upload a CSV or XLSX file.".

Definition csv_error (message : string) : string :=
  "Error parsing CSV file. Please check the console for details. First error: "
  +:+ message.

Definition parse_error (errorMessage : string) : string :=
  "Error parsing file: " +:+ errorMessage.

(** The updates [handleFileSelect] makes before it starts the reader. *)
Definition reset_for_file (selectedFile : string) (s : State) : State :=
  setIsResumable false
    (setProgressMessage None
       (setError None
          (setProcessedData []
             (setOriginalData []
                (setFile (Some selectedFile) (handleDismissSession s)))))).

(** [reader.onload] for a file read as text. *)
Definition onload_csv `{M : StringPrototype} (parsers : Parsers) (fileContent : string)
    (s : State) : State :=
  if truthy (Some fileContent) then
    let results := Papa_parse parsers fileContent in
    match results.1 with
    | first :: _ => setError (Some (csv_error first)) s
    | [] => onload results.2 s
    end
  else setError (Some COULD_NOT_READ) s.

(** [reader.onload] for a file read as an array buffer. *)
Definition onload_xlsx `{M : StringPrototype} (parsers : Parsers)
    (fileContent : list Byte.byte) (s : State) : State :=
  match XLSX_rows parsers fileContent with
  | SheetRows data => onload data s
  | SheetThrew errorMessage => setError (Some (parse_error errorMessage)) s
  end.

(** [handleFileSelect] and the callback of the reader that fires afterwards. *)
Definition selectFile `{M : StringPrototype} (parsers : Parsers)
    (selectedFile : SelectedFile) (s : State) : State :=
  let reset := reset_for_file (file_name selectedFile) s in
  match fileKind (file_name selectedFile) with
  | None => commit s (setError (Some UNSUPPORTED_FILE) reset)
  | Some kind =>
      let shown := commit s reset in
      commit shown
        match kind with
        | Csv =>
            match readAsText selectedFile with
            | Some fileContent => onload_csv parsers fileContent shown
            | None => setError (Some FAILED_TO_READ) shown
            end
        | Xlsx =>
            match readAsArrayBuffer selectedFile with
            | Some fileContent => onload_xlsx parsers fileContent shown
            | None => setError (Some FAILED_TO_READ) shown
            end
        end
  end.

(** The upload widget as the App renders it: disabled while a run is
    loading, and handing the file to [handleFileSelect]. *)
Definition dropFiles `{M : StringPrototype} (parsers : Parsers)
    (files : list SelectedFile) (c : FileUpload.t) (s : State) : State :=
  match (FileUpload.handleDrop (isLoading s) files c).2 with
  | Some (FileUpload.OnFileSelect selectedFile) => selectFile parsers selectedFile s
  | _ => s
  end.

(** ** App: handleDownload *)

(** [s.split('.')[0]]: what stands before the first dot. *)
Definition dot : Ascii.ascii := Ascii.ascii_of_nat 46.

Fixpoint before_first_dot (s : string) : string :=
  match s with
  | EmptyString => EmptyString
  | String c rest =>
      if Ascii.eqb c dot then EmptyString else String c (before_first_dot rest)
  end.

Definition NO_PROCESSED_DATA : string := "No processed data to download.".

Definition download_name (file : option string) : string :=
  "processed_" +:+ or_else (before_first_dot <$> file) "products" +:+ ".csv".

(** The link that is clicked: its [download] attribute and the rows given to
    [Papa.unparse]. *)
Record Download : Type := mkDownload {
  download : string;
  unparsed : list Product
}.

(** [supportsDownload] is the test [link.download !== undefined]. *)
Definition handleDownload (supportsDownload : bool) (s : State) : State * option Download :=
  if length (processedData s) =? 0 then
    (commit s (setError (Some NO_PROCESSED_DATA) s), None)
  else if supportsDownload then
    (s, Some (mkDownload (download_name (file s)) (processedData s)))
  else (s, None).

(** ** components/AdvancedSettings *)

(** The state variable [customInstructions], which only this component
    sets. *)
Definition setCustomInstructions (v : string) (s : State) : State :=
  mkState (originalData s) (processedData s) (processedRef s) (isLoading s) (error s)
    (file s) (progressMessage s) (regeneratingSkus s) v (savedSession s)
    (isResumable s) (isCancelledRef s) (localStorage s) (calls s) (outcome s).

Definition handleReset (s : State) : State :=
  commit s (setCustomInstructions DEFAULT_AI_INSTRUCTIONS s).

(** ** components/ProductTable *)

Module EditableCell.
Record t : Type := mk {
  isEditing : bool;
  value : string
}.

Inductive Key : Type := Enter | Escape | OtherKey.

(** [useState(initialValue)], and the effect that follows the prop. *)
Definition init (initialValue : string) : t := mk false initialValue.
Definition follow (initialValue : string) (c : t) : t := mk (isEditing c) initialValue.

Definition onClick (c : t) : t := mk true (value c).
Definition onChange (v : string) (c : t) : t := mk (isEditing c) v.

(** A handler returns the new state and the argument of [onSave], if it
    calls it. *)
Definition handleSave (initialValue : string) (c : t) : t * option string :=
  (mk false (value c), if decide (value c = initialValue) then None else Some (value c)).

Definition handleKeyDown (isTextArea : bool) (initialValue : string) (key : Key) (c : t)
  : t * option string :=
  match key with
  | Enter => if isTextArea then (c, None) else handleSave initialValue c
  | Escape => (mk false initialValue, None)
  | OtherKey => (c, None)
  end.
End EditableCell.

(** [Object.keys]. *)
Definition keys (o : Obj) : list string := o.*1.

(** ['Meta Title' in data[0]]. *)
Definition isProcessed (data : list Product) : bool :=
  match data with
  | first :: _ => hasOwnProperty MetaTitle first
  | [] => false
  end.

Definition ACTIONS : string := "Actions".

Definition headers (data : list Product) : list string :=
  match data with
  | first :: _ => keys first ++ (if isProcessed data then [ACTIONS] else [])
  | [] => []
  end.

(** [header.replace(/_/g, ' ')]. *)
Fixpoint header_label (header : string) : string :=
  match header with
  | EmptyString => EmptyString
  | String c rest =>
      String (if Ascii.eqb c (Ascii.ascii_of_nat 95) then Ascii.ascii_of_nat 32 else c)
        (header_label rest)
  end.

(** What a cell of the body holds. *)
Inductive Cell : Type :=
| ActionsCell (regenerating : bool)
| Editable (initialValue : string) (isTextArea : bool)
| Plain (cellValue : string).

Definition cell (data : list Product) (regeneratingSkus : gset (option string))
    (product : Product) (header : string) : Cell :=
  if decide (header = ACTIONS) then
    ActionsCell (bool_decide (sku product ∈ regeneratingSkus))
  else
    let cellValue := or_else (obj_get header product) "" in
    if isProcessed data
       && (bool_decide (header = MetaTitle) || bool_decide (header = MetaDescription))
    then Editable cellValue (bool_decide (header = MetaDescription))
    else Plain cellValue.

(** The table as the App renders it: an editable cell of [product] under
    [header] in which [typed] stands is left (blur). *)
Definition leaveCell (product : Product) (header typed : string) (s : State) : State :=
  let initialValue := or_else (obj_get header product) "" in
  match (EditableCell.handleSave initialValue (EditableCell.mk true typed)).2 with
  | Some newValue => handleCellChange (sku product) header newValue s
  | None => s
  end.

(** ** App: what the render offers *)

(** The block of step 2 is rendered. *)
Definition step2 (s : State) : bool :=
  ((0 <? length (originalData s)) && negb (0 <? length (processedData s))
   && negb (isResumable s))
  || (isResumable s && (0 <? length (originalData s))).

(** The block of step 3 is rendered. *)
Definition step3 (s : State) : bool := 0 <? length (processedData s).

(** A button is rendered and not disabled. *)
Definition canGenerate (s : State) : bool :=
  step2 s && negb (isResumable s)
  && negb (isLoading s || (length (originalData s) =? 0)).

Definition canResume (s : State) : bool :=
  (step2 s && isResumable s && negb (isLoading s))
  || (step3 s && isResumable s && negb (isLoading s)).

Definition canStop (s : State) : bool := isLoading s.

Definition canDownload (s : State) : bool := step3 s && negb (isLoading s).

Definition canUpload (s : State) : bool := negb (isLoading s).

(** The rows given to [ProductTable]: the processed table, or else the
    preview of the records. *)
Definition tableData (s : State) : option (list Product) :=
  if step3 s then Some (processedData s)
  else if (0 <? length (originalData s)) && (length (processedData s) =? 0)
          && negb (isLoading s) && negb (isResumable s)
  then Some (originalData s)
  else None.

(** * The vocabulary of the properties *)

(** The rows a request carries. *)
Definition request_rows (q : Request) : list Product :=
  match q with
  | BatchCall _ details => details
  | SingleCall _ details => [details]
  end.

(** Two records that differ at most in what was written to the generated
    columns. *)
Definition same_but_generated (p q : Product) : Prop :=
  ∃ (base : Product) (t d t' d' : string),
    p = with_meta t d base ∧ q = with_meta t' d' base.

(** The headers mapped onto the key column. *)
Definition is_key_header `{M : StringPrototype} (originalKey : string) : Prop :=
  let lowerKey := trim (toLowerCase originalKey) in
  lowerKey = "sku" ∨ lowerKey = "skus" ∨ lowerKey = "article number".

(** The two messages for a missing value in the first row. *)
Definition MissingRequiredValue (message : string) : Prop :=
  message = MISSING_SKU_VALUE ∨ message = MISSING_NAME_VALUE.

(** What the state looks like when the reply to chunk [i] is being merged. *)
Definition received (r : State) (env : Env) (i : nat) (chunk : list Product)
    (shown s : State) : State :=
  in_flight env i (dispatch r chunk shown s).

(** How the loop ends: past the last chunk, at a chunk where it finds the
    flag set, or at a chunk whose call throws. *)
Inductive Ending : Type :=
| EndsComplete
| EndsStopped
| EndsThrew (message : string).

Definition outcome_of (e : Ending) : Outcome :=
  match e with
  | EndsComplete => Completed
  | EndsStopped => Stopped
  | EndsThrew message => if includes QUOTA_TAG message then QuotaExceeded else Failed
  end.

Definition sent_at_end (e : Ending) : nat :=
  match e with
  | EndsThrew _ => 1
  | _ => 0
  end.

(** The call for chunk [i] succeeds. *)
Definition chunk_ok (r : State) (env : Env) (i : nat) (chunk : list Product) : Prop :=
  ∃ metas tokens,
    generateMetaContentForBatch chunk (customInstructions r) (reply env i)
      = Fulfilled (metas, tokens).

(** The rows appended to [currentRunResults] for chunk [i]. *)
Definition chunk_results (r : State) (env : Env) (i : nat) (chunk : list Product) : list Product :=
  match generateMetaContentForBatch chunk (customInstructions r) (reply env i) with
  | Fulfilled (metas, _) => processedChunk chunk metas
  | Threw _ => []
  end.

Fixpoint run_results (r : State) (env : Env) (i : nat) (chunks : list (list Product))
  : list Product :=
  match chunks with
  | [] => []
  | chunk :: rest => chunk_results r env i chunk ++ run_results r env (S i) rest
  end.

(** From chunk [i] on, with the flag at [flag], the loop makes [k] successful
    rounds and then ends by [e]. *)
Fixpoint follows (r : State) (env : Env) (i k : nat) (e : Ending)
    (chunks : list (list Product)) (flag : bool) : Prop :=
  match k, chunks with
  | 0, [] => e = EndsComplete
  | 0, chunk :: _ =>
      (e = EndsStopped ∧ flag = true)
      ∨ (∃ message,
           e = EndsThrew message ∧ flag = false
           ∧ generateMetaContentForBatch chunk (customInstructions r) (reply env i)
             = Threw message)
  | S k', chunk :: rest =>
      flag = false ∧ chunk_ok r env i chunk
      ∧ follows r env (S i) k' e rest (stopDuring env i)
  | S _, [] => False
  end.

(** What holds of the state [final] in which the loop ends, when it started
    at chunk [i] in state [s] with results [acc] and followed the script. *)
Definition ends_as (r : State) (env : Env) (ipc : nat) (i k : nat) (e : Ending)
    (chunks : list (list Product)) (acc : list Product) (s final : State) : Prop :=
  let results := acc ++ run_results r env i (take k chunks) in
  calls final
    = calls s
      ++ ((λ chunk, batch_request chunk (customInstructions r))
            <$> take (k + sent_at_end e) chunks)
  ∧ outcome final = Some (outcome_of e)
  ∧ isLoading final = false
  ∧ isResumable final
      = match outcome_of e with
        | Stopped | QuotaExceeded => true
        | _ => isResumable s
        end
  ∧ error final
      = match e with
        | EndsThrew message =>
            Some (if includes QUOTA_TAG message
                  then quota_message (ipc + length results) (length (originalData r))
                  else message)
        | _ => error s
        end
  ∧ (e = EndsStopped → progressMessage final = Some GenerationStopped)
  ∧ (k = 0 → processedData final = processedData s)
  ∧ (0 < k → ∃ prev, processedData final = merge r results prev)
  ∧ (∀ row, row ∈ processedData final → row ∈ processedData s ∨ row ∈ results)
  ∧ (processedData s = acc →
     NoDup (sku <$> originalData r) →
     sku <$> results = take (length results) (sku <$> originalData r) →
     processedData final = results).

(** The updates of [runGenerationProcess] before the loop. *)
Definition run_begin (r s : State) : State :=
  setProgressMessage
    (Some (Processing (length (processedData r)) (length (originalData r))))
    (settle None (setIsResumable false (setError None (setIsLoading true s)))).

(** The token count of the reply to chunk [i], and the sum over a run of
    chunks. *)
Definition chunk_tokens (r : State) (env : Env) (i : nat) (chunk : list Product) : nat :=
  match generateMetaContentForBatch chunk (customInstructions r) (reply env i) with
  | Fulfilled (_, totalTokens) => totalTokens
  | Threw _ => 0
  end.

Fixpoint run_tokens (r : State) (env : Env) (i : nat) (chunks : list (list Product)) : nat :=
  match chunks with
  | [] => 0
  | chunk :: rest => chunk_tokens r env i chunk + run_tokens r env (S i) rest
  end.

(** The headers mapped onto the name column. *)
Definition is_name_header `{M : StringPrototype} (originalKey : string) : Prop :=
  trim (toLowerCase originalKey) = "name".

(** The value of the last cell of a row whose header is mapped onto the
    column [k]. *)
Definition last_cell `{M : StringPrototype} (k : string) (row : Row) : option string :=
  (λ cell, default "" cell.2) <$> last (filter (λ cell, canonical_key cell.1 = k) row).

(** The outcomes after which a run can be resumed. *)
Definition resumable (o : Outcome) : bool :=
  match o with
  | Stopped | QuotaExceeded => true
  | Completed | Failed => false
  end.

(** * Example data *)

(** The two string methods as far as text of ASCII characters goes; the
    headers and file names of the examples are such text. *)
Definition ascii_strings : StringPrototype :=
  {| toLowerCase := toLowerCase_ascii; trim := trim_ascii |}.

Definition blank_state : State :=
  mkState [] [] 0 false None None None ∅ "" None false false None [] None.

Definition two_rows_done : State :=
  setProcessedData
    [with_meta "Dress | Riva Fashion" "A dress." [("sku", "A1"); ("name", "Dress")];
     with_meta "Lamp | Riva Home" "A lamp." [("sku", "B2"); ("name", "Lamp")]]
    (setOriginalData
       [[("sku", "A1"); ("name", "Dress")]; [("sku", "B2"); ("name", "Lamp")]]
       (setFile (Some "products.csv") blank_state)).

(** Seventeen records p1 .. p17, loaded from a file. *)
Definition records17 : list Product :=
  (λ n, [("sku", "p" +:+ show_nat n); ("name", "Product " +:+ show_nat n)]) <$> seq 1 17.

Definition loaded17 : State :=
  setOriginalData records17 (setFile (Some "products.csv") blank_state).

(** Thirty-two records, for runs of three chunks. *)
Definition records32 : list Product :=
  (λ n, [("sku", "p" +:+ show_nat n); ("name", "Product " +:+ show_nat n)]) <$> seq 1 32.

Definition loaded32 : State :=
  setOriginalData records32 (setFile (Some "products.csv") blank_state).

(** A service that answers every call with a title for each record sent. *)
Definition echo_service (q : Request) : Reply Parsed :=
  Resolved 100
    (PArray ((λ row, mkMeta (sku row) "Title | Riva Fashion" "Description.")
               <$> request_rows q)).

Definition always_ok : Env := mkEnv (λ _, echo_service) (λ _, false).

(** The stop button is pressed while the first of two calls is in flight. *)
Definition stop_during_first : Env := mkEnv (λ _, echo_service) (λ j, bool_decide (j = 0)).

(** The service's quota error: the message of the exception is the JSON
    text of the error object, which the client parses. *)
Definition quota_error : Thrown :=
  mkThrown
    (join (String dquote EmptyString)
       ["{"; "error"; ":{"; "code"; ":429,"; "message"; ":";
        "You exceeded your current quota."; ","; "status"; ":"; "RESOURCE_EXHAUSTED";
        "}}"])
    (ErrorField (Some "You exceeded your current quota.") (Some RESOURCE_EXHAUSTED)).

(** The second of two calls fails with the service's quota error. *)
Definition quota_at_second : Env :=
  mkEnv (λ j q, if bool_decide (j = 1) then Rejected quota_error else echo_service q)
        (λ _, false).

(** The second of two calls fails for a reason that is not the quota. *)
Definition failure_at_second : Env :=
  mkEnv (λ j q, if bool_decide (j = 1)
                then Rejected (mkThrown "network down" NotJson)
                else echo_service q)
        (λ _, false).

(** Four records, of which the first two have been processed. *)
Definition four_records : list Product :=
  [[("sku", "A"); ("name", "a")]; [("sku", "B"); ("name", "b")];
   [("sku", "C"); ("name", "c")]; [("sku", "D"); ("name", "d")]].

Definition two_of_four_done : State :=
  setIsResumable true
    (setProcessedData (with_meta "Title" "Description" <$> take 2 four_records)
       (setOriginalData four_records (setFile (Some "products.csv") blank_state))).

(** The stop button is pressed while the second of two calls is in flight. *)
Definition stop_during_second : Env :=
  mkEnv (λ _, echo_service) (λ j, bool_decide (j = 1)).

(** A service whose call fails outside the quota. *)
Definition network_down (q : Request) : Reply Parsed :=
  Rejected (mkThrown "network down" NotJson).

(** A page on which a stored session is offered. *)
Definition offered_session : State :=
  mount (Some (SavedSession.mk "products.csv" four_records
                 (with_meta "Title" "Description" <$> take 2 four_records) true)).

(** * Properties *)

(** ** Objects *)

Lemma obj_get_set_eq (k v : string) (o : Obj) : obj_get k (obj_set k v o) = Some v.
Proof.
  induction o as [|[k' v'] o IH]; simpl.
  - by rewrite decide_True.
  - destruct (decide (k' = k)) as [->|Hne]; simpl.
    + by rewrite decide_True.
    + by rewrite decide_False.
Qed.

Lemma obj_get_set_ne (k k' v : string) (o : Obj) :
  k ≠ k' → obj_get k' (obj_set k v o) = obj_get k' o.
Proof.
  intros Hne. induction o as [|[k0 v0] o IH]; simpl.
  - by rewrite decide_False.
  - destruct (decide (k0 = k)) as [->|Hk]; simpl.
    + by rewrite !decide_False.
    + by rewrite IH.
Qed.

Lemma obj_without_set_eq (k v : string) (o : Obj) :
  obj_without k (obj_set k v o) = obj_without k o.
Proof.
  unfold obj_without. induction o as [|[k' v'] o IH]; simpl.
  - rewrite filter_cons_False; [done | simpl; auto].
  - destruct (decide (k' = k)) as [->|Hne].
    + rewrite !filter_cons_False; simpl; auto.
    + rewrite !filter_cons_True; simpl; auto. by rewrite IH.
Qed.

Lemma obj_without_set_ne (k k' v : string) (o : Obj) :
  k ≠ k' → obj_without k (obj_set k' v o) = obj_set k' v (obj_without k o).
Proof.
  intros Hne. unfold obj_without. induction o as [|[k0 v0] o IH]; simpl.
  - rewrite filter_cons_True; simpl; auto.
  - destruct (decide (k0 = k')) as [->|Hk].
    + rewrite !filter_cons_True; simpl; auto. by rewrite decide_True.
    + destruct (decide (k0 = k)) as [->|Hk0].
      * rewrite !filter_cons_False; simpl; auto.
      * rewrite !filter_cons_True; simpl; auto. by rewrite decide_False, IH.
Qed.

Lemma obj_get_without_eq (k : string) (o : Obj) : obj_get k (obj_without k o) = None.
Proof.
  unfold obj_without. induction o as [|[k' v'] o IH]; [done|].
  destruct (decide (k' = k)) as [->|Hne].
  - rewrite filter_cons_False; simpl; auto.
  - rewrite filter_cons_True; simpl; auto. by rewrite decide_False.
Qed.

Lemma obj_get_without_ne (k k' : string) (o : Obj) :
  k ≠ k' → obj_get k' (obj_without k o) = obj_get k' o.
Proof.
  intros Hne. unfold obj_without. induction o as [|[k0 v0] o IH]; [done|].
  destruct (decide (k0 = k)) as [->|Hk].
  - rewrite filter_cons_False; simpl; auto. by rewrite decide_False.
  - rewrite filter_cons_True; simpl; auto. by rewrite IH.
Qed.

Lemma sku_with_meta (t d : string) (p : Product) : sku (with_meta t d p) = sku p.
Proof. unfold sku, with_meta. by rewrite !obj_get_set_ne. Qed.

Lemma strip_with_meta (t d : string) (p : Product) :
  strip_generated (with_meta t d p) = strip_generated p.
Proof.
  unfold strip_generated, with_meta.
  rewrite (obj_without_set_ne MetaTitle MetaDescription) by done.
  by rewrite !obj_without_set_eq.
Qed.

Lemma strip_has_no_generated (p : Product) :
  obj_get MetaTitle (strip_generated p) = None
  ∧ obj_get MetaDescription (strip_generated p) = None.
Proof.
  unfold strip_generated. split.
  - rewrite obj_get_without_ne by done. apply obj_get_without_eq.
  - apply obj_get_without_eq.
Qed.

(** ** Maps built by successive insertions *)

Section js_map_facts.
Context {K V : Type} `{Countable K}.
Implicit Types (entries : list (K * V)) (m : gmap K V).

Lemma map_set_all_snoc entries kv m :
  map_set_all (entries ++ [kv]) m = <[kv.1 := kv.2]> (map_set_all entries m).
Proof. unfold map_set_all. by rewrite foldl_snoc. Qed.

Lemma map_set_all_app entries entries' m :
  map_set_all (entries ++ entries') m = map_set_all entries' (map_set_all entries m).
Proof. unfold map_set_all. by rewrite foldl_app. Qed.

(** A key that no entry carries keeps its old binding. *)
Lemma lookup_map_set_all_notin entries m k :
  k ∉ entries.*1 → map_set_all entries m !! k = m !! k.
Proof.
  revert m. induction entries as [|[k' v] entries IH]; intros m Hk; [done|].
  simpl in *. apply not_elem_of_cons in Hk as [Hne Hk].
  change (map_set_all entries (<[k':=v]> m) !! k = m !! k).
  rewrite IH by done. by rewrite lookup_insert_ne.
Qed.

(** A key that some entry carries is bound to one of the entries. *)
Lemma lookup_map_set_all_in entries m k :
  k ∈ entries.*1 → ∃ v, map_set_all entries m !! k = Some v ∧ (k, v) ∈ entries.
Proof.
  induction entries as [|[k' v] entries IH] using rev_ind; intros Hk.
  { by apply elem_of_nil in Hk. }
  rewrite map_set_all_snoc. simpl.
  destruct (decide (k' = k)) as [->|Hne].
  - exists v. rewrite lookup_insert_eq. split; [done|].
    apply elem_of_app. right. by apply list_elem_of_singleton.
  - rewrite fmap_app in Hk. apply elem_of_app in Hk as [Hk|Hk].
    + destruct (IH Hk) as (w & Hw & Hin). exists w.
      rewrite lookup_insert_ne by done. split; [done|].
      apply elem_of_app. by left.
    + simpl in Hk. apply list_elem_of_singleton in Hk. congruence.
Qed.

(** Every binding comes from the old map or from an entry. *)
Lemma lookup_map_set_all_Some entries m k v :
  map_set_all entries m !! k = Some v → (k, v) ∈ entries ∨ m !! k = Some v.
Proof.
  intros Hv. destruct (decide (k ∈ entries.*1)) as [Hin|Hnotin].
  - destruct (lookup_map_set_all_in entries m k Hin) as (w & Hw & Hmem).
    left. congruence.
  - right. by rewrite lookup_map_set_all_notin in Hv.
Qed.

Lemma lookup_new_Map_None entries k :
  new_Map entries !! k = None ↔ k ∉ entries.*1.
Proof.
  unfold new_Map. split.
  - intros Hnone Hin.
    destruct (lookup_map_set_all_in entries ∅ k Hin) as (w & Hw & _). congruence.
  - intros Hnotin. by rewrite lookup_map_set_all_notin.
Qed.

Lemma NoDup_fst_agree entries k v w :
  NoDup entries.*1 → (k, v) ∈ entries → (k, w) ∈ entries → v = w.
Proof.
  induction entries as [|[k' v'] entries IH]; simpl; intros Hnd Hv Hw.
  { by apply elem_of_nil in Hv. }
  apply NoDup_cons in Hnd as [Hfresh Hnd].
  apply elem_of_cons in Hv as [Hv|Hv]; apply elem_of_cons in Hw as [Hw|Hw].
  - congruence.
  - exfalso. apply Hfresh. apply list_elem_of_fmap. exists (k, w).
    split; [|done]. simpl. congruence.
  - exfalso. apply Hfresh. apply list_elem_of_fmap. exists (k, v).
    split; [|done]. simpl. congruence.
  - by apply IH.
Qed.

(** With pairwise distinct keys every entry is found under its key. *)
Lemma lookup_map_set_all_NoDup entries m k v :
  NoDup entries.*1 → (k, v) ∈ entries → map_set_all entries m !! k = Some v.
Proof.
  intros Hnd Hin.
  assert (k ∈ entries.*1) as Hk by (apply list_elem_of_fmap; by exists (k, v)).
  destruct (lookup_map_set_all_in entries m k Hk) as (w & Hw & Hmem).
  rewrite Hw. f_equal. by eapply NoDup_fst_agree.
Qed.
End js_map_facts.

(** ** The generation client *)

Lemma prefix_append (a b : string) : String.prefix a (a +:+ b) = true.
Proof.
  induction a as [|c a IH]; simpl.
  - by destruct b.
  - destruct (Ascii.ascii_dec c c); [done | congruence].
Qed.

Lemma includes_append (a b : string) : includes a (a +:+ b) = true.
Proof.
  pose proof (prefix_append a b) as Hp.
  destruct (a +:+ b); unfold includes; fold includes; by rewrite Hp.
Qed.

(** A quota error leaves the client with the quota tag in front. *)
Lemma rethrow_quota (failure_prefix : string) (t : Thrown) :
  isQuotaError t = true →
  rethrow failure_prefix t = QUOTA_TAG +:+ " " +:+ detailedMessage t
  ∧ includes QUOTA_TAG (rethrow failure_prefix t) = true.
Proof.
  intros Hq. unfold rethrow. rewrite Hq. split; [done|]. apply includes_append.
Qed.

(** A status of RESOURCE_EXHAUSTED in the parsed error is a quota error. *)
Lemma isQuotaError_status (raw : string) (message : option string) :
  isQuotaError (mkThrown raw (ErrorField message (Some RESOURCE_EXHAUSTED))) = true.
Proof. reflexivity. Qed.

Lemma same_but_generated_strip (p q : Product) :
  same_but_generated p q → strip_generated p = strip_generated q.
Proof.
  intros (base & t & d & t' & d' & -> & ->). by rewrite !strip_with_meta.
Qed.

Lemma finalResults_lookup (products : list Product) (items : list Meta) (i : nat) (p : Product) :
  products !! i = Some p →
  finalResults products items !! i =
    Some (match new_Map ((λ item, (m_sku item, item)) <$> items) !! sku p with
          | Some result => mkMeta (m_sku result) (metaTitle result) (metaDescription result)
          | None => mkMeta (sku p) NO_AI_RESPONSE
                      "The AI did not provide a response for this item in the batch."
          end).
Proof. intros Hp. unfold finalResults. by rewrite list_lookup_fmap, Hp. Qed.

Lemma item_keys (items : list Meta) :
  ((λ item, (m_sku item, item)) <$> items).*1 = m_sku <$> items.
Proof. rewrite <- list_fmap_compose. done. Qed.

Lemma finalResults_keys (products : list Product) (items : list Meta) :
  m_sku <$> finalResults products items = sku <$> products.
Proof.
  unfold finalResults. rewrite <- list_fmap_compose. apply list_fmap_ext.
  intros i p _. simpl.
  destruct (new_Map _ !! sku p) as [result|] eqn:Hres; [|done]. simpl.
  apply lookup_map_set_all_Some in Hres as [Hin|Hempty]; [|by rewrite lookup_empty in Hempty].
  apply list_elem_of_fmap in Hin as (item & Heq & _). by inversion Heq.
Qed.



(** C8: the generated columns 'Meta Title' and 'Meta Description' are removed
    from every record before it is put into the request, for the batch call
    and for the single-product call alike, so records that differ only in
    what those columns hold yield the same request and the same prompt. *)
Theorem generated_columns_never_sent
    (instructions : string) (products products' : list Product) (p p' : Product) :
  Forall2 same_but_generated products products' →
  same_but_generated p p' →
  Forall (λ row, obj_get MetaTitle row = None ∧ obj_get MetaDescription row = None)
    (request_rows (batch_request products instructions))
  ∧ Forall (λ row, obj_get MetaTitle row = None ∧ obj_get MetaDescription row = None)
      (request_rows (single_request p instructions))
  ∧ batch_request products instructions = batch_request products' instructions
  ∧ contents (batch_request products instructions)
      = contents (batch_request products' instructions)
  ∧ single_request p instructions = single_request p' instructions
  ∧ contents (single_request p instructions) = contents (single_request p' instructions).
Proof.
  intros Hrows Hrow.
  assert (strip_generated <$> products = strip_generated <$> products') as Hsame.
  { induction Hrows as [|a b la lb Hab _ IH]; [done|].
    rewrite !fmap_cons. f_equal; [by apply same_but_generated_strip | exact IH]. }
  assert (strip_generated p = strip_generated p') as Hone
    by by apply same_but_generated_strip.
  split.
  { simpl. apply Forall_fmap, Forall_forall. intros row _. apply strip_has_no_generated. }
  split.
  { simpl. apply Forall_singleton, strip_has_no_generated. }
  unfold batch_request, single_request. rewrite Hsame, Hone. done.
Qed.

Lemma generated_columns_never_sent_witness :
  contents (batch_request
              [with_meta "Old title" "Old description" [("sku", "A1"); ("name", "Dress")]]
              "instructions")
  = contents (batch_request
                [with_meta "Error: No AI Response" "x" [("sku", "A1"); ("name", "Dress")]]
                "instructions").
Proof.
  refine (proj1 (proj2 (proj2 (proj2
    (generated_columns_never_sent "instructions"
       [with_meta "Old title" "Old description" [("sku", "A1"); ("name", "Dress")]]
       [with_meta "Error: No AI Response" "x" [("sku", "A1"); ("name", "Dress")]]
       (with_meta "t" "d" [("sku", "A1")]) (with_meta "t2" "d2" [("sku", "A1")])
       _ _))))).
  - constructor; [|constructor].
    exists [("sku", "A1"); ("name", "Dress")], "Old title", "Old description",
      "Error: No AI Response", "x". split; reflexivity.
  - exists [("sku", "A1")], "t", "d", "t2", "d2". split; reflexivity.
Defined.

(** ** The record normalizer *)

Lemma ascii_strings_spec : StringPrototypeSpec ascii_strings.
Proof. split; reflexivity. Qed.

Section normalizer.
Context `{M : StringPrototype} `{!StringPrototypeSpec M}.

(** The lowercased, trimmed form of a header of ASCII characters. *)
Lemma lowerKey_of_ascii (h : string) :
  isAscii h = true → trim (toLowerCase h) = trim_ascii (toLowerCase_ascii h).
Proof.
  intros Hh. rewrite (toLowerCase_of_ascii h Hh). apply trim_of_ascii.
  clear -Hh. induction h as [|c h IH]; [done|].
  simpl in *. apply andb_prop in Hh as [Hc Hh]. rewrite (IH Hh), andb_true_r.
  unfold lower_ascii. destruct (_ && _) eqn:Hup; [|done].
  apply andb_prop in Hup as [_ Hup]. apply Nat.leb_le in Hup.
  rewrite Ascii.nat_ascii_embedding by lia. apply Nat.ltb_lt. lia.
Qed.

Lemma is_key_header_sku : is_key_header "sku".
Proof. left. by rewrite lowerKey_of_ascii. Qed.

Lemma is_name_header_name : is_name_header "name".
Proof. unfold is_name_header. by rewrite lowerKey_of_ascii. Qed.

Lemma canonical_key_is_sku (h : string) : is_key_header h → canonical_key h = "sku".
Proof. intros Hh. unfold canonical_key. by rewrite bool_decide_true. Qed.

Lemma canonical_key_not_sku (h : string) : ¬ is_key_header h → canonical_key h ≠ "sku".
Proof.
  intros Hh. unfold canonical_key. rewrite bool_decide_false by exact Hh.
  case_bool_decide; [done|].
  intros ->. apply Hh. apply is_key_header_sku.
Qed.

Lemma normalize_rest_keeps_sku (post : Row) (o : Obj) :
  Forall (λ cell, ¬ is_key_header cell.1) post →
  obj_get "sku"
    (foldl (λ normalizedRow cell,
              obj_set (canonical_key cell.1) (default "" cell.2) normalizedRow) o post)
  = obj_get "sku" o.
Proof.
  intros Hpost. revert o. induction Hpost as [|cell post Hcell _ IH]; intros o; [done|].
  simpl. rewrite IH. apply obj_get_set_ne. by apply canonical_key_not_sku.
Qed.

Lemma truthy_Some_empty : truthy (Some "") = false.
Proof. reflexivity. Qed.

End normalizer.


(** ** Renders and the stored session *)

(** A render touches nothing but the stored session. *)
Ltac commit_cases :=
  unfold commit, syncEffect, saveCurrentStateToSession;
  repeat case_match; simpl; congruence.

Lemma originalData_commit shown s : originalData (commit shown s) = originalData s.
Proof. commit_cases. Qed.
Lemma processedData_commit shown s : processedData (commit shown s) = processedData s.
Proof. commit_cases. Qed.
Lemma processedRef_commit shown s : processedRef (commit shown s) = processedRef s.
Proof. commit_cases. Qed.
Lemma isLoading_commit shown s : isLoading (commit shown s) = isLoading s.
Proof. commit_cases. Qed.
Lemma error_commit shown s : error (commit shown s) = error s.
Proof. commit_cases. Qed.
Lemma file_commit shown s : file (commit shown s) = file s.
Proof. commit_cases. Qed.
Lemma progressMessage_commit shown s : progressMessage (commit shown s) = progressMessage s.
Proof. commit_cases. Qed.
Lemma regeneratingSkus_commit shown s :
  regeneratingSkus (commit shown s) = regeneratingSkus s.
Proof. commit_cases. Qed.
Lemma isResumable_commit shown s : isResumable (commit shown s) = isResumable s.
Proof. commit_cases. Qed.
Lemma isCancelledRef_commit shown s : isCancelledRef (commit shown s) = isCancelledRef s.
Proof. commit_cases. Qed.
Lemma calls_commit shown s : calls (commit shown s) = calls s.
Proof. commit_cases. Qed.
Lemma outcome_commit shown s : outcome (commit shown s) = outcome s.
Proof. commit_cases. Qed.

Create Rewrite HintDb commit_fields.
#[global] Hint Rewrite originalData_commit processedData_commit processedRef_commit
  isLoading_commit error_commit file_commit progressMessage_commit
  regeneratingSkus_commit isResumable_commit isCancelledRef_commit calls_commit
  outcome_commit : commit_fields.

(** ** The row override controller *)

(** A quota error of the single-product call reaches the handler tagged. *)
Lemma single_quota_error_is_tagged (product : Product) (instructions : string)
    (answer : Request → Reply Meta) (t : Thrown) :
  answer (single_request product instructions) = Rejected t →
  isQuotaError t = true →
  ∃ message,
    generateMetaContentForSingleProduct product instructions answer = Threw message
    ∧ includes QUOTA_TAG message = true.
Proof.
  intros Hanswer Hquota. unfold generateMetaContentForSingleProduct. rewrite Hanswer.
  eexists. split; [reflexivity|]. by apply rethrow_quota.
Qed.

Lemma obj_get_with_meta_title (t d : string) (p : Product) :
  obj_get MetaTitle (with_meta t d p) = Some t.
Proof.
  unfold with_meta. rewrite obj_get_set_ne by done. apply obj_get_set_eq.
Qed.

Lemma obj_get_with_meta_description (t d : string) (p : Product) :
  obj_get MetaDescription (with_meta t d p) = Some d.
Proof. unfold with_meta. apply obj_get_set_eq. Qed.

Lemma obj_get_with_meta_other (t d c : string) (p : Product) :
  c ≠ MetaTitle → c ≠ MetaDescription → obj_get c (with_meta t d p) = obj_get c p.
Proof.
  intros Ht Hd. unfold with_meta. by rewrite !obj_get_set_ne.
Qed.

(** What mapping an overwrite of one key's generated columns does to a table. *)
Lemma overwrite_rows (k : option string) (t d : string) (rows : list Product) :
  let rows' :=
    (λ row, if decide (sku row = k) then with_meta t d row else row) <$> rows in
  length rows' = length rows
  ∧ (∀ i row, rows !! i = Some row → sku row ≠ k → rows' !! i = Some row)
  ∧ (∀ i row, rows !! i = Some row → sku row = k →
       ∃ row', rows' !! i = Some row'
         ∧ obj_get MetaTitle row' = Some t
         ∧ obj_get MetaDescription row' = Some d
         ∧ ∀ c, c ≠ MetaTitle → c ≠ MetaDescription → obj_get c row' = obj_get c row).
Proof.
  simpl. split; [by rewrite length_fmap|]. split.
  - intros i row Hrow Hne. rewrite list_lookup_fmap, Hrow. simpl.
    by rewrite decide_False.
  - intros i row Hrow Heq. rewrite list_lookup_fmap, Hrow. simpl.
    rewrite decide_True by done. eexists. split; [reflexivity|].
    split; [apply obj_get_with_meta_title|].
    split; [apply obj_get_with_meta_description|].
    intros c Ht Hd. by apply obj_get_with_meta_other.
Qed.



(** ** Chunks *)

Lemma BATCH_SIZE_pos : 0 < BATCH_SIZE.
Proof. unfold BATCH_SIZE. lia. Qed.

Section chunks.
Context {A : Type}.
Implicit Types (l : list A).
Local Opaque BATCH_SIZE.

Lemma slice_batch i l : slice i (i + BATCH_SIZE) l = take BATCH_SIZE (drop i l).
Proof. unfold slice. f_equal. lia. Qed.

(** The chunks number [k] and following, put end to end, are the input from
    position [i + 15 k] on. *)
Lemma chunks_from_lookup fuel i l k chunk :
  chunks_from fuel i l !! k = Some chunk →
  i + BATCH_SIZE * k < length l ∧ chunk = take BATCH_SIZE (drop (i + BATCH_SIZE * k) l).
Proof.
  revert i k. induction fuel as [|fuel IH]; intros i k; simpl; [done|].
  destruct (Nat.ltb_spec i (length l)) as [Hlt|Hge]; [|done].
  destruct k as [|k]; simpl.
  - intros [= <-]. rewrite Nat.mul_0_r, Nat.add_0_r. split; [done|]. apply slice_batch.
  - intros Hk. apply IH in Hk as [Hlt' ->].
    replace (i + BATCH_SIZE + BATCH_SIZE * k) with (i + BATCH_SIZE * S k) in * by lia.
    done.
Qed.

Lemma chunks_from_concat_take fuel i l k :
  length l ≤ i + fuel →
  concat (take k (chunks_from fuel i l)) = take (BATCH_SIZE * k) (drop i l).
Proof.
  revert i k. induction fuel as [|fuel IH]; intros i k Hfuel; simpl.
  - rewrite take_nil. simpl. rewrite drop_ge by lia. by rewrite take_nil.
  - destruct (Nat.ltb_spec i (length l)) as [Hlt|Hge].
    + destruct k as [|k]; simpl.
      * by rewrite Nat.mul_0_r.
      * rewrite IH by (pose proof BATCH_SIZE_pos; lia). rewrite slice_batch.
        replace (BATCH_SIZE * S k) with (BATCH_SIZE + BATCH_SIZE * k) by lia.
        rewrite <- drop_drop. apply take_take_drop.
    + rewrite take_nil. simpl. rewrite drop_ge by lia. by rewrite take_nil.
Qed.

Lemma chunks_from_nonempty fuel i l :
  Forall (λ chunk, chunk ≠ []) (chunks_from fuel i l).
Proof.
  revert i. induction fuel as [|fuel IH]; intros i; simpl; [constructor|].
  destruct (Nat.ltb_spec i (length l)) as [Hlt|Hge]; [|constructor].
  constructor; [|apply IH].
  rewrite slice_batch. intros Hnil.
  apply (f_equal length) in Hnil. rewrite length_take, length_drop in Hnil.
  simpl in Hnil. pose proof BATCH_SIZE_pos. lia.
Qed.

Lemma productChunks_lookup l k chunk :
  productChunks l !! k = Some chunk →
  BATCH_SIZE * k < length l ∧ chunk = take BATCH_SIZE (drop (BATCH_SIZE * k) l).
Proof. intros Hk. by apply chunks_from_lookup in Hk. Qed.

Lemma productChunks_concat_take l k :
  concat (take k (productChunks l)) = take (BATCH_SIZE * k) l.
Proof. unfold productChunks. by rewrite chunks_from_concat_take. Qed.

Lemma productChunks_concat l : concat (productChunks l) = l.
Proof.
  pose proof (productChunks_concat_take l (length (productChunks l))) as Hall.
  rewrite take_ge in Hall by done. rewrite Hall. apply take_ge.
  clear Hall. unfold productChunks.
  assert (∀ fuel i, length l ≤ i + fuel →
            length l ≤ i + BATCH_SIZE * length (chunks_from fuel i l)) as Hcover.
  { clear. induction fuel as [|fuel IH]; intros i Hfuel; simpl; [lia|].
    destruct (Nat.ltb_spec i (length l)) as [Hlt|Hge]; simpl; [|lia].
    specialize (IH (i + BATCH_SIZE)). pose proof BATCH_SIZE_pos. lia. }
  specialize (Hcover (length l) 0). lia.
Qed.

Lemma productChunks_nonempty l : Forall (λ chunk, chunk ≠ []) (productChunks l).
Proof. apply chunks_from_nonempty. Qed.
End chunks.

(** ** The run: its steps *)

Section run_steps.
Context (r : State) (env : Env).

Ltac received_cases :=
  unfold received, in_flight, dispatch, handleStop;
  destruct (stopDuring env _); simpl; autorewrite with commit_fields; reflexivity.

Lemma originalData_received i chunk shown s :
  originalData (received r env i chunk shown s) = originalData s.
Proof. received_cases. Qed.
Lemma processedData_received i chunk shown s :
  processedData (received r env i chunk shown s) = processedData s.
Proof. received_cases. Qed.
Lemma processedRef_received i chunk shown s :
  processedRef (received r env i chunk shown s) = processedRef s.
Proof. received_cases. Qed.
Lemma file_received i chunk shown s : file (received r env i chunk shown s) = file s.
Proof. received_cases. Qed.
Lemma error_received i chunk shown s : error (received r env i chunk shown s) = error s.
Proof. received_cases. Qed.
Lemma isResumable_received i chunk shown s :
  isResumable (received r env i chunk shown s) = isResumable s.
Proof. received_cases. Qed.
Lemma calls_received i chunk shown s :
  calls (received r env i chunk shown s)
  = calls s ++ [batch_request chunk (customInstructions r)].
Proof. received_cases. Qed.
Lemma isCancelledRef_received i chunk shown s :
  isCancelledRef (received r env i chunk shown s) = stopDuring env i || isCancelledRef s.
Proof. received_cases. Qed.
Lemma localStorage_received i chunk shown s :
  localStorage (received r env i chunk shown s) = localStorage (dispatch r chunk shown s).
Proof. unfold received, in_flight. by destruct (stopDuring env i). Qed.

(** One round of the loop whose call succeeds. *)
Lemma process_chunks_step ipc i chunk rest acc tok shown s metas tokens :
  isCancelledRef s = false →
  chunk ≠ [] →
  generateMetaContentForBatch chunk (customInstructions r) (reply env i)
    = Fulfilled (metas, tokens) →
  process_chunks r env ipc i (chunk :: rest) acc tok shown s
  = process_chunks r env ipc (S i) rest (acc ++ processedChunk chunk metas) (tok + tokens)
      (dispatch r chunk shown s)
      (merged r ipc (acc ++ processedChunk chunk metas) (received r env i chunk shown s)).
Proof.
  intros Hgo Hchunk Hok. simpl. rewrite Hgo, Hok.
  destruct chunk; [done|]. reflexivity.
Qed.

(** One round of the loop whose call fails. *)
Lemma process_chunks_threw ipc i chunk rest acc tok shown s message :
  isCancelledRef s = false →
  chunk ≠ [] →
  generateMetaContentForBatch chunk (customInstructions r) (reply env i) = Threw message →
  process_chunks r env ipc i (chunk :: rest) acc tok shown s
  = commit (dispatch r chunk shown s)
      (run_catch r ipc acc message (received r env i chunk shown s)).
Proof.
  intros Hgo Hchunk Hthrew. simpl. rewrite Hgo, Hthrew.
  destruct chunk; [done|]. reflexivity.
Qed.

(** The flag is read before anything is sent. *)
Lemma process_chunks_cancelled ipc i chunk rest acc tok shown s :
  isCancelledRef s = true →
  process_chunks r env ipc i (chunk :: rest) acc tok shown s
  = commit shown (run_end r true tok s).
Proof. intros Hstop. simpl. by rewrite Hstop. Qed.

Lemma run_end_fields wasCancelled tok s :
  processedData (run_end r wasCancelled tok s) = processedData s
  ∧ processedRef (run_end r wasCancelled tok s) = processedRef s
  ∧ calls (run_end r wasCancelled tok s) = calls s
  ∧ originalData (run_end r wasCancelled tok s) = originalData s
  ∧ file (run_end r wasCancelled tok s) = file s
  ∧ isResumable (run_end r wasCancelled tok s)
      = (if wasCancelled then true else isResumable s)
  ∧ outcome (run_end r wasCancelled tok s)
      = Some (if wasCancelled then Stopped else Completed)
  ∧ progressMessage (run_end r wasCancelled tok s)
      = Some (if wasCancelled then GenerationStopped
              else GenerationComplete (length (originalData r)) tok)
  ∧ isLoading (run_end r wasCancelled tok s) = false.
Proof.
  unfold run_end, saveCurrentStateToSession.
  destruct wasCancelled; repeat case_match; done.
Qed.

Lemma error_run_end wasCancelled tok s : error (run_end r wasCancelled tok s) = error s.
Proof.
  unfold run_end, saveCurrentStateToSession.
  destruct wasCancelled; repeat case_match; done.
Qed.

Lemma run_catch_fields ipc acc message s :
  processedData (run_catch r ipc acc message s) = processedData s
  ∧ processedRef (run_catch r ipc acc message s) = processedRef s
  ∧ calls (run_catch r ipc acc message s) = calls s
  ∧ originalData (run_catch r ipc acc message s) = originalData s
  ∧ file (run_catch r ipc acc message s) = file s
  ∧ isResumable (run_catch r ipc acc message s)
      = (if includes QUOTA_TAG message then true else isResumable s)
  ∧ outcome (run_catch r ipc acc message s)
      = Some (if includes QUOTA_TAG message then QuotaExceeded else Failed)
  ∧ error (run_catch r ipc acc message s)
      = Some (if includes QUOTA_TAG message
              then quota_message (ipc + length acc) (length (originalData r))
              else message)
  ∧ progressMessage (run_catch r ipc acc message s) = None
  ∧ isLoading (run_catch r ipc acc message s) = false.
Proof.
  unfold run_catch, saveCurrentStateToSession.
  destruct (includes QUOTA_TAG message); repeat case_match; done.
Qed.
End run_steps.

Lemma originalData_merged r ipc acc s : originalData (merged r ipc acc s) = originalData s.
Proof. reflexivity. Qed.
Lemma processedData_merged r ipc acc s :
  processedData (merged r ipc acc s) = merge r acc (processedData s).
Proof. reflexivity. Qed.
Lemma processedRef_merged r ipc acc s :
  processedRef (merged r ipc acc s) = S (processedRef s).
Proof. reflexivity. Qed.
Lemma file_merged r ipc acc s : file (merged r ipc acc s) = file s.
Proof. reflexivity. Qed.
Lemma error_merged r ipc acc s : error (merged r ipc acc s) = error s.
Proof. reflexivity. Qed.
Lemma isResumable_merged r ipc acc s : isResumable (merged r ipc acc s) = isResumable s.
Proof. reflexivity. Qed.
Lemma calls_merged r ipc acc s : calls (merged r ipc acc s) = calls s.
Proof. reflexivity. Qed.
Lemma isCancelledRef_merged r ipc acc s :
  isCancelledRef (merged r ipc acc s) = isCancelledRef s.
Proof. reflexivity. Qed.
Lemma localStorage_merged r ipc acc s :
  localStorage (merged r ipc acc s) = localStorage s.
Proof. reflexivity. Qed.

Create Rewrite HintDb run_fields.
#[global] Hint Rewrite originalData_merged processedData_merged processedRef_merged
  file_merged error_merged isResumable_merged calls_merged isCancelledRef_merged
  localStorage_merged
  originalData_received processedData_received processedRef_received file_received
  error_received isResumable_received calls_received isCancelledRef_received
  localStorage_received
  originalData_commit processedData_commit processedRef_commit
  isLoading_commit error_commit file_commit progressMessage_commit
  regeneratingSkus_commit isResumable_commit isCancelledRef_commit calls_commit
  outcome_commit : run_fields.

(** ** An empty job *)

Lemma filter_nil_Forall {A : Type} (P : A → Prop) `{∀ x, Decision (P x)} (l : list A) :
  Forall (λ x, ¬ P x) l → filter P l = [].
Proof.
  induction 1 as [|x l Hx _ IH]; [done|]. by rewrite filter_cons_False.
Qed.

(** C10: when there is nothing to process the run settles at once: it shows
    the all-processed message, sends no request, leaves processedData as it
    is and leaves isResumable false.  This is what resume does when every key
    of originalData is already among the processed rows. *)
Theorem empty_job_settles_at_once :
  (∀ (r : State) (env : Env) (shown s : State),
     let s' := runGenerationProcess r env [] shown s in
     progressMessage s' = Some AllProcessed
     ∧ outcome s' = Some Completed
     ∧ isLoading s' = false
     ∧ calls s' = calls s
     ∧ processedData s' = processedData s
     ∧ isResumable s' = false)
  ∧ (∀ (env : Env) (s : State),
       (∀ p, p ∈ originalData s → sku p ∈ sku <$> processedData s) →
       let s' := handleResume s env s in
       progressMessage s' = Some AllProcessed
       ∧ outcome s' = Some Completed
       ∧ isLoading s' = false
       ∧ calls s' = calls s
       ∧ processedData s' = processedData s
       ∧ isResumable s' = false).
Proof.
  assert (∀ (r : State) (env : Env) (shown s : State),
            let s' := runGenerationProcess r env [] shown s in
            progressMessage s' = Some AllProcessed
            ∧ outcome s' = Some Completed
            ∧ isLoading s' = false
            ∧ calls s' = calls s
            ∧ processedData s' = processedData s
            ∧ isResumable s' = false) as Hempty.
  { intros r env shown s. unfold runGenerationProcess. simpl.
    by autorewrite with commit_fields. }
  split; [exact Hempty|].
  intros env s Hall. unfold handleResume.
  rewrite filter_nil_Forall.
  - apply (Hempty s env s (setIsCancelled false s)).
  - apply Forall_forall. intros p Hp Hnot. apply Hnot.
    apply elem_of_list_to_set. by apply Hall.
Qed.

Lemma empty_job_settles_at_once_witness :
  let s' := handleResume two_rows_done (mkEnv (λ _ _, Rejected (mkThrown "" NotJson)) (λ _, false))
              two_rows_done in
  progressMessage s' = Some AllProcessed ∧ calls s' = []
  ∧ processedData s' = processedData two_rows_done.
Proof.
  destruct empty_job_settles_at_once as [_ Hresume].
  destruct (Hresume (mkEnv (λ _ _, Rejected (mkThrown "" NotJson)) (λ _, false))
              two_rows_done) as (Hmsg & _ & _ & Hcalls & Hdata & _).
  - intros p Hp. vm_compute in Hp.
    apply elem_of_cons in Hp as [->|Hp]; [vm_compute; apply elem_of_cons; by left|].
    apply elem_of_cons in Hp as [->|Hp];
      [vm_compute; apply elem_of_cons; right; apply elem_of_cons; by left|].
    by apply elem_of_nil in Hp.
  - split; [exact Hmsg|]. split; [exact Hcalls | exact Hdata].
Defined.

(** ** Merging results into the table *)

Lemma keyed_keys (ps : list Product) : (keyed ps).*1 = sku <$> ps.
Proof. unfold keyed. by rewrite <- list_fmap_compose. Qed.

Lemma elem_of_keyed (k : option string) (v : Product) (ps : list Product) :
  (k, v) ∈ keyed ps ↔ v ∈ ps ∧ k = sku v.
Proof.
  unfold keyed. rewrite list_elem_of_fmap. split.
  - intros (p & Heq & Hp). inversion Heq; subst. done.
  - intros [Hv ->]. by exists v.
Qed.

(** Every row of the map sits under its own key and comes from one of the
    two lists. *)
Lemma newDataMap_Some (acc prev : list Product) (k : option string) (v : Product) :
  newDataMap acc prev !! k = Some v → k = sku v ∧ (v ∈ acc ∨ v ∈ prev).
Proof.
  unfold newDataMap, new_Map. intros Hv.
  apply lookup_map_set_all_Some in Hv as [Hin|Hv].
  - apply elem_of_keyed in Hin as [Hin ->]. auto.
  - apply lookup_map_set_all_Some in Hv as [Hin|Hv]; [|by rewrite lookup_empty in Hv].
    apply elem_of_keyed in Hin as [Hin ->]. auto.
Qed.

Lemma newDataMap_in (acc prev : list Product) (k : option string) :
  k ∈ sku <$> acc → ∃ v, newDataMap acc prev !! k = Some v ∧ v ∈ acc ∧ sku v = k.
Proof.
  intros Hk. rewrite <- keyed_keys in Hk. unfold newDataMap.
  destruct (lookup_map_set_all_in _ (new_Map (keyed prev)) _ Hk) as (v & Hv & Hin).
  apply elem_of_keyed in Hin as [Hin ->]. by exists v.
Qed.

Lemma newDataMap_notin (acc prev : list Product) (k : option string) :
  k ∉ sku <$> acc → newDataMap acc prev !! k = new_Map (keyed prev) !! k.
Proof.
  intros Hk. unfold newDataMap. apply lookup_map_set_all_notin. by rewrite keyed_keys.
Qed.

Lemma newDataMap_NoDup (acc prev : list Product) (v : Product) :
  NoDup (sku <$> acc) → v ∈ acc → newDataMap acc prev !! sku v = Some v.
Proof.
  intros Hnd Hv. unfold newDataMap. apply lookup_map_set_all_NoDup.
  - by rewrite keyed_keys.
  - by apply elem_of_keyed.
Qed.

Lemma new_Map_keyed_NoDup (prev : list Product) (v : Product) :
  NoDup (sku <$> prev) → v ∈ prev → new_Map (keyed prev) !! sku v = Some v.
Proof.
  intros Hnd Hv. unfold new_Map. apply lookup_map_set_all_NoDup.
  - by rewrite keyed_keys.
  - by apply elem_of_keyed.
Qed.

Lemma elem_of_merge (r : State) (acc prev : list Product) (v : Product) :
  v ∈ merge r acc prev ↔ ∃ og, og ∈ originalData r ∧ newDataMap acc prev !! sku og = Some v.
Proof. unfold merge. apply list_elem_of_omap. Qed.

(** When this run's results cover every key of originalData, the merged table
    has the keys of originalData, in order. *)
Lemma merge_keys_full (r : State) (acc prev : list Product) :
  (∀ og, og ∈ originalData r → sku og ∈ sku <$> acc) →
  sku <$> merge r acc prev = sku <$> originalData r.
Proof.
  unfold merge. induction (originalData r) as [|og rest IH]; intros Hcover; [done|].
  simpl. destruct (newDataMap_in acc prev (sku og)) as (v & -> & _ & Hkey).
  { apply Hcover. by left. }
  rewrite fmap_cons, Hkey. f_equal. apply IH. intros og' Hog'. apply Hcover. by right.
Qed.

Lemma omap_all_None {A B : Type} (f : A → option B) (l : list A) :
  (∀ x, x ∈ l → f x = None) → omap f l = [].
Proof.
  induction l as [|x l IH]; intros Hnone; [done|].
  simpl. rewrite Hnone by by left. apply IH. intros y Hy. apply Hnone. by right.
Qed.

Lemma omap_prefix (f : option string → option Product) (orig acc : list Product) :
  sku <$> acc = take (length acc) (sku <$> orig) →
  NoDup (sku <$> orig) →
  (∀ a, a ∈ acc → f (sku a) = Some a) →
  (∀ og, og ∈ orig → sku og ∉ sku <$> acc → f (sku og) = None) →
  omap (λ og, f (sku og)) orig = acc.
Proof.
  revert orig. induction acc as [|a acc IH]; intros orig Hkeys Hnd Hin Hout.
  - apply omap_all_None. intros og Hog. apply Hout; [done|]. apply not_elem_of_nil.
  - destruct orig as [|o orig]; [done|].
    simpl in Hkeys. inversion Hkeys as [[Hhead Htail]].
    rewrite fmap_cons in Hnd. apply NoDup_cons in Hnd as [Hfresh Hnd].
    simpl. rewrite <- Hhead, Hin by by left. f_equal.
    apply IH; [done|done| |].
    + intros a' Ha'. apply Hin. by right.
    + intros og Hog Hnot. apply Hout; [by right|].
      rewrite fmap_cons. apply not_elem_of_cons. split; [|done].
      intros Heq. apply Hfresh. rewrite <- Hhead, <- Heq.
      apply list_elem_of_fmap. by exists og.
Qed.

(** With pairwise distinct keys, when this run's results are the first rows
    of originalData and the previous table holds no other key, the merged
    table is exactly this run's results. *)
Lemma merge_exact (r : State) (acc prev : list Product) :
  NoDup (sku <$> originalData r) →
  sku <$> acc = take (length acc) (sku <$> originalData r) →
  (∀ p, p ∈ prev → sku p ∈ sku <$> acc) →
  merge r acc prev = acc.
Proof.
  intros Hnd Hkeys Hprev. unfold merge.
  apply (omap_prefix (λ k, newDataMap acc prev !! k)); [done|done| |].
  - intros a Ha. apply newDataMap_NoDup; [|done].
    rewrite Hkeys. exact (sublist_NoDup _ _ Hnd (sublist_take _ _)).
  - intros og _ Hnot. rewrite newDataMap_notin by done.
    apply lookup_new_Map_None. rewrite keyed_keys.
    intros Hin. apply list_elem_of_fmap in Hin as (p & Heq & Hp).
    apply Hnot. rewrite Heq. by apply Hprev.
Qed.

(** A previous row that is found under its key, whose key is in originalData
    and is not among this run's results, is still found under its key after
    the merge. *)
Lemma merge_keeps (r : State) (acc prev : list Product) (p : Product) :
  new_Map (keyed prev) !! sku p = Some p →
  sku p ∈ sku <$> originalData r →
  sku p ∉ sku <$> acc →
  new_Map (keyed (merge r acc prev)) !! sku p = Some p.
Proof.
  intros Hp Horig Hnew.
  assert (newDataMap acc prev !! sku p = Some p) as Hmap
    by by rewrite newDataMap_notin.
  assert (sku p ∈ (keyed (merge r acc prev)).*1) as Hk.
  { rewrite keyed_keys. apply list_elem_of_fmap. exists p. split; [done|].
    apply list_elem_of_fmap in Horig as (og & Hkey & Hog).
    apply elem_of_merge. exists og. split; [done|]. by rewrite <- Hkey. }
  unfold new_Map.
  destruct (lookup_map_set_all_in _ ∅ _ Hk) as (v & -> & Hin).
  apply elem_of_keyed in Hin as [Hin Hkey].
  apply elem_of_merge in Hin as (og & _ & Hv).
  pose proof (newDataMap_Some _ _ _ _ Hv) as [Hog _].
  rewrite Hog, <- Hkey, Hmap in Hv. by inversion Hv.
Qed.

Lemma new_Map_keyed_elem (prev : list Product) (p : Product) :
  new_Map (keyed prev) !! sku p = Some p → p ∈ prev.
Proof.
  unfold new_Map. intros Hp.
  apply lookup_map_set_all_Some in Hp as [Hin|Hp]; [|by rewrite lookup_empty in Hp].
  by apply elem_of_keyed in Hin as [Hin _].
Qed.

Lemma processedChunk_keys (chunk : list Product) (metas : list Meta) :
  sku <$> processedChunk chunk metas = sku <$> chunk.
Proof.
  unfold processedChunk. rewrite <- list_fmap_compose. apply list_fmap_ext.
  intros i p _. simpl. apply sku_with_meta.
Qed.

Lemma processedChunk_length (chunk : list Product) (metas : list Meta) :
  length (processedChunk chunk metas) = length chunk.
Proof. unfold processedChunk. by rewrite length_fmap. Qed.

Lemma processedChunk_rows (chunk : list Product) (metas : list Meta) :
  Forall2 (λ row og, ∃ t d, row = with_meta t d og) (processedChunk chunk metas) chunk.
Proof.
  unfold processedChunk. induction chunk as [|p chunk IH]; [constructor|].
  rewrite fmap_cons. constructor; [|exact IH]. by eexists _, _.
Qed.

(** ** The run: case analysis along the loop *)

Section run_rule.
Context (r : State) (env : Env) (ipc : nat).

Lemma process_chunks_skip i rest acc tok shown s :
  isCancelledRef s = false →
  process_chunks r env ipc i ([] :: rest) acc tok shown s
  = process_chunks r env ipc (S i) rest acc tok shown s.
Proof. intros Hgo. simpl. by rewrite Hgo. Qed.

(** To prove a property [Φ] of the state in which the loop ends, follow the
    loop: it ends after the last chunk, or at a chunk it finds the flag set,
    or at a chunk whose call fails; otherwise it goes on to the next chunk
    with the results merged. *)
Lemma process_chunks_rule
    (Φ : nat → list (list Product) → list Product → nat → State → State → State → Prop) :
  (∀ i acc tok shown s,
     Φ i [] acc tok shown s (commit shown (run_end r false tok s))) →
  (∀ i chunk rest acc tok shown s,
     isCancelledRef s = true →
     Φ i (chunk :: rest) acc tok shown s (commit shown (run_end r true tok s))) →
  (∀ i rest acc tok shown s final,
     isCancelledRef s = false →
     Φ (S i) rest acc tok shown s final →
     Φ i ([] :: rest) acc tok shown s final) →
  (∀ i chunk rest acc tok shown s metas tokens final,
     isCancelledRef s = false →
     chunk ≠ [] →
     generateMetaContentForBatch chunk (customInstructions r) (reply env i)
       = Fulfilled (metas, tokens) →
     Φ (S i) rest (acc ++ processedChunk chunk metas) (tok + tokens)
       (dispatch r chunk shown s)
       (merged r ipc (acc ++ processedChunk chunk metas) (received r env i chunk shown s))
       final →
     Φ i (chunk :: rest) acc tok shown s final) →
  (∀ i chunk rest acc tok shown s message,
     isCancelledRef s = false →
     chunk ≠ [] →
     generateMetaContentForBatch chunk (customInstructions r) (reply env i)
       = Threw message →
     Φ i (chunk :: rest) acc tok shown s
       (commit (dispatch r chunk shown s)
          (run_catch r ipc acc message (received r env i chunk shown s)))) →
  ∀ chunks i acc tok shown s,
    Φ i chunks acc tok shown s (process_chunks r env ipc i chunks acc tok shown s).
Proof.
  intros Hdone Hstop Hskip Hok Hthrew.
  induction chunks as [|chunk rest IH]; intros i acc tok shown s.
  - apply Hdone.
  - destruct (isCancelledRef s) eqn:Hflag.
    + rewrite process_chunks_cancelled by done. by apply Hstop.
    + destruct (decide (chunk = [])) as [->|Hne].
      * rewrite process_chunks_skip by done. apply Hskip; [done|]. apply IH.
      * destruct (generateMetaContentForBatch chunk (customInstructions r) (reply env i))
          as [[metas tokens]|message] eqn:Hcall.
        -- rewrite (process_chunks_step r env ipc i chunk rest acc tok shown s metas tokens)
             by done.
           apply (Hok i chunk rest acc tok shown s metas tokens); [done..|]. apply IH.
        -- rewrite (process_chunks_threw r env ipc i chunk rest acc tok shown s message)
             by done.
           by apply Hthrew.
Qed.

(** *** What is sent *)

(** Whatever the service and the user do, the requests of a run are those of
    the first chunks, in order, one request per chunk. *)
Lemma process_chunks_calls chunks i acc tok shown s :
  Forall (λ chunk, chunk ≠ []) chunks →
  ∃ n, calls (process_chunks r env ipc i chunks acc tok shown s)
       = calls s ++ ((λ chunk, batch_request chunk (customInstructions r)) <$> take n chunks).
Proof.
  revert chunks i acc tok shown s.
  apply (process_chunks_rule
           (λ i chunks acc tok shown s final,
              Forall (λ chunk, chunk ≠ []) chunks →
              ∃ n, calls final
                   = calls s
                     ++ ((λ chunk, batch_request chunk (customInstructions r))
                           <$> take n chunks))).
  - intros i acc tok shown s _. exists 0. rewrite calls_commit.
    destruct (run_end_fields r false tok s) as (_ & _ & -> & _). by rewrite app_nil_r.
  - intros i chunk rest acc tok shown s _ _. exists 0. rewrite calls_commit.
    destruct (run_end_fields r true tok s) as (_ & _ & -> & _). by rewrite app_nil_r.
  - intros i rest acc tok shown s final _ _ Hne. by apply Forall_cons in Hne as [? _].
  - intros i chunk rest acc tok shown s metas tokens final _ _ _ IH Hne.
    apply Forall_cons in Hne as [_ Hne]. destruct (IH Hne) as [n ->].
    autorewrite with run_fields. exists (S n). by rewrite <- app_assoc.
  - intros i chunk rest acc tok shown s message _ _ _ _. exists 1.
    rewrite calls_commit.
    destruct (run_catch_fields r ipc acc message (received r env i chunk shown s))
      as (_ & _ & -> & _).
    by autorewrite with run_fields.
Qed.
End run_rule.

(** ** The run: how it unfolds *)

Section run_scripts.
Context (r : State) (env : Env) (ipc : nat).

Lemma chunk_results_ok i chunk metas tokens :
  generateMetaContentForBatch chunk (customInstructions r) (reply env i)
    = Fulfilled (metas, tokens) →
  chunk_results r env i chunk = processedChunk chunk metas.
Proof. intros Hok. unfold chunk_results. by rewrite Hok. Qed.

Lemma chunk_results_rows i chunk :
  chunk_ok r env i chunk →
  Forall2 (λ row og, ∃ t d, row = with_meta t d og) (chunk_results r env i chunk) chunk.
Proof.
  intros (metas & tokens & Hok). rewrite (chunk_results_ok _ _ _ _ Hok).
  apply processedChunk_rows.
Qed.

(** The rows of [k] successful rounds are the records of the first [k]
    chunks with the generated columns written. *)
Lemma run_results_rows i k e chunks flag :
  follows r env i k e chunks flag →
  Forall2 (λ row og, ∃ t d, row = with_meta t d og)
    (run_results r env i (take k chunks)) (concat (take k chunks)).
Proof.
  revert i chunks flag. induction k as [|k IH]; intros i chunks flag Hrun.
  - rewrite take_0. constructor.
  - destruct chunks as [|chunk rest]; [done|]. destruct Hrun as (_ & Hok & Hrun).
    simpl. apply Forall2_app; [by apply chunk_results_rows | by eapply IH].
Qed.

(** A list that begins a beginning of [l] is a beginning of [l]. *)
Lemma take_prefix {A : Type} (l a b : list A) :
  a ++ b = take (length (a ++ b)) l → a = take (length a) l.
Proof.
  intros Hab. apply (f_equal (take (length a))) in Hab.
  rewrite take_app_length, take_take, length_app in Hab.
  by rewrite Nat.min_l in Hab by lia.
Qed.

Lemma process_chunks_follows chunks i acc tok shown s k e :
  Forall (λ chunk, chunk ≠ []) chunks →
  follows r env i k e chunks (isCancelledRef s) →
  ends_as r env ipc i k e chunks acc s (process_chunks r env ipc i chunks acc tok shown s).
Proof.
  revert chunks i acc tok shown s k e.
  apply (process_chunks_rule r env ipc
           (λ i chunks acc tok shown s final,
              ∀ k e,
                Forall (λ chunk, chunk ≠ []) chunks →
                follows r env i k e chunks (isCancelledRef s) →
                ends_as r env ipc i k e chunks acc s final)).
  - (* past the last chunk *)
    intros i acc tok shown s k e _ Hrun. destruct k; [|done]. simpl in Hrun. subst e.
    unfold ends_as. autorewrite with run_fields. rewrite error_run_end.
    destruct (run_end_fields r false tok s) as (-> & _ & -> & _ & _ & -> & -> & _ & ->).
    simpl. rewrite !app_nil_r.
    repeat split; first [done | lia | congruence | auto].
  - (* the flag is set *)
    intros i chunk rest acc tok shown s Hflag k e _ Hrun.
    destruct k; [|destruct Hrun as [? _]; congruence].
    destruct Hrun as [[-> _]|(message & _ & Hgo & _)]; [|congruence].
    unfold ends_as. autorewrite with run_fields. rewrite error_run_end.
    destruct (run_end_fields r true tok s) as (-> & _ & -> & _ & _ & -> & -> & -> & ->).
    simpl. rewrite !app_nil_r.
    repeat split; first [done | lia | congruence | auto].
  - (* an empty chunk *)
    intros i rest acc tok shown s final _ _ k e Hne. by apply Forall_cons in Hne as [? _].
  - (* a successful round *)
    intros i chunk rest acc tok shown s metas tokens final Hflag Hchunk Hcall IH k e Hne Hrun.
    apply Forall_cons in Hne as [_ Hne].
    destruct k as [|k].
    { destruct Hrun as [[_ Hstop]|(message & _ & _ & Hthrew)]; congruence. }
    destruct Hrun as (_ & _ & Hrun).
    assert (isCancelledRef
              (merged r ipc (acc ++ processedChunk chunk metas)
                 (received r env i chunk shown s)) = stopDuring env i) as Hnext.
    { autorewrite with run_fields. by rewrite Hflag, orb_false_r. }
    rewrite <- Hnext in Hrun. specialize (IH k e Hne Hrun).
    unfold ends_as in *. autorewrite with run_fields in IH.
    destruct IH
      as (IHcalls & IHout & IHload & IHres & IHerr & IHmsg & IHzero & IHpos & IHfrom & IHexact).
    simpl. rewrite (chunk_results_ok _ _ _ _ Hcall).
    rewrite <- !app_assoc in IHcalls. rewrite <- !app_assoc in IHerr.
    split; [exact IHcalls|]. split; [done|]. split; [done|]. split; [done|].
    split; [exact IHerr|]. split; [done|]. split; [lia|]. split.
    + intros _. destruct k as [|k].
      * eexists. rewrite IHzero by done. rewrite take_0. simpl. by rewrite app_nil_r.
      * destruct IHpos as [prev Hprev]; [lia|]. exists prev. by rewrite <- app_assoc in Hprev.
    + split.
      { intros row Hrow. destruct (IHfrom row Hrow) as [Hmerged|Hnew].
        - apply elem_of_merge in Hmerged as (og & _ & Hfound).
          apply newDataMap_Some in Hfound as [_ [Hin|Hin]]; [|by left].
          right. rewrite app_assoc. apply elem_of_app. by left.
        - right. by rewrite app_assoc. }
      intros Hdata Hnd Hkeys. rewrite app_assoc. rewrite app_assoc in Hkeys.
      apply IHexact; [|done|done].
      rewrite Hdata. apply merge_exact; [done| |].
      * rewrite <- (length_fmap sku), fmap_app in Hkeys. apply take_prefix in Hkeys.
        by rewrite length_fmap in Hkeys.
      * intros p Hp. rewrite fmap_app. apply elem_of_app. left.
        apply list_elem_of_fmap. by exists p.
  - (* a failed call *)
    intros i chunk rest acc tok shown s message Hflag Hchunk Hcall k e _ Hrun.
    destruct k as [|k]; [|destruct Hrun as (_ & (metas & tokens & Hok) & _); congruence].
    destruct Hrun as [[_ Hstop]|(message' & -> & _ & Hthrew)]; [congruence|].
    assert (message' = message) as -> by congruence.
    unfold ends_as. autorewrite with run_fields.
    destruct (run_catch_fields r ipc acc message (received r env i chunk shown s))
      as (-> & _ & -> & _ & _ & -> & -> & -> & _ & ->).
    autorewrite with run_fields. simpl. rewrite !app_nil_r.
    destruct (includes QUOTA_TAG message);
      repeat split; first [done | lia | congruence | auto].
Qed.
End run_scripts.

(** ** The run: from what happens to how it unfolds *)

Section run_cases.
Context (r : State) (env : Env).

(** Every call succeeds and the stop button is left alone. *)
Lemma follows_complete chunks i flag :
  (chunks ≠ [] → flag = false) →
  (∀ j c, chunks !! j = Some c → chunk_ok r env (i + j) c) →
  (∀ j, S j < length chunks → stopDuring env (i + j) = false) →
  follows r env i (length chunks) EndsComplete chunks flag.
Proof.
  revert i flag. induction chunks as [|chunk rest IH]; intros i flag Hflag Hok Hquiet.
  - reflexivity.
  - simpl. split; [by apply Hflag|]. split.
    + specialize (Hok 0 chunk eq_refl). by rewrite Nat.add_0_r in Hok.
    + apply IH.
      * intros Hrest. specialize (Hquiet 0). rewrite Nat.add_0_r in Hquiet.
        apply Hquiet. destruct rest; [done|]. simpl. lia.
      * intros j c Hj. specialize (Hok (S j) c Hj).
        by replace (i + S j) with (S i + j) in Hok by lia.
      * intros j Hj. specialize (Hquiet (S j)).
        replace (i + S j) with (S i + j) in Hquiet by lia.
        apply Hquiet. simpl. lia.
Qed.

(** The first [k] calls succeed with the stop button left alone, and the
    call for chunk [k] throws. *)
Lemma follows_threw chunks i k flag chunk message :
  flag = false →
  (∀ j c, j < k → chunks !! j = Some c →
     chunk_ok r env (i + j) c ∧ stopDuring env (i + j) = false) →
  chunks !! k = Some chunk →
  generateMetaContentForBatch chunk (customInstructions r) (reply env (i + k))
    = Threw message →
  follows r env i k (EndsThrew message) chunks flag.
Proof.
  revert i chunks flag. induction k as [|k IH]; intros i chunks flag Hflag Hok Hk Hthrew.
  - destruct chunks as [|c rest]; [done|]. simpl in Hk. inversion Hk; subst c.
    rewrite Nat.add_0_r in Hthrew. simpl. right. by exists message.
  - destruct chunks as [|c rest]; [done|]. simpl in Hk.
    destruct (Hok 0 c) as [Hc Hquiet]; [lia|done|].
    rewrite Nat.add_0_r in Hc, Hquiet.
    simpl. split; [done|]. split; [done|].
    apply IH; [done | | done |].
    + intros j c' Hj Hc'. destruct (Hok (S j) c') as [? ?]; [lia|done|].
      by replace (i + S j) with (S i + j) in * by lia.
    + by replace (S i + k) with (i + S k) by lia.
Qed.

(** The first [N] calls succeed, the stop button is pressed while the last
    of them is in flight and not before, and there is a chunk [N]. *)
Lemma follows_stopped chunks i N flag chunkN :
  (N = 0 → flag = true) →
  (0 < N → flag = false ∧ stopDuring env (i + N - 1) = true) →
  (∀ j c, j < N → chunks !! j = Some c → chunk_ok r env (i + j) c) →
  (∀ j, S j < N → stopDuring env (i + j) = false) →
  chunks !! N = Some chunkN →
  follows r env i N EndsStopped chunks flag.
Proof.
  revert i chunks flag.
  induction N as [|N IH]; intros i chunks flag Hzero Hpos Hok Hquiet HN.
  - destruct chunks as [|c rest]; [done|]. simpl. left. split; [done|]. by apply Hzero.
  - destruct chunks as [|c rest]; [done|]. simpl in HN.
    destruct Hpos as [Hflag Hpressed]; [lia|].
    simpl. split; [done|]. split.
    + specialize (Hok 0 c). rewrite Nat.add_0_r in Hok. apply Hok; [lia|done].
    + apply IH; [ | | | |done].
      * intros ->. by replace (i + 1 - 1) with i in Hpressed by lia.
      * intros HposN. split.
        -- specialize (Hquiet 0). rewrite Nat.add_0_r in Hquiet. apply Hquiet. lia.
        -- by replace (S i + N - 1) with (i + S N - 1) by lia.
      * intros j c' Hj Hc'. specialize (Hok (S j) c').
        replace (i + S j) with (S i + j) in Hok by lia. apply Hok; [lia|done].
      * intros j Hj. specialize (Hquiet (S j)).
        replace (i + S j) with (S i + j) in Hquiet by lia. apply Hquiet. lia.
Qed.

(** A quota error of the batch call reaches the run tagged. *)
Lemma batch_quota_error_is_tagged chunk i t :
  reply env i (batch_request chunk (customInstructions r)) = Rejected t →
  isQuotaError t = true →
  ∃ message,
    generateMetaContentForBatch chunk (customInstructions r) (reply env i) = Threw message
    ∧ includes QUOTA_TAG message = true.
Proof.
  intros Hreply Hquota. unfold generateMetaContentForBatch. rewrite Hreply.
  eexists. split; [reflexivity|]. by apply rethrow_quota.
Qed.

Lemma runGenerationProcess_loop products shown s :
  products ≠ [] →
  runGenerationProcess r env products shown s
  = process_chunks r env (length (processedData r)) 0 (productChunks products) [] 0
      shown (run_begin r s).
Proof. intros Hne. unfold runGenerationProcess. by destruct products. Qed.

Lemma handleGenerate_loop s :
  originalData r ≠ [] →
  handleGenerate r env s
  = process_chunks r env (length (processedData r)) 0 (productChunks (originalData r))
      [] 0 s (run_begin r (setProcessedData [] (setIsCancelled false s))).
Proof.
  intros Hne. unfold handleGenerate.
  destruct (originalData r) eqn:Horig; [done|]. simpl (length _ =? 0).
  cbv iota. by apply runGenerationProcess_loop.
Qed.

End run_cases.

Lemma handleResume_loop (env : Env) (s : State) :
  let remaining := filter (λ p, sku p ∉ sku <$> processedData s) (originalData s) in
  remaining ≠ [] →
  handleResume s env s
  = process_chunks s env (length (processedData s)) 0 (productChunks remaining) [] 0 s
      (run_begin s (setIsCancelled false s)).
Proof.
  intros remaining Hne. rewrite <- runGenerationProcess_loop by done.
  unfold handleResume. f_equal. apply list_filter_iff. intros p.
  by rewrite elem_of_list_to_set.
Qed.

Lemma handleResume_empty_job (env : Env) (s : State) :
  filter (λ p, sku p ∉ sku <$> processedData s) (originalData s) = [] →
  handleResume s env s
  = commit s
      (settle (Some Completed)
         (setProgressMessage (Some AllProcessed)
            (setIsLoading false
               (settle None
                  (setIsResumable false
                     (setError None (setIsLoading true (setIsCancelled false s)))))))).
Proof.
  intros Hnil. unfold handleResume.
  replace (filter _ (originalData s)) with (@nil Product); [done|].
  rewrite <- Hnil. apply list_filter_iff. intros p. by rewrite elem_of_list_to_set.
Qed.

Lemma rows_keys (rows ogs : list Product) :
  Forall2 (λ row og, ∃ t d, row = with_meta t d og) rows ogs →
  sku <$> rows = sku <$> ogs.
Proof.
  induction 1 as [|row og rows ogs (t & d & ->) _ IH]; [done|].
  rewrite !fmap_cons, sku_with_meta. by f_equal.
Qed.

Lemma productChunks_length_pos {A : Type} (l : list A) :
  l ≠ [] → 0 < length (productChunks l).
Proof.
  intros Hne. destruct (productChunks l) eqn:Hchunks; [|simpl; lia].
  pose proof (productChunks_concat l) as Hall. rewrite Hchunks in Hall. done.
Qed.

(** ** A fresh run that completes *)

(** C2: a fresh start over a non-empty originalData, in which every batch
    call succeeds and the stop button is left alone, first empties
    processedData and ends as completed with a processedData that has the keys
    of originalData in the same order, hence the same length; when the keys
    of originalData are pairwise distinct, so are those of processedData (each
    key occurs exactly once), and each row is the record at the same place
    with the two generated columns written. *)
Theorem fresh_run_covers_every_record (r : State) (env : Env) (s : State) :
  originalData r ≠ [] →
  (∀ j chunk, productChunks (originalData r) !! j = Some chunk → chunk_ok r env j chunk) →
  (∀ j, stopDuring env j = false) →
  let s' := handleGenerate r env s in
  outcome s' = Some Completed
  ∧ length (processedData s') = length (originalData r)
  ∧ sku <$> processedData s' = sku <$> originalData r
  ∧ (NoDup (sku <$> originalData r) →
     NoDup (sku <$> processedData s')
     ∧ Forall2 (λ row og, ∃ t d, row = with_meta t d og)
         (processedData s') (originalData r)).
Proof.
  intros Hne Hok Hquiet s'. subst s'. rewrite handleGenerate_loop by done.
  set (chunks := productChunks (originalData r)).
  set (begin := run_begin r (setProcessedData [] (setIsCancelled false s))).
  assert (follows r env 0 (length chunks) EndsComplete chunks (isCancelledRef begin))
    as Hrun by (apply follows_complete; [done | exact Hok | intros; apply Hquiet]).
  pose proof (run_results_rows r env 0 _ _ _ _ Hrun) as Hrows.
  rewrite take_ge in Hrows by done.
  unfold chunks in Hrows at 2. rewrite productChunks_concat in Hrows. fold chunks in Hrows.
  pose proof (rows_keys _ _ Hrows) as Hkeys.
  destruct (process_chunks_follows r env (length (processedData r)) chunks 0 [] 0 s begin
              (length chunks) EndsComplete (productChunks_nonempty _) Hrun)
    as (_ & Hout & _ & _ & _ & _ & _ & Hpos & _ & Hexact).
  rewrite take_ge in Hpos, Hexact by done. simpl in Hpos, Hexact.
  destruct Hpos as [prev Hdata]; [by apply productChunks_length_pos|].
  assert (sku <$> merge r (run_results r env 0 chunks) prev = sku <$> originalData r)
    as Hmerged.
  { apply merge_keys_full. intros og Hog. rewrite Hkeys.
    apply list_elem_of_fmap. by exists og. }
  split; [done|]. split.
  { rewrite Hdata. apply (f_equal length) in Hmerged. by rewrite !length_fmap in Hmerged. }
  split; [by rewrite Hdata|].
  intros Hnd. split; [by rewrite Hdata, Hmerged|].
  rewrite Hexact; [done|done|done|].
  rewrite Hkeys, <- (length_fmap sku), Hkeys. by rewrite take_ge.
Qed.

Lemma fresh_run_covers_every_record_witness :
  let s' := handleGenerate loaded17 always_ok loaded17 in
  outcome s' = Some Completed
  ∧ length (processedData s') = 17
  ∧ sku <$> processedData s' = sku <$> records17.
Proof.
  destruct (fresh_run_covers_every_record loaded17 always_ok loaded17)
    as (Hout & Hlen & Hkeys & _).
  - discriminate.
  - intros j chunk _. eexists _, _. reflexivity.
  - reflexivity.
  - split; [exact Hout|]. split; [exact Hlen | exact Hkeys].
Defined.

(** ** Stopping *)

(** C4: the loop reads the cancellation flag before it sends each chunk, and
    when it finds the flag set it sends neither that chunk nor any later one
    and settles as stopped with isResumable set.  So in a run started with
    the flag cleared (both handlers clear it), if the first N calls succeed
    and the stop button is pressed while the last of them is in flight, the
    requests of the run are exactly those of chunks 0 to N-1, their results
    are merged, and the run settles as stopped and resumable. *)
Theorem stop_is_honoured_before_each_chunk :
  (∀ (r : State) (env : Env) (ipc i : nat) (chunk : list Product)
     (rest : list (list Product)) (acc : list Product) (tok : nat) (shown s : State),
     isCancelledRef s = true →
     let s' := process_chunks r env ipc i (chunk :: rest) acc tok shown s in
     calls s' = calls s
     ∧ processedData s' = processedData s
     ∧ outcome s' = Some Stopped
     ∧ progressMessage s' = Some GenerationStopped
     ∧ isResumable s' = true)
  ∧ (∀ (r : State) (env : Env) (products : list Product) (shown s : State)
       (N : nat) (chunkN : list Product),
       isCancelledRef s = false →
       0 < N →
       productChunks products !! N = Some chunkN →
       (∀ j chunk, j < N → productChunks products !! j = Some chunk →
          chunk_ok r env j chunk) →
       (∀ j, S j < N → stopDuring env j = false) →
       stopDuring env (N - 1) = true →
       let s' := runGenerationProcess r env products shown s in
       calls s'
         = calls s
           ++ ((λ chunk, batch_request chunk (customInstructions r))
                 <$> take N (productChunks products))
       ∧ (∃ prev,
            processedData s'
            = merge r (run_results r env 0 (take N (productChunks products))) prev)
       ∧ outcome s' = Some Stopped
       ∧ progressMessage s' = Some GenerationStopped
       ∧ isResumable s' = true).
Proof.
  split.
  - intros r env ipc i chunk rest acc tok shown s Hflag s'. subst s'.
    rewrite process_chunks_cancelled by done. autorewrite with run_fields.
    destruct (run_end_fields r true tok s) as (-> & _ & -> & _ & _ & -> & -> & -> & _).
    done.
  - intros r env products shown s N chunkN Hflag HN HchunkN Hok Hquiet Hpressed s'.
    subst s'.
    assert (products ≠ []) as Hne by (intros ->; by destruct N).
    rewrite runGenerationProcess_loop by done.
    assert (follows r env 0 N EndsStopped (productChunks products)
              (isCancelledRef (run_begin r s))) as Hrun.
    { apply (follows_stopped r env _ 0 N _ chunkN); [lia| |exact Hok|exact Hquiet|done].
      intros _. split; [done|]. by replace (0 + N - 1) with (N - 1) by lia. }
    destruct (process_chunks_follows r env (length (processedData r))
                (productChunks products) 0 [] 0 shown (run_begin r s) N EndsStopped
                (productChunks_nonempty _) Hrun)
      as (Hcalls & Hout & _ & Hres & _ & Hmsg & _ & Hpos & _).
    rewrite Nat.add_0_r in Hcalls. simpl in Hpos.
    split; [exact Hcalls|]. split; [by apply Hpos|]. split; [done|].
    split; [by apply Hmsg|]. done.
Qed.

Lemma stop_is_honoured_before_each_chunk_witness :
  let s' := runGenerationProcess loaded17 stop_during_first records17 loaded17 loaded17 in
  length (calls s') = 1
  ∧ outcome s' = Some Stopped
  ∧ isResumable s' = true.
Proof.
  destruct stop_is_honoured_before_each_chunk as [_ Hstop].
  destruct (Hstop loaded17 stop_during_first records17 loaded17 loaded17 1
              (drop 15 records17))
    as (Hcalls & _ & Hout & _ & Hres).
  - reflexivity.
  - lia.
  - reflexivity.
  - intros j chunk _ _. eexists _, _. reflexivity.
  - intros j Hj. lia.
  - reflexivity.
  - split; [|split; [exact Hout | exact Hres]].
    rewrite Hcalls. reflexivity.
Defined.

(** ** The stored session *)

Lemma localStorage_commit_None (shown s : State) :
  localStorage s = None → localStorage (commit shown s) = None.
Proof.
  intros Hnone. unfold commit, syncEffect. rewrite Hnone. simpl.
  rewrite andb_false_r. by case_match.
Qed.

(** A render removes nothing from the store. *)
Lemma localStorage_commit_is_Some (shown s : State) :
  is_Some (localStorage s) → is_Some (localStorage (commit shown s)).
Proof.
  intros Hsome. unfold commit, syncEffect, saveCurrentStateToSession.
  repeat case_match; simpl; by eauto.
Qed.

(** A render whose table is empty leaves the store alone. *)
Lemma localStorage_commit_empty (shown s : State) :
  processedData s = [] → localStorage (commit shown s) = localStorage s.
Proof.
  intros Hnil. unfold commit, syncEffect. rewrite Hnil. simpl.
  rewrite andb_false_r. by case_match.
Qed.

(** A render that shows nothing new to the effect leaves the store alone. *)
Lemma localStorage_commit_same (shown s : State) :
  processedRef shown = processedRef s → isResumable shown = isResumable s →
  localStorage (commit shown s) = localStorage s.
Proof. intros Href Hres. unfold commit. by rewrite bool_decide_true. Qed.

(** The render that follows a change of the table or of the flag rewrites a
    stored snapshot. *)
Lemma localStorage_commit_sync (shown s : State) (fileName : string) :
  file s = Some fileName →
  originalData s ≠ [] →
  processedData s ≠ [] →
  is_Some (localStorage s) →
  processedRef shown ≠ processedRef s ∨ isResumable shown ≠ isResumable s →
  localStorage (commit shown s)
  = Some (SavedSession.mk fileName (originalData s) (processedData s) (isResumable s)).
Proof.
  intros Hfile Horig Hdata Hsome Hdeps. unfold commit.
  rewrite bool_decide_false by (intros [? ?]; by destruct Hdeps).
  unfold syncEffect, saveCurrentStateToSession. rewrite Hfile.
  rewrite (bool_decide_true (is_Some (Some fileName))) by eauto.
  rewrite (bool_decide_true (is_Some (localStorage s))) by done.
  destruct (processedData s); [done|]. destruct (originalData s); done.
Qed.

(** The render after a save: what is stored afterwards is the table of the
    state, provided the table saved is the one of the state or else the
    effect has a reason to run. *)
Lemma commit_after_save (shown s : State) (fileName : string) (saved : list Product)
    (flag : bool) :
  file s = Some fileName →
  originalData s ≠ [] →
  isResumable s = flag →
  localStorage s = Some (SavedSession.mk fileName (originalData s) saved flag) →
  saved = processedData s
  ∨ (processedData s ≠ []
     ∧ (processedRef shown ≠ processedRef s ∨ isResumable shown ≠ isResumable s)) →
  localStorage (commit shown s)
  = Some (SavedSession.mk fileName (originalData s) (processedData s) flag).
Proof.
  intros Hfile Horig Hflag Hstored Hwhy. unfold commit.
  case_bool_decide as Hdeps.
  - rewrite Hstored. destruct Hwhy as [->|[_ [Href|Hres]]]; [done| |].
    + by destruct Hdeps as [? _].
    + by destruct Hdeps as [_ ?].
  - unfold syncEffect, saveCurrentStateToSession.
    rewrite Hfile, Hstored, Hflag. simpl.
    destruct (processedData s) as [|row rows] eqn:Hdata.
    + simpl. rewrite Hstored. destruct Hwhy as [->|[? _]]; done.
    + simpl. destruct (originalData s); done.
Qed.

Section stored_session.
Context (r : State) (env : Env) (ipc : nat) (fileName : string).
Hypothesis Hfile : file r = Some fileName.
Hypothesis Horig : originalData r ≠ [].

Lemma saveCurrentStateToSession_stored isPartial s :
  localStorage (saveCurrentStateToSession r isPartial s)
  = Some (SavedSession.mk fileName (originalData r) (processedData r) isPartial).
Proof.
  unfold saveCurrentStateToSession. rewrite Hfile.
  destruct (originalData r); done.
Qed.

Lemma localStorage_run_end wasCancelled tok s :
  localStorage (run_end r wasCancelled tok s)
  = Some (SavedSession.mk fileName (originalData r) (processedData r) wasCancelled).
Proof.
  unfold run_end. destruct wasCancelled; simpl; apply saveCurrentStateToSession_stored.
Qed.

Lemma localStorage_run_catch acc message s :
  localStorage (run_catch r ipc acc message s)
  = if includes QUOTA_TAG message
    then Some (SavedSession.mk fileName (originalData r) (processedData r) true)
    else localStorage s.
Proof.
  unfold run_catch. destruct (includes QUOTA_TAG message); simpl; [|done].
  apply saveCurrentStateToSession_stored.
Qed.

(** The table after a merge is not empty when the chunk is not and its keys
    are keys of originalData. *)
Lemma merge_nonempty acc chunk metas prev :
  chunk ≠ [] →
  (∀ p, p ∈ chunk → sku p ∈ sku <$> originalData r) →
  merge r (acc ++ processedChunk chunk metas) prev ≠ [].
Proof.
  intros Hchunk Hkeys Hnil. destruct chunk as [|p chunk]; [done|].
  assert (sku p ∈ sku <$> originalData r) as Hp by (apply Hkeys; by left).
  apply list_elem_of_fmap in Hp as (og & Hkey & Hog).
  destruct (newDataMap_in (acc ++ processedChunk (p :: chunk) metas) prev (sku og))
    as (v & Hv & _).
  { rewrite fmap_app, processedChunk_keys, <- Hkey. apply elem_of_app. right. by left. }
  assert (v ∈ merge r (acc ++ processedChunk (p :: chunk) metas) prev) as Hin
    by (apply elem_of_merge; by exists og).
  rewrite Hnil in Hin. by apply elem_of_nil in Hin.
Qed.

(** What is stored when a run ends.  [s] is the state at a turn of the loop
    and [shown] the last render: the table of [s] is still the one the
    handler's render saw, or it is a newer, non-empty one. *)
Lemma process_chunks_stored chunks i acc tok shown s :
  Forall (λ chunk, ∀ p, p ∈ chunk → sku p ∈ sku <$> originalData r) chunks →
  file s = Some fileName →
  originalData s = originalData r →
  isResumable s = false →
  processedData s = processedData r
  ∨ (processedData s ≠ [] ∧ processedRef shown ≠ processedRef s) →
  let final := process_chunks r env ipc i chunks acc tok shown s in
  (outcome final ≠ Some Failed →
   localStorage final
   = Some (SavedSession.mk fileName (originalData r) (processedData final)
             (isResumable final)))
  ∧ (outcome final = Some Failed → localStorage s = None → localStorage final = None).
Proof.
  revert chunks i acc tok shown s.
  apply (process_chunks_rule r env ipc
           (λ i chunks acc tok shown s final,
              Forall (λ chunk, ∀ p, p ∈ chunk → sku p ∈ sku <$> originalData r) chunks →
              file s = Some fileName →
              originalData s = originalData r →
              isResumable s = false →
              processedData s = processedData r
              ∨ (processedData s ≠ [] ∧ processedRef shown ≠ processedRef s) →
              (outcome final ≠ Some Failed →
               localStorage final
               = Some (SavedSession.mk fileName (originalData r) (processedData final)
                         (isResumable final)))
              ∧ (outcome final = Some Failed → localStorage s = None →
                 localStorage final = None))).
  - (* past the last chunk *)
    intros i acc tok shown s _ Hf Ho Hres Hdata.
    destruct (run_end_fields r false tok s)
      as (Hpd & Hpr & _ & Hod & Hfl & Hir & Hout & _).
    autorewrite with run_fields. rewrite Hout. split; [intros _|done].
    rewrite Hpd, Hir, Hres, <- Ho, <- Hod, <- Hpd.
    apply (commit_after_save _ _ fileName (processedData r) false).
    + by rewrite Hfl.
    + by rewrite Hod, Ho.
    + by rewrite Hir.
    + by rewrite localStorage_run_end, Hod, Ho.
    + rewrite Hpd, Hpr. destruct Hdata as [->|[? ?]]; auto.
  - (* the flag is set *)
    intros i chunk rest acc tok shown s _ _ Hf Ho Hres Hdata.
    destruct (run_end_fields r true tok s)
      as (Hpd & Hpr & _ & Hod & Hfl & Hir & Hout & _).
    autorewrite with run_fields. rewrite Hout. split; [intros _|done].
    rewrite Hpd, Hir, <- Ho, <- Hod, <- Hpd.
    apply (commit_after_save _ _ fileName (processedData r) true).
    + by rewrite Hfl.
    + by rewrite Hod, Ho.
    + by rewrite Hir.
    + by rewrite localStorage_run_end, Hod, Ho.
    + rewrite Hpd, Hpr. destruct Hdata as [->|[? ?]]; auto.
  - (* an empty chunk *)
    intros i rest acc tok shown s final _ IH Hkeys Hf Ho Hres Hdata.
    apply Forall_cons in Hkeys as [_ Hkeys]. by apply IH.
  - (* a successful round *)
    intros i chunk rest acc tok shown s metas tokens final _ Hchunk _ IH Hkeys Hf Ho Hres Hdata.
    apply Forall_cons in Hkeys as [Hchunkkeys Hkeys].
    destruct IH as [IHsaved IHnone]; [done| | | | |].
    + by autorewrite with run_fields.
    + by autorewrite with run_fields.
    + by autorewrite with run_fields.
    + right. autorewrite with run_fields. split; [by apply merge_nonempty|].
      unfold dispatch. autorewrite with run_fields. simpl. lia.
    + split; [done|]. intros Hfailed Hnone. apply IHnone; [done|].
      autorewrite with run_fields. unfold dispatch. by apply localStorage_commit_None.
  - (* a failed call *)
    intros i chunk rest acc tok shown s message _ _ _ _ Hf Ho Hres Hdata.
    set (arrived := received r env i chunk shown s).
    destruct (run_catch_fields r ipc acc message arrived)
      as (Hpd & Hpr & _ & Hod & Hfl & Hir & Hout & _).
    autorewrite with run_fields. rewrite Hout.
    destruct (includes QUOTA_TAG message) eqn:Htag.
    + split; [intros _|done].
      rewrite Hpd, Hir.
      assert (originalData arrived = originalData r) as Ho'
        by (unfold arrived; by autorewrite with run_fields).
      rewrite <- Ho', <- Hod, <- Hpd.
      apply (commit_after_save _ _ fileName (processedData r) true).
      * rewrite Hfl. unfold arrived. by autorewrite with run_fields.
      * by rewrite Hod, Ho'.
      * by rewrite Hir.
      * by rewrite localStorage_run_catch, Htag, Hod, Ho'.
      * rewrite Hpd, Hir. unfold arrived. autorewrite with run_fields.
        unfold dispatch. autorewrite with run_fields. simpl. rewrite Hres.
        destruct Hdata as [->|[? _]]; [by left|]. right. split; [done|]. by right.
    + split; [done|]. intros _ Hnone.
      unfold commit. rewrite bool_decide_true.
      * rewrite localStorage_run_catch, Htag. unfold arrived.
        autorewrite with run_fields. unfold dispatch. by apply localStorage_commit_None.
      * rewrite Hpr, Hir. unfold arrived. autorewrite with run_fields.
        unfold dispatch. by autorewrite with run_fields.
Qed.
End stored_session.

Section failed_stored.
Context (r : State) (env : Env) (ipc : nat) (fileName : string).
Hypothesis Horig : originalData r ≠ [].

(** What is stored when a run settles as failed although a snapshot was
    stored when it started: the snapshot of the final state when the effect
    has had a non-empty table to sync, what was stored before otherwise. *)
Lemma process_chunks_failed_stored chunks i acc tok shown s :
  Forall (λ chunk, ∀ p, p ∈ chunk → sku p ∈ sku <$> originalData r) chunks →
  file s = Some fileName →
  originalData s = originalData r →
  isResumable s = false →
  is_Some (localStorage s) →
  let final := process_chunks r env ipc i chunks acc tok shown s in
  outcome final = Some Failed →
  (processedData s ≠ [] →
   processedRef shown ≠ processedRef s ∨ isResumable shown ≠ isResumable s →
   processedData final ≠ []
   ∧ localStorage final
     = Some (SavedSession.mk fileName (originalData r) (processedData final) false))
  ∧ (processedData s = [] →
     (processedData final = [] ∧ localStorage final = localStorage s)
     ∨ (processedData final ≠ []
        ∧ localStorage final
          = Some (SavedSession.mk fileName (originalData r) (processedData final)
                    false))).
Proof.
  revert chunks i acc tok shown s.
  apply (process_chunks_rule r env ipc
           (λ i chunks acc tok shown s final,
              Forall (λ chunk, ∀ p, p ∈ chunk → sku p ∈ sku <$> originalData r) chunks →
              file s = Some fileName →
              originalData s = originalData r →
              isResumable s = false →
              is_Some (localStorage s) →
              outcome final = Some Failed →
              (processedData s ≠ [] →
               processedRef shown ≠ processedRef s ∨ isResumable shown ≠ isResumable s →
               processedData final ≠ []
               ∧ localStorage final
                 = Some (SavedSession.mk fileName (originalData r) (processedData final)
                           false))
              ∧ (processedData s = [] →
                 (processedData final = [] ∧ localStorage final = localStorage s)
                 ∨ (processedData final ≠ []
                    ∧ localStorage final
                      = Some (SavedSession.mk fileName (originalData r)
                                (processedData final) false))))).
  - (* past the last chunk *)
    intros i acc tok shown s _ _ _ _ _ Hout.
    destruct (run_end_fields r false tok s) as (_ & _ & _ & _ & _ & _ & Hout' & _).
    rewrite outcome_commit, Hout' in Hout. discriminate Hout.
  - (* the flag is set *)
    intros i chunk rest acc tok shown s _ _ _ _ _ _ Hout.
    destruct (run_end_fields r true tok s) as (_ & _ & _ & _ & _ & _ & Hout' & _).
    rewrite outcome_commit, Hout' in Hout. discriminate Hout.
  - (* an empty chunk *)
    intros i rest acc tok shown s final _ IH Hkeys Hf Ho Hres Hsome Hout.
    apply Forall_cons in Hkeys as [_ Hkeys]. by apply IH.
  - (* a successful round *)
    intros i chunk rest acc tok shown s metas tokens final _ Hchunk _ IH
      Hkeys Hf Ho Hres Hsome Hout.
    apply Forall_cons in Hkeys as [Hchunkkeys Hkeys].
    destruct IH as [IHsync _]; [done| | | | |done|].
    + by autorewrite with run_fields.
    + by autorewrite with run_fields.
    + by autorewrite with run_fields.
    + autorewrite with run_fields. unfold dispatch.
      by apply localStorage_commit_is_Some.
    + destruct IHsync as [Hdata Hstored].
      * autorewrite with run_fields. by apply merge_nonempty.
      * left. autorewrite with run_fields. unfold dispatch.
        autorewrite with run_fields. simpl. lia.
      * split; [by intros _ _|]. intros _. by right.
  - (* a failed call *)
    intros i chunk rest acc tok shown s message _ _ _ _ Hf Ho Hres Hsome Hout.
    set (arrived := received r env i chunk shown s) in *.
    destruct (run_catch_fields r ipc acc message arrived)
      as (Hpd & Hpr & _ & Hod & Hfl & Hir & Hout' & _).
    rewrite outcome_commit, Hout' in Hout.
    destruct (includes QUOTA_TAG message) eqn:Htag; [discriminate Hout|].
    assert (localStorage (commit (dispatch r chunk shown s)
                            (run_catch r ipc acc message arrived))
            = localStorage (dispatch r chunk shown s)) as Hlast.
    { rewrite localStorage_commit_same.
      - unfold run_catch. rewrite Htag. simpl. unfold arrived.
        by autorewrite with run_fields.
      - rewrite Hpr. unfold arrived. autorewrite with run_fields.
        unfold dispatch. by autorewrite with run_fields.
      - rewrite Hir. unfold arrived. autorewrite with run_fields.
        unfold dispatch. by autorewrite with run_fields. }
    rewrite Hlast. autorewrite with run_fields. rewrite Hpd.
    unfold arrived. autorewrite with run_fields.
    set (sent := send (batch_request chunk (customInstructions r)) s).
    assert (file sent = Some fileName ∧ originalData sent = originalData s
            ∧ processedData sent = processedData s ∧ processedRef sent = processedRef s
            ∧ isResumable sent = isResumable s ∧ localStorage sent = localStorage s)
      as (Sf & So & Sp & Sr & Si & Sl) by done.
    unfold dispatch. fold sent. split.
    + intros Hdata Hdeps. split; [done|].
      rewrite (localStorage_commit_sync shown sent fileName).
      * by rewrite So, Ho, Sp, Si, Hres.
      * done.
      * by rewrite So, Ho.
      * by rewrite Sp.
      * by rewrite Sl.
      * by rewrite Sr, Si.
    + intros Hnil. left. split; [done|].
      rewrite localStorage_commit_empty by by rewrite Sp. done.
Qed.
End failed_stored.

Lemma elem_of_concat_chunk {A : Type} (chunks : list (list A)) (chunk : list A) (x : A) :
  chunk ∈ chunks → x ∈ chunk → x ∈ concat chunks.
Proof.
  induction chunks as [|c chunks IH]; intros Hchunk Hx.
  - by apply elem_of_nil in Hchunk.
  - simpl. apply elem_of_app. apply elem_of_cons in Hchunk as [<-|Hchunk]; auto.
Qed.

Lemma productChunks_within {A : Type} (l : list A) :
  Forall (λ chunk, ∀ x, x ∈ chunk → x ∈ l) (productChunks l).
Proof.
  apply Forall_forall. intros chunk Hchunk x Hx.
  rewrite <- (productChunks_concat l). by apply (elem_of_concat_chunk _ chunk).
Qed.

Lemma productChunks_keys_within (products : list Product) (orig : list Product) :
  (∀ p, p ∈ products → sku p ∈ sku <$> orig) →
  Forall (λ chunk, ∀ p, p ∈ chunk → sku p ∈ sku <$> orig) (productChunks products).
Proof.
  intros Hkeys. eapply Forall_impl; [apply productChunks_within|].
  intros chunk Hchunk p Hp. apply Hkeys. by apply Hchunk.
Qed.

(** ** The snapshot in localStorage *)

(** C7, as stated, fails: a fresh run over seventeen records whose first
    chunk is merged and whose second call fails with an ordinary error
    settles as failed with fifteen processed rows and with nothing stored:
    neither the merge nor the settlement wrote the snapshot. *)
Lemma snapshot_not_written_by_failed_run :
  let s' := handleGenerate loaded17 failure_at_second loaded17 in
  localStorage loaded17 = None
  ∧ length (processedData s') = 15
  ∧ outcome s' = Some Failed
  ∧ localStorage s' = None.
Proof. vm_compute. done. Qed.

(** C7, amended.  Dismissal removes the stored snapshot.  A render stores
    nothing when nothing is stored, and the render that follows a chunk merge
    replaces a stored snapshot by one with the merged rows.  A run that has
    records to process, fresh or resumed, and settles
    as completed, stopped or quota-exceeded leaves the snapshot {fileName,
    originalData, processedData, isResumable} of its final state stored,
    whatever was stored before.  A run that settles as failed, and a resumed
    run with nothing to process, write no snapshot of their own: with nothing
    stored before, nothing is stored after; with a snapshot stored before,
    what is stored after is the snapshot of the final state, not resumable,
    if the table is not empty, and the old snapshot if the table is empty.
    The fresh run is started by the handler of a render [r] that saw the
    loaded file and no processed rows, the resumed run by the handler of the
    current render.  For the resumed run the last statement takes the
    resumable flag to be set when the run starts, as it is whenever the page
    offers Resume. *)
Theorem session_snapshot_lifecycle :
  (∀ s, localStorage (handleDismissSession s) = None
        ∧ savedSession (handleDismissSession s) = None)
  ∧ (∀ shown s, localStorage s = None → localStorage (commit shown s) = None)
  ∧ (∀ (r : State) (initialProcessedCount : nat) (currentRunResults : list Product)
       (shown s : State) (fileName : string),
       file s = Some fileName →
       originalData s ≠ [] →
       processedRef shown = processedRef s →
       merge r currentRunResults (processedData s) ≠ [] →
       localStorage (commit shown (merged r initialProcessedCount currentRunResults s))
       = match localStorage s with
         | None => None
         | Some _ =>
             Some (SavedSession.mk fileName (originalData s)
                     (merge r currentRunResults (processedData s)) (isResumable s))
         end)
  ∧ (∀ (r : State) (env : Env) (s : State) (fileName : string),
       file r = Some fileName →
       file s = file r →
       originalData s = originalData r →
       originalData r ≠ [] →
       processedData r = [] →
       let s' := handleGenerate r env s in
       (outcome s' ≠ Some Failed →
        localStorage s'
        = Some (SavedSession.mk fileName (originalData r) (processedData s')
                  (isResumable s')))
       ∧ (outcome s' = Some Failed →
          localStorage s'
          = match localStorage s with
            | None => None
            | Some blob =>
                if decide (processedData s' = []) then Some blob
                else Some (SavedSession.mk fileName (originalData r) (processedData s')
                             false)
            end))
  ∧ (∀ (env : Env) (s : State) (fileName : string),
       file s = Some fileName →
       let remaining :=
         filter (λ p, sku p ∉ sku <$> processedData s) (originalData s) in
       let s' := handleResume s env s in
       (remaining ≠ [] →
        outcome s' ≠ Some Failed →
        localStorage s'
        = Some (SavedSession.mk fileName (originalData s) (processedData s')
                  (isResumable s')))
       ∧ (remaining = [] ∨ outcome s' = Some Failed →
          (localStorage s = None → localStorage s' = None)
          ∧ (isResumable s = true →
             originalData s ≠ [] →
             localStorage s'
             = match localStorage s with
               | None => None
               | Some blob =>
                   if decide (processedData s' = []) then Some blob
                   else Some (SavedSession.mk fileName (originalData s)
                                (processedData s') false)
               end))).
Proof.
  split; [done|]. split; [apply localStorage_commit_None|]. split; [|split].
  - intros r ipc results shown s fileName Hfile Horig Href Hdata.
    destruct (localStorage s) as [blob|] eqn:Hstored.
    + rewrite (localStorage_commit_sync _ _ fileName).
      * by autorewrite with run_fields.
      * by autorewrite with run_fields.
      * by autorewrite with run_fields.
      * by autorewrite with run_fields.
      * autorewrite with run_fields. by rewrite Hstored.
      * left. autorewrite with run_fields. lia.
    + apply localStorage_commit_None. by autorewrite with run_fields.
  - intros r env s fileName Hfile Hsame Hrecords Hne Hfresh s'. subst s'.
    rewrite handleGenerate_loop by done.
    set (begin := run_begin r (setProcessedData [] (setIsCancelled false s))).
    assert (Forall (λ chunk, ∀ p, p ∈ chunk → sku p ∈ sku <$> originalData r)
              (productChunks (originalData r))) as Hkeys.
    { apply productChunks_keys_within. intros p Hp. apply list_elem_of_fmap. by exists p. }
    destruct (process_chunks_stored r env (length (processedData r)) fileName Hfile Hne
                (productChunks (originalData r)) 0 [] 0 s begin)
      as [Hstored Hnone]; [done| | | | |].
    + simpl. by rewrite Hsame.
    + done.
    + done.
    + left. by rewrite Hfresh.
    + split; [done|]. intros Hfailed.
      destruct (localStorage s) as [blob|] eqn:Hblob; [|by apply Hnone].
      destruct (process_chunks_failed_stored r env (length (processedData r)) fileName Hne
                  (productChunks (originalData r)) 0 [] 0 s begin)
        as [_ Hempty]; [done| | | | |exact Hfailed|].
      * simpl. by rewrite Hsame.
      * done.
      * done.
      * simpl. by rewrite Hblob.
      * destruct Hempty as [[Hnil Hsame']|[Hdata Hsnap]]; [reflexivity| |].
        -- rewrite decide_True by done. rewrite Hsame'. done.
        -- rewrite decide_False by done. done.
  - intros env s fileName Hfile remaining s'.
    assert (remaining = filter (λ p, sku p ∉ sku <$> processedData s) (originalData s))
      as Hremaining by done.
    clearbody remaining. split.
    + intros Hne. unfold s'. subst remaining. rewrite handleResume_loop by done.
      intros Hok.
      assert (originalData s ≠ []) as Horig.
      { intros Hnil. apply Hne. by rewrite Hnil. }
      destruct (process_chunks_stored s env (length (processedData s)) fileName Hfile Horig
                  (productChunks
                     (filter (λ p, sku p ∉ sku <$> processedData s) (originalData s)))
                  0 [] 0 s (run_begin s (setIsCancelled false s)))
        as [Hstored _]; [| done | done | done | by left | by apply Hstored].
      apply productChunks_keys_within. intros p Hp. apply list_elem_of_fmap.
      exists p. split; [done|]. by apply list_elem_of_filter in Hp as [_ Hp].
    + intros Hcase.
      destruct (decide (remaining = [])) as [Hnil|Hne].
      * (* nothing to process *)
        unfold s'. subst remaining. rewrite handleResume_empty_job by done.
        set (settled := settle _ _).
        assert (processedData settled = processedData s ∧ file settled = Some fileName
                ∧ originalData settled = originalData s ∧ isResumable settled = false
                ∧ localStorage settled = localStorage s ∧ processedRef settled = processedRef s)
          as (Sp & Sf & So & Si & Sl & Sr) by done.
        split; [intros Hnone; apply localStorage_commit_None; by rewrite Sl|].
        intros Hres Horig. rewrite processedData_commit, Sp.
        destruct (decide (processedData s = [])) as [Hempty|Hdata].
        -- rewrite localStorage_commit_empty by by rewrite Sp.
           rewrite Sl. by destruct (localStorage s).
        -- destruct (localStorage s) as [blob|] eqn:Hblob.
           ++ rewrite (localStorage_commit_sync _ _ fileName).
              ** by rewrite So, Sp, Si.
              ** done.
              ** by rewrite So.
              ** by rewrite Sp.
              ** rewrite Sl. by eexists.
              ** right. by rewrite Si, Hres.
           ++ by apply localStorage_commit_None.
      * (* the run fails *)
        destruct Hcase as [?|Hfailed]; [done|].
        unfold s' in *. subst remaining. rewrite handleResume_loop in * by done.
        assert (originalData s ≠ []) as Horig.
        { intros Hnil. apply Hne. by rewrite Hnil. }
        set (chunks := productChunks _) in *.
        set (begin := run_begin s (setIsCancelled false s)) in *.
        assert (Forall (λ chunk, ∀ p, p ∈ chunk → sku p ∈ sku <$> originalData s) chunks)
          as Hkeys.
        { apply productChunks_keys_within. intros p Hp. apply list_elem_of_fmap.
          exists p. split; [done|]. by apply list_elem_of_filter in Hp as [_ Hp]. }
        split.
        -- destruct (process_chunks_stored s env (length (processedData s)) fileName Hfile
                       Horig chunks 0 [] 0 s begin)
             as [_ Hnone]; [done | done | done | done | by left |].
           by apply Hnone.
        -- intros Hres _.
           destruct (localStorage s) as [blob|] eqn:Hblob.
           2:{ destruct (process_chunks_stored s env (length (processedData s)) fileName
                           Hfile Horig chunks 0 [] 0 s begin)
                 as [_ Hnone]; [done | done | done | done | by left |].
               by apply Hnone. }
           destruct (process_chunks_failed_stored s env (length (processedData s)) fileName
                       Horig chunks 0 [] 0 s begin)
             as [Hsync Hempty]; [done | done | done | done | | done |].
           { simpl. by rewrite Hblob. }
           destruct (decide (processedData s = [])) as [Hnodata|Hdata].
           ++ destruct Hempty as [[Hnil Hsame']|[Hdata Hsnap]]; [exact Hnodata| |].
              ** rewrite decide_True by done. by rewrite Hsame'.
              ** by rewrite decide_False.
           ++ destruct Hsync as [Hdata' Hsnap]; [done| |].
              ** right. simpl. by rewrite Hres.
              ** by rewrite decide_False.
Qed.

Lemma session_snapshot_lifecycle_witness :
  (let s' := handleGenerate loaded17 quota_at_second loaded17 in
   localStorage s'
   = Some (SavedSession.mk "products.csv" records17 (processedData s') true))
  ∧ (let s1 := handleGenerate loaded32 quota_at_second loaded32 in
     let s2 := handleResume s1 failure_at_second s1 in
     (length ∘ SavedSession.processedData <$> localStorage s1) = Some 15
     ∧ outcome s2 = Some Failed
     ∧ length (processedData s2) = 30
     ∧ localStorage s2
       = Some (SavedSession.mk "products.csv" records32 (processedData s2) false)).
Proof.
  destruct session_snapshot_lifecycle as (_ & _ & _ & Hfresh & Hresumed).
  split.
  - destruct (Hfresh loaded17 quota_at_second loaded17 "products.csv") as [Hstored _].
    + reflexivity.
    + reflexivity.
    + reflexivity.
    + discriminate.
    + reflexivity.
    + cbv zeta in Hstored |- *. rewrite Hstored; [reflexivity|]. vm_compute. discriminate.
  - intros s1 s2.
    destruct (Hresumed failure_at_second s1 "products.csv") as [_ Hfailed];
      [reflexivity|].
    destruct Hfailed as [_ Hstored]; [right; by vm_compute|].
    split; [by vm_compute|]. split; [by vm_compute|]. split; [by vm_compute|].
    cbv zeta in Hstored. unfold s2. rewrite Hstored; [|by vm_compute|by vm_compute].
    vm_compute. reflexivity.
Defined.

(** ** Resuming *)

(** A processed row whose key is in originalData and in no chunk of the run
    is still in the table, under its key, when the run ends, however it
    ends. *)
Lemma process_chunks_keeps (r : State) (env : Env) (ipc : nat) (p : Product)
    chunks i acc tok shown s :
  sku p ∈ sku <$> originalData r →
  Forall (λ chunk, ∀ q, q ∈ chunk → sku q ≠ sku p) chunks →
  sku p ∉ sku <$> acc →
  new_Map (keyed (processedData s)) !! sku p = Some p →
  new_Map (keyed (processedData (process_chunks r env ipc i chunks acc tok shown s)))
    !! sku p = Some p.
Proof.
  intros Horig. revert chunks i acc tok shown s.
  apply (process_chunks_rule r env ipc
           (λ i chunks acc tok shown s final,
              Forall (λ chunk, ∀ q, q ∈ chunk → sku q ≠ sku p) chunks →
              sku p ∉ sku <$> acc →
              new_Map (keyed (processedData s)) !! sku p = Some p →
              new_Map (keyed (processedData final)) !! sku p = Some p)).
  - intros i acc tok shown s _ _ Hp. autorewrite with run_fields.
    by destruct (run_end_fields r false tok s) as (-> & _).
  - intros i chunk rest acc tok shown s _ _ _ Hp. autorewrite with run_fields.
    by destruct (run_end_fields r true tok s) as (-> & _).
  - intros i rest acc tok shown s final _ IH Hchunks Hacc Hp.
    apply Forall_cons in Hchunks as [_ Hchunks]. by apply IH.
  - intros i chunk rest acc tok shown s metas tokens final _ _ _ IH Hchunks Hacc Hp.
    apply Forall_cons in Hchunks as [Hchunk Hchunks].
    assert (sku p ∉ sku <$> acc ++ processedChunk chunk metas) as Hacc'.
    { rewrite fmap_app, processedChunk_keys. intros Hin.
      apply elem_of_app in Hin as [Hin|Hin]; [done|].
      apply list_elem_of_fmap in Hin as (q & Hkey & Hq). by apply (Hchunk q). }
    apply IH; [done|done|]. autorewrite with run_fields. by apply merge_keeps.
  - intros i chunk rest acc tok shown s message _ _ _ _ _ Hp.
    autorewrite with run_fields.
    destruct (run_catch_fields r ipc acc message (received r env i chunk shown s))
      as (-> & _).
    by autorewrite with run_fields.
Qed.

Lemma concat_fmap_rows {A B : Type} (f : A → B) (chunks : list (list A)) :
  concat ((λ chunk : list A, f <$> chunk) <$> chunks) = f <$> concat chunks.
Proof.
  induction chunks as [|chunk chunks IH]; [done|].
  rewrite fmap_cons. simpl. by rewrite fmap_app, IH.
Qed.

Lemma sku_strip_generated (p : Product) : sku (strip_generated p) = sku p.
Proof. unfold sku, strip_generated. by rewrite !obj_get_without_ne. Qed.

(** C3: resume, started by the handler of the current render, works on the
    records of originalData whose key is not among the processed rows, in
    their original order, cut into chunks.  Whatever
    the service and the user do, the requests it sends are those of the
    first chunks of these records, so no record whose key is already
    processed is sent; when every call succeeds and the stop button is left
    alone, all of them are sent, in order.  The processed rows are not
    cleared: with pairwise distinct processed keys, every processed row whose
    key is in originalData is still in processedData afterwards. *)
Theorem resume_sends_only_unprocessed_records (env : Env) (s : State) :
  let remaining := filter (λ p, sku p ∉ sku <$> processedData s) (originalData s) in
  let s' := handleResume s env s in
  let sent := drop (length (calls s)) (calls s') in
  (∃ n, sent =
        (λ chunk, batch_request chunk (customInstructions s))
          <$> take n (productChunks remaining))
  ∧ calls s' = calls s ++ sent
  ∧ concat (productChunks remaining) = remaining
  ∧ (∀ q row, q ∈ sent → row ∈ request_rows q → sku row ∉ sku <$> processedData s)
  ∧ ((∀ j chunk, productChunks remaining !! j = Some chunk → chunk_ok s env j chunk) →
     (∀ j, stopDuring env j = false) →
     concat (request_rows <$> sent) = strip_generated <$> remaining)
  ∧ (NoDup (sku <$> processedData s) →
     ∀ p, p ∈ processedData s → sku p ∈ sku <$> originalData s →
          p ∈ processedData s').
Proof.
  intros remaining s' sent.
  assert (handleResume s env s
          = runGenerationProcess s env remaining s (setIsCancelled false s)) as Hresume.
  { unfold handleResume. f_equal. apply list_filter_iff. intros p.
    by rewrite elem_of_list_to_set. }
  assert (∃ n, calls s' = calls s
                 ++ ((λ chunk, batch_request chunk (customInstructions s))
                       <$> take n (productChunks remaining))) as [n Hcalls].
  { unfold s'. rewrite Hresume.
    destruct (decide (remaining = [])) as [Hnil|Hne].
    - exists 0. rewrite Hnil. unfold runGenerationProcess. simpl.
      autorewrite with run_fields. simpl. by rewrite app_nil_r.
    - rewrite runGenerationProcess_loop by done.
      apply (process_chunks_calls s env (length (processedData s))
               (productChunks remaining) 0 [] 0 s
               (run_begin s (setIsCancelled false s))).
      apply productChunks_nonempty. }
  assert (sent = (λ chunk, batch_request chunk (customInstructions s))
                   <$> take n (productChunks remaining)) as Hsent.
  { unfold sent. rewrite Hcalls. by rewrite drop_app_length. }
  split; [by exists n|]. split; [by rewrite Hsent|].
  split; [apply productChunks_concat|]. split; [|split].
  - intros q row Hq Hrow. rewrite Hsent in Hq.
    apply list_elem_of_fmap in Hq as (chunk & -> & Hchunk).
    simpl in Hrow. apply list_elem_of_fmap in Hrow as (p & -> & Hp).
    rewrite sku_strip_generated.
    assert (p ∈ remaining) as Hin.
    { rewrite <- (productChunks_concat remaining).
      apply (elem_of_concat_chunk _ chunk); [|done].
      eapply elem_of_sublist; [done|]. apply sublist_take. }
    unfold remaining in Hin. by apply list_elem_of_filter in Hin as [Hin _].
  - intros Hok Hquiet.
    destruct (decide (remaining = [])) as [Hnil|Hne].
    { rewrite Hsent, Hnil. unfold productChunks. simpl. by rewrite take_nil. }
    assert (calls s' = calls s
              ++ ((λ chunk, batch_request chunk (customInstructions s))
                    <$> productChunks remaining)) as Hall.
    { unfold s'. rewrite Hresume, runGenerationProcess_loop by done.
      destruct (process_chunks_follows s env (length (processedData s))
                  (productChunks remaining) 0 [] 0 s
                  (run_begin s (setIsCancelled false s))
                  (length (productChunks remaining)) EndsComplete
                  (productChunks_nonempty _)) as (Hrun & _).
      - apply follows_complete; [done|exact Hok|intros; apply Hquiet].
      - rewrite Hrun. simpl. by rewrite Nat.add_0_r, take_ge. }
    unfold sent. rewrite Hall, drop_app_length.
    rewrite <- list_fmap_compose.
    rewrite <- (productChunks_concat remaining) at 2.
    rewrite <- concat_fmap_rows. done.
  - intros Hnd p Hp Horig. apply new_Map_keyed_elem.
    unfold s'. rewrite Hresume.
    assert (new_Map (keyed (processedData s)) !! sku p = Some p) as Hfound
      by by apply new_Map_keyed_NoDup.
    destruct (decide (remaining = [])) as [Hnil|Hne].
    { rewrite Hnil. unfold runGenerationProcess. simpl. by autorewrite with run_fields. }
    rewrite runGenerationProcess_loop by done.
    apply process_chunks_keeps; [done| |apply not_elem_of_nil|done].
    apply Forall_forall. intros chunk Hchunk q Hq Hkey.
    assert (q ∈ remaining) as Hin.
    { rewrite <- (productChunks_concat remaining).
      by apply (elem_of_concat_chunk _ chunk). }
    unfold remaining in Hin. apply list_elem_of_filter in Hin as [Hin _].
    apply Hin. rewrite Hkey. apply list_elem_of_fmap. by exists p.
Qed.

Lemma resume_sends_only_unprocessed_records_witness :
  let s' := handleResume two_of_four_done always_ok two_of_four_done in
  concat (request_rows <$> calls s') = drop 2 four_records
  ∧ with_meta "Title" "Description" [("sku", "A"); ("name", "a")] ∈ processedData s'.
Proof.
  destruct (resume_sends_only_unprocessed_records always_ok two_of_four_done)
    as (_ & _ & _ & _ & Hall & Hkept).
  split.
  - change (concat
              (request_rows
                 <$> drop (length (calls two_of_four_done))
                       (calls (handleResume two_of_four_done always_ok two_of_four_done)))
            = drop 2 four_records).
    rewrite Hall; [reflexivity| |reflexivity].
    intros j chunk _. eexists _, _. reflexivity.
  - apply Hkept.
    + apply (bool_decide_unpack (NoDup (sku <$> processedData two_of_four_done))).
      vm_compute. exact I.
    + apply elem_of_cons. by left.
    + apply elem_of_cons. by left.
Defined.
(** ** Quota exhaustion in the middle of a run *)

Lemma result_key (items : list Meta) (k : option string) :
  m_sku match new_Map ((λ item, (m_sku item, item)) <$> items) !! k with
        | Some result => mkMeta (m_sku result) (metaTitle result) (metaDescription result)
        | None => mkMeta k NO_AI_RESPONSE
                    "The AI did not provide a response for this item in the batch."
        end
  = k.
Proof.
  destruct (new_Map _ !! k) as [result|] eqn:Hres; [|done]. simpl.
  apply lookup_map_set_all_Some in Hres as [Hin|Hempty]; [|by rewrite lookup_empty in Hempty].
  apply list_elem_of_fmap in Hin as (item & Heq & _). by inversion Heq.
Qed.

Lemma finalResults_by_key (products : list Product) (items : list Meta) (p : Product) :
  p ∈ products →
  new_Map ((λ m, (m_sku m, m)) <$> finalResults products items) !! sku p
  = Some match new_Map ((λ item, (m_sku item, item)) <$> items) !! sku p with
         | Some result => mkMeta (m_sku result) (metaTitle result) (metaDescription result)
         | None => mkMeta (sku p) NO_AI_RESPONSE
                     "The AI did not provide a response for this item in the batch."
         end.
Proof.
  intros Hp.
  assert (sku p ∈ ((λ m, (m_sku m, m)) <$> finalResults products items).*1) as Hkey.
  { rewrite item_keys, finalResults_keys. apply list_elem_of_fmap. by exists p. }
  destruct (lookup_map_set_all_in _ ∅ _ Hkey) as (v & Hv & Hin).
  unfold new_Map at 1. rewrite Hv. f_equal.
  apply list_elem_of_fmap in Hin as (v' & Heq & Hin).
  inversion Heq as [[Hk Hsame]]. subst v'.
  apply list_elem_of_lookup in Hin as [i Hi].
  unfold finalResults in Hi. rewrite list_lookup_fmap in Hi.
  destruct (products !! i) as [q|] eqn:Hq; [|done]. simpl in Hi.
  inversion Hi as [Hv']. rewrite Hk. rewrite <- Hv' at 1. rewrite result_key.
  by rewrite <- Hv', result_key.
Qed.

Lemma processedChunk_lookup (chunk : list Product) (metas : list Meta) (i : nat)
    (p : Product) :
  chunk !! i = Some p →
  processedChunk chunk metas !! i
  = Some (let meta := new_Map ((λ m, (m_sku m, m)) <$> metas) !! sku p in
          with_meta (or_else (metaTitle <$> meta) NOT_GENERATED)
            (or_else (metaDescription <$> meta) NOT_GENERATED) p).
Proof. intros Hp. unfold processedChunk. by rewrite list_lookup_fmap, Hp. Qed.

(** The binding of a key is the last item that carries it. *)
Lemma lookup_items_last (items : list Meta) (k : option string) :
  new_Map ((λ item, (m_sku item, item)) <$> items) !! k
  = last (filter (λ item, m_sku item = k) items).
Proof.
  unfold new_Map. induction items as [|item items IH] using rev_ind; [done|].
  rewrite fmap_app, filter_app.
  change ((λ item, (m_sku item, item)) <$> [item]) with [(m_sku item, item)].
  rewrite map_set_all_snoc. cbn [fst snd].
  rewrite filter_cons, filter_nil.
  destruct (decide (m_sku item = k)) as [->|Hne].
  - rewrite lookup_insert_eq. by rewrite last_snoc.
  - rewrite lookup_insert_ne by done. by rewrite app_nil_r.
Qed.

(** The row written for a record of a chunk, from the items of the
    response. *)
Lemma generated_row_lookup (chunk : list Product) (items : list Meta) (i : nat)
    (og : Product) :
  chunk !! i = Some og →
  ∃ title description,
    processedChunk chunk (finalResults chunk items) !! i
    = Some (with_meta title description og)
    ∧ match last (filter (λ item, m_sku item = sku og) items) with
      | Some item =>
          title = (if decide (metaTitle item = "")
                   then "Error: Not Generated" else metaTitle item)
          ∧ description = (if decide (metaDescription item = "")
                           then "Error: Not Generated" else metaDescription item)
      | None =>
          title = "Error: No AI Response"
          ∧ description = "The AI did not provide a response for this item in the batch."
      end.
Proof.
  intros Hog. rewrite (processedChunk_lookup _ _ _ _ Hog). cbv zeta.
  rewrite finalResults_by_key by by eapply list_elem_of_lookup_2.
  rewrite lookup_items_last.
  destruct (last _) as [item|]; simpl.
  - eexists _, _. split; [reflexivity|].
    split.
    + destruct (metaTitle item); [done|]. by rewrite decide_False.
    + destruct (metaDescription item); [done|]. by rewrite decide_False.
  - eexists _, _. split; [reflexivity|]. done.
Qed.

Lemma chunk_ok_reply (r : State) (env : Env) (i : nat) (chunk : list Product) :
  chunk_ok r env i chunk →
  ∃ totalTokens items,
    reply env i (batch_request chunk (customInstructions r))
      = Resolved totalTokens (PArray items)
    ∧ chunk_results r env i chunk = processedChunk chunk (finalResults chunk items).
Proof.
  intros (metas & tokens & Hok). unfold chunk_results. rewrite Hok.
  unfold generateMetaContentForBatch in Hok.
  destruct (reply env i _) as [total [items|]|t]; [|done|done].
  inversion Hok; subst. by eexists _, _.
Qed.

Lemma chunk_results_length (r : State) (env : Env) (i : nat) (chunk : list Product) :
  chunk_ok r env i chunk → length (chunk_results r env i chunk) = length chunk.
Proof.
  intros Hok. destruct (chunk_ok_reply r env i chunk Hok) as (? & ? & _ & ->).
  apply processedChunk_length.
Qed.

Section rows_of_a_run.
Local Opaque BATCH_SIZE.

(** The results of a run of full chunks, looked up by chunk and place. *)
Lemma run_results_lookup (r : State) (env : Env) (chunks : list (list Product))
    (base k j i : nat) (chunk : list Product) :
  (∀ j' c, j' < k → chunks !! j' = Some c →
     length c = BATCH_SIZE ∧ chunk_ok r env (base + j') c) →
  j < k → chunks !! j = Some chunk → i < length chunk →
  run_results r env base (take k chunks) !! (BATCH_SIZE * j + i)
  = chunk_results r env (base + j) chunk !! i.
Proof.
  revert base k j. induction chunks as [|c chunks IH]; intros base k j Hfull Hj Hchunk Hi.
  { done. }
  destruct k as [|k]; [lia|]. simpl.
  destruct (Hfull 0 c) as [Hlen Hok]; [lia|done|].
  rewrite Nat.add_0_r in Hok.
  destruct j as [|j].
  - simpl in Hchunk. inversion Hchunk; subst c.
    rewrite Nat.mul_0_r, Nat.add_0_l, Nat.add_0_r.
    apply lookup_app_l. by rewrite chunk_results_length.
  - simpl in Hchunk. rewrite lookup_app_r by (rewrite chunk_results_length by done; lia).
    rewrite chunk_results_length by done.
    replace (BATCH_SIZE * S j + i - length c) with (BATCH_SIZE * j + i) by lia.
    replace (base + S j) with (S base + j) by lia.
    apply IH; [|lia|done|done].
    intros j' c' Hj' Hc'. replace (S base + j') with (base + S j') by lia.
    apply Hfull; [lia|done].
Qed.
End rows_of_a_run.

Section quota_rows.
Local Opaque BATCH_SIZE.

(** The rows the successful chunks of a run give, from the responses. *)
Lemma run_results_generated (r : State) (env : Env) (products : list Product)
    (k : nat) (chunk : list Product) :
  productChunks products !! k = Some chunk →
  (∀ j c, j < k → productChunks products !! j = Some c →
     chunk_ok r env j c ∧ stopDuring env j = false) →
  ∀ j c i og,
    j < k → productChunks products !! j = Some c → c !! i = Some og →
    ∃ totalTokens items title description,
      reply env j (batch_request c (customInstructions r))
        = Resolved totalTokens (PArray items)
      ∧ match last (filter (λ item, m_sku item = sku og) items) with
        | Some item =>
            title = (if decide (metaTitle item = "")
                     then "Error: Not Generated" else metaTitle item)
            ∧ description = (if decide (metaDescription item = "")
                             then "Error: Not Generated" else metaDescription item)
        | None =>
            title = "Error: No AI Response"
            ∧ description
              = "The AI did not provide a response for this item in the batch."
        end
      ∧ run_results r env 0 (take k (productChunks products)) !! (BATCH_SIZE * j + i)
        = Some (with_meta title description og)
      ∧ obj_get "Meta Title" (with_meta title description og) = Some title
      ∧ obj_get "Meta Description" (with_meta title description og) = Some description.
Proof.
  intros Hchunk Hok j c i og Hj Hc Hog.
  apply productChunks_lookup in Hchunk as [Hbound _].
  destruct (Hok j c Hj Hc) as [Hokj _].
  destruct (chunk_ok_reply r env j c Hokj) as (totalTokens & items & Hreply & Hres).
  destruct (generated_row_lookup c items i og Hog) as (title & description & Hrow & Htexts).
  exists totalTokens, items, title, description.
  split; [done|]. split; [done|]. split.
  - rewrite (run_results_lookup r env (productChunks products) 0 k j i c).
    + simpl. by rewrite Hres.
    + intros j' c' Hj' Hc'. split; [|by apply Hok].
      apply productChunks_lookup in Hc' as [_ ->].
      rewrite length_take, length_drop.
      assert (BATCH_SIZE * S j' ≤ BATCH_SIZE * k) as Hle
        by (apply Nat.mul_le_mono_l; lia).
      rewrite Nat.mul_succ_r in Hle. lia.
    + done.
    + done.
    + by eapply lookup_lt_Some.
  - split; [apply obj_get_with_meta_title | apply obj_get_with_meta_description].
Qed.
End quota_rows.

(** The fresh run: the table afterwards is exactly the results of the
    successful chunks. *)
Lemma fresh_run_quota
    (r : State) (env : Env) (s : State) (fileName : string)
    (k : nat) (chunk : list Product) (t : Thrown) :
  file r = Some fileName →
  file s = file r →
  originalData s = originalData r →
  processedData r = [] →
  NoDup (sku <$> originalData r) →
  productChunks (originalData r) !! k = Some chunk →
  (∀ j c, j < k → productChunks (originalData r) !! j = Some c →
     chunk_ok r env j c ∧ stopDuring env j = false) →
  reply env k (batch_request chunk (customInstructions r)) = Rejected t →
  isQuotaError t = true →
  let s' := handleGenerate r env s in
  outcome s' = Some QuotaExceeded
  ∧ processedData s' = run_results r env 0 (take k (productChunks (originalData r)))
  ∧ Forall2 (λ row og, ∃ title description, row = with_meta title description og)
      (processedData s') (take (BATCH_SIZE * k) (originalData r))
  ∧ length (processedData s') = BATCH_SIZE * k
  ∧ (∀ j c i og,
       j < k → productChunks (originalData r) !! j = Some c → c !! i = Some og →
       ∃ totalTokens items title description,
         reply env j (batch_request c (customInstructions r))
           = Resolved totalTokens (PArray items)
         ∧ match last (filter (λ item, m_sku item = sku og) items) with
           | Some item =>
               title = (if decide (metaTitle item = "")
                        then "Error: Not Generated" else metaTitle item)
               ∧ description = (if decide (metaDescription item = "")
                                then "Error: Not Generated" else metaDescription item)
           | None =>
               title = "Error: No AI Response"
               ∧ description
                 = "The AI did not provide a response for this item in the batch."
           end
         ∧ processedData s' !! (BATCH_SIZE * j + i) = Some (with_meta title description og)
         ∧ obj_get "Meta Title" (with_meta title description og) = Some title
         ∧ obj_get "Meta Description" (with_meta title description og)
           = Some description)
  ∧ isResumable s' = true
  ∧ localStorage s'
      = Some (SavedSession.mk fileName (originalData r) (processedData s') true)
  ∧ error s'
    = Some ("Daily token limit reached. " +:+ show_nat (BATCH_SIZE * k) +:+ " of "
            +:+ show_nat (length (originalData r))
            +:+ " products were processed. You can download the partial results now or resume later when your quota is reset (midnight UTC).").
Proof.
  intros Hfile Hsame Hrecords Hfresh Hnd Hchunk Hok Hreply Hquota s'. subst s'.
  pose proof (run_results_generated r env (originalData r) k chunk Hchunk Hok) as Hgen.
  assert (originalData r ≠ []) as Hne.
  { intros Hnil. rewrite Hnil in Hchunk. by destruct k. }
  destruct (productChunks_lookup _ _ _ Hchunk) as [Hbound _].
  destruct (batch_quota_error_is_tagged r env chunk k t Hreply Hquota)
    as (message & Hthrew & Htag).
  rewrite handleGenerate_loop by done.
  set (chunks := productChunks (originalData r)) in *.
  set (begin := run_begin r (setProcessedData [] (setIsCancelled false s))).
  assert (follows r env 0 k (EndsThrew message) chunks (isCancelledRef begin)) as Hrun.
  { apply (follows_threw r env chunks 0 k _ chunk message); [done|exact Hok|done|done]. }
  pose proof (run_results_rows r env 0 _ _ _ _ Hrun) as Hrows.
  unfold chunks in Hrows at 2. rewrite productChunks_concat_take in Hrows.
  fold chunks in Hrows.
  pose proof (rows_keys _ _ Hrows) as Hkeys.
  assert (length (run_results r env 0 (take k chunks)) = BATCH_SIZE * k) as Hlen.
  { apply (f_equal length) in Hkeys. rewrite !length_fmap, length_take in Hkeys. lia. }
  destruct (process_chunks_follows r env (length (processedData r)) chunks 0 [] 0 s begin
              k (EndsThrew message) (productChunks_nonempty _) Hrun)
    as (_ & Hout & _ & Hres & Herr & _ & _ & _ & _ & Hexact).
  cbv beta iota zeta delta [outcome_of] in Hout, Hres, Herr, Hexact.
  rewrite Htag in Hout, Hres, Herr.
  rewrite app_nil_l in Herr, Hexact.
  rewrite Hlen in Herr. rewrite Hfresh in Herr at 2. rewrite Nat.add_0_l in Herr.
  assert (processedData
            (process_chunks r env (length (processedData r)) 0 chunks [] 0 s begin)
          = run_results r env 0 (take k chunks)) as Hdata.
  { apply Hexact; [done|done|]. by rewrite Hkeys, Hlen, fmap_take. }
  destruct (process_chunks_stored r env (length (processedData r)) fileName Hfile Hne
              chunks 0 [] 0 s begin) as [Hstored _].
  - apply productChunks_keys_within. intros p Hp. apply list_elem_of_fmap. by exists p.
  - simpl. by rewrite Hsame.
  - done.
  - done.
  - left. by rewrite Hfresh.
  - rewrite Hstored by (rewrite Hout; discriminate).
    rewrite Hdata, Hres. repeat (split; [done|]). done.
Qed.

Lemma merge_keys_sublist (r : State) (acc prev : list Product) :
  sku <$> merge r acc prev `sublist_of` sku <$> originalData r.
Proof.
  unfold merge. induction (originalData r) as [|og rest IH]; [done|].
  simpl. destruct (newDataMap acc prev !! sku og) as [v|] eqn:Hv.
  - apply newDataMap_Some in Hv as [-> _]. rewrite fmap_cons. by apply sublist_skip.
  - by apply sublist_cons.
Qed.

(** The resumed run: the table afterwards holds the rows processed before
    and the results of the successful chunks, and nothing else. *)
Lemma resumed_run_quota (env : Env) (s : State) (fileName : string)
    (k : nat) (chunk : list Product) (t : Thrown) :
  let remaining := filter (λ p, sku p ∉ sku <$> processedData s) (originalData s) in
  file s = Some fileName →
  NoDup (sku <$> originalData s) →
  NoDup (sku <$> processedData s) →
  (∀ p, p ∈ processedData s → sku p ∈ sku <$> originalData s) →
  productChunks remaining !! k = Some chunk →
  (∀ j c, j < k → productChunks remaining !! j = Some c →
     chunk_ok s env j c ∧ stopDuring env j = false) →
  reply env k (batch_request chunk (customInstructions s)) = Rejected t →
  isQuotaError t = true →
  let s' := handleResume s env s in
  let results := run_results s env 0 (take k (productChunks remaining)) in
  outcome s' = Some QuotaExceeded
  ∧ (∀ row, row ∈ processedData s' ↔ row ∈ processedData s ∨ row ∈ results)
  ∧ Forall2 (λ row og, ∃ title description, row = with_meta title description og)
      results (take (BATCH_SIZE * k) remaining)
  ∧ length (processedData s') = length (processedData s) + BATCH_SIZE * k
  ∧ (∀ j c i og,
       j < k → productChunks remaining !! j = Some c → c !! i = Some og →
       ∃ totalTokens items title description,
         reply env j (batch_request c (customInstructions s))
           = Resolved totalTokens (PArray items)
         ∧ match last (filter (λ item, m_sku item = sku og) items) with
           | Some item =>
               title = (if decide (metaTitle item = "")
                        then "Error: Not Generated" else metaTitle item)
               ∧ description = (if decide (metaDescription item = "")
                                then "Error: Not Generated" else metaDescription item)
           | None =>
               title = "Error: No AI Response"
               ∧ description
                 = "The AI did not provide a response for this item in the batch."
           end
         ∧ results !! (BATCH_SIZE * j + i) = Some (with_meta title description og)
         ∧ obj_get "Meta Title" (with_meta title description og) = Some title
         ∧ obj_get "Meta Description" (with_meta title description og)
           = Some description)
  ∧ isResumable s' = true
  ∧ localStorage s'
      = Some (SavedSession.mk fileName (originalData s) (processedData s') true)
  ∧ error s'
    = Some ("Daily token limit reached. "
            +:+ show_nat (length (processedData s) + BATCH_SIZE * k) +:+ " of "
            +:+ show_nat (length (originalData s))
            +:+ " products were processed. You can download the partial results now or resume later when your quota is reset (midnight UTC).").
Proof.
  intros remaining Hfile Hnd Hdone Hwithin Hchunk Hok Hreply Hquota s' results.
  pose proof (run_results_generated s env remaining k chunk Hchunk Hok) as Hgen.
  assert (remaining ≠ []) as Hne.
  { intros Hnil. rewrite Hnil in Hchunk. by destruct k. }
  assert (originalData s ≠ []) as Horig.
  { intros Hnil. apply Hne. unfold remaining. by rewrite Hnil. }
  destruct (productChunks_lookup _ _ _ Hchunk) as [Hbound _].
  destruct (batch_quota_error_is_tagged s env chunk k t Hreply Hquota)
    as (message & Hthrew & Htag).
  unfold s'. rewrite handleResume_loop by done. fold remaining.
  set (chunks := productChunks remaining) in *.
  set (begin := run_begin s (setIsCancelled false s)).
  set (final := process_chunks s env (length (processedData s)) 0 chunks [] 0 s begin).
  assert (follows s env 0 k (EndsThrew message) chunks (isCancelledRef begin)) as Hrun.
  { apply (follows_threw s env chunks 0 k _ chunk message); [done|exact Hok|done|done]. }
  pose proof (run_results_rows s env 0 _ _ _ _ Hrun) as Hrows.
  unfold chunks in Hrows at 2. rewrite productChunks_concat_take in Hrows.
  fold chunks in Hrows. fold results in Hrows.
  pose proof (rows_keys _ _ Hrows) as Hkeys.
  assert (length results = BATCH_SIZE * k) as Hlen.
  { apply (f_equal length) in Hkeys. rewrite !length_fmap, length_take in Hkeys. lia. }
  (* the keys of the results are keys of remaining records *)
  assert (∀ x, x ∈ sku <$> results → x ∈ sku <$> remaining) as Hnewkeys.
  { intros x Hx. rewrite Hkeys, fmap_take in Hx.
    eapply elem_of_sublist; [exact Hx|apply sublist_take]. }
  assert (∀ x, x ∈ sku <$> remaining →
               x ∈ sku <$> originalData s ∧ x ∉ sku <$> processedData s) as Hremaining.
  { intros x Hx. apply list_elem_of_fmap in Hx as (p & -> & Hp).
    unfold remaining in Hp. apply list_elem_of_filter in Hp as [Hp Hin].
    split; [|done]. apply list_elem_of_fmap. by exists p. }
  assert (NoDup (sku <$> results)) as Hndnew.
  { rewrite Hkeys, fmap_take.
    apply (sublist_NoDup _ (sku <$> originalData s)); [done|].
    etrans; [apply sublist_take|]. apply fmap_sublist. apply sublist_filter. }
  destruct (process_chunks_follows s env (length (processedData s)) chunks 0 [] 0 s begin
              k (EndsThrew message) (productChunks_nonempty _) Hrun)
    as (_ & Hout & _ & Hres & Herr & _ & Hzero & Hpos & Hfrom & _).
  fold final in Hout, Hres, Herr, Hzero, Hpos, Hfrom.
  cbv beta iota zeta delta [outcome_of] in Hout, Hres, Herr, Hpos, Hfrom.
  rewrite Htag in Hout, Hres, Herr.
  rewrite app_nil_l in Herr, Hpos, Hfrom. fold chunks in Herr, Hpos, Hfrom.
  fold results in Herr, Hpos, Hfrom. rewrite Hlen in Herr.
  (* which rows the table holds *)
  assert (∀ row, row ∈ processedData final ↔ row ∈ processedData s ∨ row ∈ results)
    as Hrowsiff.
  { intros row. split; [apply Hfrom|]. intros [Hold|Hnew].
    - apply new_Map_keyed_elem. unfold final.
      apply process_chunks_keeps;
        [by apply Hwithin| |apply not_elem_of_nil|by apply new_Map_keyed_NoDup].
      apply Forall_forall. intros c Hc q Hq Hkey.
      assert (sku q ∈ sku <$> remaining) as Hin.
      { apply list_elem_of_fmap. exists q. split; [done|].
        rewrite <- (productChunks_concat remaining).
        by apply (elem_of_concat_chunk _ c). }
      apply Hremaining in Hin as [_ Hin]. apply Hin. rewrite Hkey.
      apply list_elem_of_fmap. by exists row.
    - destruct k as [|k].
      { unfold results in Hnew. rewrite take_0 in Hnew. by apply elem_of_nil in Hnew. }
      destruct Hpos as [prev ->]; [lia|].
      assert (sku row ∈ sku <$> originalData s) as Hkey.
      { apply Hremaining, Hnewkeys. apply list_elem_of_fmap. by exists row. }
      apply list_elem_of_fmap in Hkey as (og & Hkey & Hog).
      apply elem_of_merge. exists og. split; [done|].
      rewrite <- Hkey. by apply newDataMap_NoDup. }
  (* how many *)
  assert (NoDup (sku <$> processedData final)) as Hndfinal.
  { destruct k as [|k].
    - rewrite Hzero by done. done.
    - destruct Hpos as [prev ->]; [lia|].
      apply (sublist_NoDup _ (sku <$> originalData s)); [done|].
      apply merge_keys_sublist. }
  assert (sku <$> processedData final ≡ₚ (sku <$> processedData s) ++ (sku <$> results))
    as Hperm.
  { apply NoDup_Permutation; [done| |].
    - apply NoDup_app. split; [done|]. split; [|done].
      intros x Hold Hnew. by apply Hnewkeys, Hremaining in Hnew as [_ Hnew].
    - intros x. rewrite elem_of_app, !list_elem_of_fmap. split.
      + intros (row & -> & Hrow). apply Hrowsiff in Hrow as [Hrow|Hrow];
          [left|right]; by exists row.
      + intros [(row & -> & Hrow)|(row & -> & Hrow)]; exists row;
          (split; [done|]); apply Hrowsiff; auto. }
  apply Permutation_length in Hperm.
  rewrite length_app, !length_fmap, Hlen in Hperm.
  destruct (process_chunks_stored s env (length (processedData s)) fileName Hfile Horig
              chunks 0 [] 0 s begin) as [Hstored _].
  - apply productChunks_keys_within. intros p Hp.
    apply Hremaining. apply list_elem_of_fmap. by exists p.
  - done.
  - done.
  - done.
  - by left.
  - fold final in Hstored. rewrite Hstored by (rewrite Hout; discriminate).
    rewrite Hres. split; [done|]. split; [apply Hrowsiff|].
    repeat (split; [done|]). done.
Qed.

(** C1: a run over records cut into chunks of 15, under the data model's
    invariant that keys are pairwise distinct.  The fresh run is started by
    the handler of a render [r] that saw the loaded file and no processed
    rows (the only renders that show the button), the resumed run by the
    handler of the current render.  If the calls for chunks 0 to
    k-1 succeed (the stop button left alone) and the call for chunk k fails
    with a quota error, the run settles as quota-exceeded with isResumable
    set, the snapshot of the final state stored with resumable = true, and
    the message 'Daily token limit reached. n of total products were
    processed. ...' with n the number of processed rows.  In a
    fresh run processedData is exactly the results of the k successful
    chunks, 15 k rows: the row at place i of chunk j is record i of that
    chunk with the two generated columns holding the texts of the last item
    of the response to chunk j that carries the record's key ('Error: Not
    Generated' for an empty text), or 'Error: No AI Response' if no item
    carries it.  In a resumed run processedData holds
    the rows processed before and those results of the k successful chunks,
    and nothing else.  For the records p1 .. p17 with a quota error at the
    second call: 15 rows, and the message says 15 of 17. *)
Theorem quota_failure_keeps_partial_results :
  (∀ (r : State) (env : Env) (s : State) (fileName : string)
     (k : nat) (chunk : list Product) (t : Thrown),
     file r = Some fileName →
     file s = file r →
     originalData s = originalData r →
     processedData r = [] →
     NoDup (sku <$> originalData r) →
     productChunks (originalData r) !! k = Some chunk →
     (∀ j c, j < k → productChunks (originalData r) !! j = Some c →
        chunk_ok r env j c ∧ stopDuring env j = false) →
     reply env k (batch_request chunk (customInstructions r)) = Rejected t →
     isQuotaError t = true →
     let s' := handleGenerate r env s in
     outcome s' = Some QuotaExceeded
     ∧ processedData s' = run_results r env 0 (take k (productChunks (originalData r)))
     ∧ Forall2 (λ row og, ∃ title description, row = with_meta title description og)
         (processedData s') (take (BATCH_SIZE * k) (originalData r))
     ∧ length (processedData s') = BATCH_SIZE * k
     ∧ (∀ j c i og,
          j < k → productChunks (originalData r) !! j = Some c → c !! i = Some og →
          ∃ totalTokens items title description,
            reply env j (batch_request c (customInstructions r))
              = Resolved totalTokens (PArray items)
            ∧ match last (filter (λ item, m_sku item = sku og) items) with
              | Some item =>
                  title = (if decide (metaTitle item = "")
                           then "Error: Not Generated" else metaTitle item)
                  ∧ description = (if decide (metaDescription item = "")
                                   then "Error: Not Generated" else metaDescription item)
              | None =>
                  title = "Error: No AI Response"
                  ∧ description
                    = "The AI did not provide a response for this item in the batch."
              end
            ∧ processedData s' !! (BATCH_SIZE * j + i) = Some (with_meta title description og)
            ∧ obj_get "Meta Title" (with_meta title description og) = Some title
            ∧ obj_get "Meta Description" (with_meta title description og)
              = Some description)
     ∧ isResumable s' = true
     ∧ localStorage s'
         = Some (SavedSession.mk fileName (originalData r) (processedData s') true)
     ∧ error s'
       = Some ("Daily token limit reached. " +:+ show_nat (BATCH_SIZE * k) +:+ " of "
               +:+ show_nat (length (originalData r))
               +:+ " products were processed. You can download the partial results now or resume later when your quota is reset (midnight UTC)."))
  ∧ (∀ (env : Env) (s : State) (fileName : string)
       (k : nat) (chunk : list Product) (t : Thrown),
       let remaining :=
         filter (λ p, sku p ∉ sku <$> processedData s) (originalData s) in
       file s = Some fileName →
       NoDup (sku <$> originalData s) →
       NoDup (sku <$> processedData s) →
       (∀ p, p ∈ processedData s → sku p ∈ sku <$> originalData s) →
       productChunks remaining !! k = Some chunk →
       (∀ j c, j < k → productChunks remaining !! j = Some c →
          chunk_ok s env j c ∧ stopDuring env j = false) →
       reply env k (batch_request chunk (customInstructions s)) = Rejected t →
       isQuotaError t = true →
       let s' := handleResume s env s in
       let results := run_results s env 0 (take k (productChunks remaining)) in
       outcome s' = Some QuotaExceeded
       ∧ (∀ row, row ∈ processedData s' ↔ row ∈ processedData s ∨ row ∈ results)
       ∧ Forall2 (λ row og, ∃ title description, row = with_meta title description og)
           results (take (BATCH_SIZE * k) remaining)
       ∧ length (processedData s') = length (processedData s) + BATCH_SIZE * k
       ∧ (∀ j c i og,
            j < k → productChunks remaining !! j = Some c → c !! i = Some og →
            ∃ totalTokens items title description,
              reply env j (batch_request c (customInstructions s))
                = Resolved totalTokens (PArray items)
              ∧ match last (filter (λ item, m_sku item = sku og) items) with
                | Some item =>
                    title = (if decide (metaTitle item = "")
                             then "Error: Not Generated" else metaTitle item)
                    ∧ description = (if decide (metaDescription item = "")
                                     then "Error: Not Generated" else metaDescription item)
                | None =>
                    title = "Error: No AI Response"
                    ∧ description
                      = "The AI did not provide a response for this item in the batch."
                end
              ∧ results !! (BATCH_SIZE * j + i) = Some (with_meta title description og)
              ∧ obj_get "Meta Title" (with_meta title description og) = Some title
              ∧ obj_get "Meta Description" (with_meta title description og)
                = Some description)
       ∧ isResumable s' = true
       ∧ localStorage s'
           = Some (SavedSession.mk fileName (originalData s) (processedData s') true)
       ∧ error s'
         = Some ("Daily token limit reached. "
                 +:+ show_nat (length (processedData s) + BATCH_SIZE * k) +:+ " of "
                 +:+ show_nat (length (originalData s))
                 +:+ " products were processed. You can download the partial results now or resume later when your quota is reset (midnight UTC)."))
  ∧ (let s' := handleGenerate loaded17 quota_at_second loaded17 in
     length (processedData s') = 15
     ∧ processedData s' !! 0
       = Some [("sku", "p1"); ("name", "Product 1");
               ("Meta Title", "Title | Riva Fashion");
               ("Meta Description", "Description.")]
     ∧ error s'
       = Some "Daily token limit reached. 15 of 17 products were processed. You can download the partial results now or resume later when your quota is reset (midnight UTC).").
Proof.
  split; [|split].
  - intros r env s fileName k chunk t. apply fresh_run_quota.
  - intros env s fileName k chunk t. apply resumed_run_quota.
  - vm_compute. done.
Qed.

Lemma quota_failure_keeps_partial_results_witness :
  let s' := handleGenerate loaded17 quota_at_second loaded17 in
  length (processedData s') = 15
  ∧ processedData s' !! 14
    = Some [("sku", "p15"); ("name", "Product 15");
            ("Meta Title", "Title | Riva Fashion"); ("Meta Description", "Description.")]
  ∧ isResumable s' = true
  ∧ (SavedSession.isResumable <$> localStorage s') = Some true
  ∧ error s'
    = Some "Daily token limit reached. 15 of 17 products were processed. You can download the partial results now or resume later when your quota is reset (midnight UTC).".
Proof.
  destruct quota_failure_keeps_partial_results as (Hfresh & _ & _).
  destruct (Hfresh loaded17 quota_at_second loaded17
              "products.csv" 1 (drop 15 records17) quota_error)
    as (_ & _ & _ & Hlen & Hrows & Hres & Hstored & Herr).
  - reflexivity.
  - reflexivity.
  - reflexivity.
  - reflexivity.
  - apply (bool_decide_unpack (NoDup (sku <$> originalData loaded17))).
    vm_compute. exact I.
  - reflexivity.
  - intros j c Hj _. assert (j = 0) as -> by lia. split; [|reflexivity].
    eexists _, _. reflexivity.
  - reflexivity.
  - reflexivity.
  - split; [exact Hlen|]. split.
    { destruct (Hrows 0 (take 15 records17) 14
                  [("sku", "p15"); ("name", "Product 15")])
        as (totalTokens & items & title & description & Hreply & Htexts & Hrow & _);
        [lia|reflexivity|reflexivity|].
      inversion Hreply; subst items. vm_compute in Htexts.
      destruct Htexts as [-> ->]. exact Hrow. }
    split; [exact Hres|]. split; [by rewrite Hstored|exact Herr].
Defined.

(** * Further properties of the code *)

(** ** Every run *)

(** Whatever the service and the user do, the loop follows some script. *)
Lemma follows_exists (r : State) (env : Env) (chunks : list (list Product)) (i : nat)
    (flag : bool) :
  ∃ k e, follows r env i k e chunks flag.
Proof.
  revert i flag. induction chunks as [|chunk rest IH]; intros i flag.
  - by exists 0, EndsComplete.
  - destruct flag.
    + exists 0, EndsStopped. simpl. by left.
    + destruct (generateMetaContentForBatch chunk (customInstructions r) (reply env i))
        as [[metas tokens]|message] eqn:Hcall.
      * destruct (IH (S i) (stopDuring env i)) as (k & e & Hrun).
        exists (S k), e. simpl. split; [done|]. split; [|done]. by exists metas, tokens.
      * exists 0, (EndsThrew message). simpl. right. by exists message.
Qed.

Lemma follows_complete_all (r : State) (env : Env) chunks i k flag :
  follows r env i k EndsComplete chunks flag → k = length chunks.
Proof.
  revert i k flag. induction chunks as [|chunk rest IH]; intros i k flag Hrun.
  - by destruct k.
  - destruct k as [|k]; simpl in Hrun.
    + destruct Hrun as [[? _]|(message & ? & _)]; done.
    + destruct Hrun as (_ & _ & Hrun). simpl. f_equal. by eapply IH.
Qed.

Lemma outcome_of_Completed (e : Ending) : outcome_of e = Completed → e = EndsComplete.
Proof. destruct e as [| |message]; simpl; [done|done|]. by case_match. Qed.

(** The run leaves the records and the file as they are. *)
Lemma process_chunks_frame (r : State) (env : Env) (ipc : nat) chunks i acc tok shown s :
  let final := process_chunks r env ipc i chunks acc tok shown s in
  originalData final = originalData s ∧ file final = file s.
Proof.
  revert chunks i acc tok shown s.
  apply (process_chunks_rule r env ipc
           (λ i chunks acc tok shown s final,
              originalData final = originalData s ∧ file final = file s)).
  - intros i acc tok shown s. autorewrite with run_fields.
    by destruct (run_end_fields r false tok s) as (_ & _ & _ & -> & -> & _).
  - intros i chunk rest acc tok shown s _. autorewrite with run_fields.
    by destruct (run_end_fields r true tok s) as (_ & _ & _ & -> & -> & _).
  - intros i rest acc tok shown s final _ IH. exact IH.
  - intros i chunk rest acc tok shown s metas tokens final _ _ _ [-> ->].
    by autorewrite with run_fields.
  - intros i chunk rest acc tok shown s message _ _ _. autorewrite with run_fields.
    destruct (run_catch_fields r ipc acc message (received r env i chunk shown s))
      as (_ & _ & _ & -> & -> & _).
    by autorewrite with run_fields.
Qed.

(** X1: every run settles.  Whatever the service answers and whenever the
    stop button is pressed, [runGenerationProcess] ends with the loading flag
    cleared and with one of the four outcomes; isResumable is set exactly when
    the outcome is stopped or quota-exceeded, and an error is shown exactly
    when it is quota-exceeded or failed. *)
Theorem every_run_settles (r : State) (env : Env) (products : list Product)
    (shown s : State) :
  let s' := runGenerationProcess r env products shown s in
  isLoading s' = false
  ∧ ∃ o, outcome s' = Some o
      ∧ isResumable s' = resumable o
      ∧ (error s' = None ↔ o = Completed ∨ o = Stopped).
Proof.
  intros s'. subst s'. destruct (decide (products = [])) as [->|Hne].
  - unfold runGenerationProcess. simpl. autorewrite with commit_fields. simpl.
    split; [done|]. exists Completed. split; [done|]. split; [done|]. split; auto.
  - rewrite runGenerationProcess_loop by done.
    destruct (follows_exists r env (productChunks products) 0
                (isCancelledRef (run_begin r s))) as (k & e & Hrun).
    destruct (process_chunks_follows r env (length (processedData r))
                (productChunks products) 0 [] 0 shown (run_begin r s) k e
                (productChunks_nonempty _) Hrun)
      as (_ & Hout & Hload & Hres & Herr & _).
    split; [done|]. exists (outcome_of e). split; [done|].
    rewrite Hres, Herr. destruct e as [| |message]; simpl.
    + split; [done|]. split; auto.
    + split; [done|]. split; auto.
    + destruct (includes QUOTA_TAG message); simpl.
      * split; [done|]. split; [done|]. intros [?|?]; done.
      * split; [done|]. split; [done|]. intros [?|?]; done.
Qed.

(** X2: the table after a fresh run over a non-empty originalData, however
    the run went.  The keys of processedData are keys of originalData, in the
    order of originalData (so pairwise distinct when those are, and no more
    numerous), and every row is a record of originalData with the two
    generated columns written. *)
Theorem table_rows_come_from_the_records (r : State) (env : Env) (s : State) :
  let s' := handleGenerate r env s in
  originalData r ≠ [] →
  sku <$> processedData s' `sublist_of` sku <$> originalData r
  ∧ (NoDup (sku <$> originalData r) → NoDup (sku <$> processedData s'))
  ∧ (∀ row, row ∈ processedData s' →
       ∃ og title description,
         og ∈ originalData r ∧ row = with_meta title description og)
  ∧ length (processedData s') ≤ length (originalData r).
Proof.
  intros s' Hne. subst s'. rewrite handleGenerate_loop by done.
  set (chunks := productChunks (originalData r)).
  set (begin := run_begin r (setProcessedData [] (setIsCancelled false s))).
  set (final := process_chunks r env (length (processedData r)) 0 chunks [] 0 s begin).
  destruct (follows_exists r env chunks 0 (isCancelledRef begin)) as (k & e & Hrun).
  destruct (process_chunks_follows r env (length (processedData r)) chunks 0 [] 0 s begin
              k e (productChunks_nonempty _) Hrun)
    as (_ & _ & _ & _ & _ & _ & Hzero & Hpos & Hfrom & _).
  fold final in Hzero, Hpos, Hfrom.
  assert (sku <$> processedData final `sublist_of` sku <$> originalData r) as Hsub.
  { destruct k as [|k].
    - rewrite Hzero by done. simpl. apply sublist_nil_l.
    - destruct Hpos as [prev ->]; [lia|]. apply merge_keys_sublist. }
  split; [done|]. split.
  { intros Hnd. by apply (sublist_NoDup _ (sku <$> originalData r)). }
  split.
  - intros row Hrow. apply Hfrom in Hrow as [Hrow|Hrow].
    { by apply elem_of_nil in Hrow. }
    rewrite app_nil_l in Hrow.
    pose proof (run_results_rows r env 0 _ _ _ _ Hrun) as Hrows.
    apply list_elem_of_lookup in Hrow as [i Hi].
    destruct (Forall2_lookup_l _ _ _ _ _ Hrows Hi) as (og & Hog & t & d & ->).
    exists og, t, d. split; [|done].
    apply list_elem_of_lookup_2 in Hog.
    unfold chunks in Hog. rewrite productChunks_concat_take in Hog.
    eapply elem_of_sublist; [exact Hog|apply sublist_take].
  - apply sublist_length in Hsub. by rewrite !length_fmap in Hsub.
Qed.

Lemma table_rows_come_from_the_records_witness :
  let s' := handleGenerate loaded17 failure_at_second loaded17 in
  sku <$> processedData s' `sublist_of` sku <$> records17
  ∧ length (processedData s') ≤ 17.
Proof.
  destruct (table_rows_come_from_the_records loaded17 failure_at_second loaded17)
    as (Hsub & _ & _ & Hlen).
  - discriminate.
  - split; [exact Hsub | exact Hlen].
Defined.

(** ** A run that fails *)

(** X3: a fresh run whose first k calls succeed and whose call for chunk k
    fails with an error that does not carry the quota tag settles as failed
    and shows the error's message.  The results of the k successful chunks
    stay in the table, but isResumable is not set: the Resume button is not
    offered, the Generate button is offered only when nothing was merged
    (k = 0), and the download is offered only when something was. *)
Theorem failed_run_keeps_results_without_resume
    (r : State) (env : Env) (s : State) (k : nat) (chunk : list Product)
    (message : string) :
  originalData s = originalData r →
  NoDup (sku <$> originalData r) →
  productChunks (originalData r) !! k = Some chunk →
  (∀ j c, j < k → productChunks (originalData r) !! j = Some c →
     chunk_ok r env j c ∧ stopDuring env j = false) →
  generateMetaContentForBatch chunk (customInstructions r) (reply env k) = Threw message →
  includes QUOTA_TAG message = false →
  let s' := handleGenerate r env s in
  outcome s' = Some Failed
  ∧ error s' = Some message
  ∧ processedData s' = run_results r env 0 (take k (productChunks (originalData r)))
  ∧ length (processedData s') = BATCH_SIZE * k
  ∧ isResumable s' = false
  ∧ canResume s' = false
  ∧ canGenerate s' = bool_decide (k = 0)
  ∧ canDownload s' = bool_decide (0 < k).
Proof.
  intros Hrecords Hnd Hchunk Hok Hthrew Htag s'. subst s'.
  assert (originalData r ≠ []) as Hne.
  { intros Hnil. rewrite Hnil in Hchunk. by destruct k. }
  destruct (productChunks_lookup _ _ _ Hchunk) as [Hbound _].
  rewrite handleGenerate_loop by done.
  set (chunks := productChunks (originalData r)) in *.
  set (begin := run_begin r (setProcessedData [] (setIsCancelled false s))).
  set (final := process_chunks r env (length (processedData r)) 0 chunks [] 0 s begin).
  assert (follows r env 0 k (EndsThrew message) chunks (isCancelledRef begin)) as Hrun.
  { apply (follows_threw r env chunks 0 k _ chunk message); [done|exact Hok|done|done]. }
  pose proof (run_results_rows r env 0 _ _ _ _ Hrun) as Hrows.
  unfold chunks in Hrows at 2. rewrite productChunks_concat_take in Hrows.
  fold chunks in Hrows.
  pose proof (rows_keys _ _ Hrows) as Hkeys.
  assert (length (run_results r env 0 (take k chunks)) = BATCH_SIZE * k) as Hlen.
  { apply (f_equal length) in Hkeys. rewrite !length_fmap, length_take in Hkeys. lia. }
  destruct (process_chunks_follows r env (length (processedData r)) chunks 0 [] 0 s begin
              k (EndsThrew message) (productChunks_nonempty _) Hrun)
    as (_ & Hout & Hload & Hres & Herr & _ & _ & _ & _ & Hexact).
  fold final in Hout, Hload, Hres, Herr, Hexact.
  cbv beta iota zeta delta [outcome_of] in Hout, Hres, Herr, Hexact.
  rewrite Htag in Hout, Hres, Herr. rewrite app_nil_l in Hexact.
  assert (processedData final = run_results r env 0 (take k chunks)) as Hdata.
  { apply Hexact; [done|done|]. by rewrite Hkeys, Hlen, fmap_take. }
  destruct (process_chunks_frame r env (length (processedData r)) chunks 0 [] 0 s begin)
    as [Horig _].
  fold final in Horig. change (originalData begin) with (originalData s) in Horig.
  assert (length (originalData final) ≠ 0) as Hsome.
  { rewrite Horig, Hrecords. by destruct (originalData r). }
  assert (length (processedData final) = BATCH_SIZE * k) as Hcount by by rewrite Hdata.
  assert (0 < BATCH_SIZE) as Hpos by apply BATCH_SIZE_pos.
  split; [done|]. split; [done|]. split; [done|]. split; [done|].
  split; [done|].
  assert ((0 <? length (processedData final)) = bool_decide (0 < k)) as Hshown.
  { rewrite Hcount. case_bool_decide as Hk.
    - apply Nat.ltb_lt. nia.
    - apply Nat.ltb_ge. nia. }
  assert ((0 <? length (originalData final)) = true) as Hrecs by (apply Nat.ltb_lt; lia).
  assert ((length (originalData final) =? 0) = false) as Hrecs' by by apply Nat.eqb_neq.
  unfold canResume, canGenerate, canDownload, step2, step3.
  rewrite Hres, Hload, Hshown, Hrecs, Hrecs'.
  change (isResumable begin) with false.
  destruct k as [|k].
  - rewrite bool_decide_false by lia. by rewrite bool_decide_true by done.
  - rewrite bool_decide_true by lia. by rewrite bool_decide_false by done.
Qed.

Lemma failed_run_keeps_results_without_resume_witness :
  let s' := handleGenerate loaded17 failure_at_second loaded17 in
  outcome s' = Some Failed
  ∧ length (processedData s') = 15
  ∧ canResume s' = false
  ∧ canGenerate s' = false
  ∧ canDownload s' = true.
Proof.
  destruct (failed_run_keeps_results_without_resume loaded17 failure_at_second loaded17 1
              (drop 15 records17)
              "Failed to generate meta content for a batch of products. network down")
    as (Hout & _ & _ & Hlen & _ & Hresume & Hgenerate & Hdownload).
  - reflexivity.
  - apply (bool_decide_unpack (NoDup (sku <$> originalData loaded17))).
    vm_compute. exact I.
  - reflexivity.
  - intros j c Hj _. assert (j = 0) as -> by lia. split; [|reflexivity].
    eexists _, _. reflexivity.
  - reflexivity.
  - reflexivity.
  - split; [exact Hout|]. split; [exact Hlen|]. split; [exact Hresume|].
    split; [exact Hgenerate | exact Hdownload].
Defined.

(** X4: what the render offers after a fresh run over a non-empty
    originalData, for every behaviour of the service and the user.  The stop
    button is gone and the upload is enabled again; Resume is offered exactly
    after the outcomes stopped and quota-exceeded; Generate is offered again
    exactly after a failure that left the table empty; after completion the
    download is offered. *)
Theorem offers_after_a_fresh_run (r : State) (env : Env) (s : State) :
  originalData s = originalData r →
  originalData r ≠ [] →
  let s' := handleGenerate r env s in
  canStop s' = false
  ∧ canUpload s' = true
  ∧ ∃ o, outcome s' = Some o
      ∧ canResume s' = resumable o
      ∧ (canGenerate s' = true ↔ o = Failed ∧ processedData s' = [])
      ∧ (o = Completed → canDownload s' = true).
Proof.
  intros Hrecords Hne s'. subst s'. rewrite handleGenerate_loop by done.
  set (chunks := productChunks (originalData r)).
  set (begin := run_begin r (setProcessedData [] (setIsCancelled false s))).
  set (final := process_chunks r env (length (processedData r)) 0 chunks [] 0 s begin).
  destruct (follows_exists r env chunks 0 (isCancelledRef begin)) as (k & e & Hrun).
  destruct (process_chunks_follows r env (length (processedData r)) chunks 0 [] 0 s begin
              k e (productChunks_nonempty _) Hrun)
    as (_ & Hout & Hload & Hres & _ & _ & _ & Hpos & _).
  fold final in Hout, Hload, Hres, Hpos.
  destruct (process_chunks_frame r env (length (processedData r)) chunks 0 [] 0 s begin)
    as [Horig _].
  fold final in Horig. change (originalData begin) with (originalData s) in Horig.
  assert ((0 <? length (originalData final)) = true) as Hrecs.
  { rewrite Horig, Hrecords. by destruct (originalData r). }
  assert ((length (originalData final) =? 0) = false) as Hrecs'.
  { rewrite Horig, Hrecords. by destruct (originalData r). }
  assert (isResumable final = resumable (outcome_of e)) as Hres'.
  { rewrite Hres. by destruct (outcome_of e). }
  assert (outcome_of e = Completed → processedData final ≠ []) as Hfull.
  { intros He. apply outcome_of_Completed in He. subst e.
    pose proof (follows_complete_all _ _ _ _ _ _ Hrun) as ->.
    pose proof (run_results_rows r env 0 _ _ _ _ Hrun) as Hrows.
    rewrite take_ge in Hrows by done.
    unfold chunks in Hrows at 2. rewrite productChunks_concat in Hrows.
    pose proof (rows_keys _ _ Hrows) as Hkeys.
    rewrite take_ge in Hpos by done. simpl in Hpos.
    destruct Hpos as [prev Hdata]; [by apply productChunks_length_pos|].
    intros Hnil. rewrite Hnil in Hdata. symmetry in Hdata.
    assert (sku <$> merge r (run_results r env 0 chunks) prev = sku <$> originalData r)
      as Hmerged.
    { apply merge_keys_full. intros og Hog. rewrite Hkeys.
      apply list_elem_of_fmap. by exists og. }
    rewrite Hdata in Hmerged. by destruct (originalData r). }
  unfold canStop, canUpload, canResume, canGenerate, canDownload, step2, step3.
  rewrite Hload, Hrecs, Hrecs', Hres'.
  split; [done|]. split; [done|]. exists (outcome_of e). split; [done|].
  destruct (processedData final) as [|row rows] eqn:Hdata; simpl.
  - destruct (outcome_of e) eqn:He; simpl.
    + by destruct Hfull.
    + split; [done|]. split; [|done]. split; [done|]. by intros [? _].
    + split; [done|]. split; [|done]. split; [done|]. by intros [? _].
    + split; [done|]. split; [|done]. done.
  - destruct (outcome_of e) eqn:He; simpl;
      (split; [done|]); (split; [|done]); (split; [done|]); by intros [_ ?].
Qed.

Lemma offers_after_a_fresh_run_witness :
  let s' := handleGenerate loaded17 quota_at_second loaded17 in
  canStop s' = false ∧ canUpload s' = true ∧ canResume s' = true.
Proof.
  destruct (offers_after_a_fresh_run loaded17 quota_at_second loaded17)
    as (Hstop & Hupload & o & Hout & Hresume & _).
  - reflexivity.
  - discriminate.
  - split; [exact Hstop|]. split; [exact Hupload|].
    assert (o = QuotaExceeded) as Ho.
    { vm_compute in Hout. by inversion Hout. }
    subst o. exact Hresume.
Defined.

(** ** The calls of a run *)

Section chunk_sizes.
Context {A : Type}.
Implicit Types (l : list A).
Local Opaque BATCH_SIZE.

(** A chunk holds 15 records, or what is left of the list if that is less,
    and at least one. *)
Lemma productChunks_chunk_length l k chunk :
  productChunks l !! k = Some chunk →
  length chunk = BATCH_SIZE `min` (length l - BATCH_SIZE * k) ∧ 0 < length chunk.
Proof.
  intros Hk. apply productChunks_lookup in Hk as [Hlt ->].
  rewrite length_take, length_drop. pose proof BATCH_SIZE_pos. lia.
Qed.

(** There are as many chunks as it takes to cover the list by fifteens. *)
Lemma productChunks_count l :
  length l ≤ BATCH_SIZE * length (productChunks l)
  ∧ BATCH_SIZE * length (productChunks l) < length l + BATCH_SIZE.
Proof.
  pose proof BATCH_SIZE_pos as Hpos. split.
  - pose proof (productChunks_concat_take l (length (productChunks l))) as Hall.
    rewrite take_ge, productChunks_concat in Hall by done.
    apply (f_equal length) in Hall. rewrite length_take in Hall. lia.
  - destruct (length (productChunks l)) as [|n] eqn:Hn; [lia|].
    destruct (lookup_lt_is_Some_2 (productChunks l) n) as [chunk Hchunk]; [lia|].
    apply productChunks_lookup in Hchunk as [Hlt _]. lia.
Qed.
End chunk_sizes.

Lemma request_rows_batch (chunk : list Product) (instructions : string) :
  length (request_rows (batch_request chunk instructions)) = length chunk.
Proof. simpl. by rewrite length_fmap. Qed.

(** X5: the requests of a fresh run, for every behaviour of the service and
    the user.  The run only appends requests to those made before; it makes at
    most n/15 of them, rounded up, for n records; each carries at least 1 and
    at most 15 rows; and a run that completes has made exactly that many. *)
Theorem run_requests_are_bounded (r : State) (env : Env) (s : State) :
  let n := length (originalData r) in
  let s' := handleGenerate r env s in
  let sent := drop (length (calls s)) (calls s') in
  calls s' = calls s ++ sent
  ∧ BATCH_SIZE * length sent < n + BATCH_SIZE
  ∧ (∀ q, q ∈ sent → 0 < length (request_rows q) ≤ BATCH_SIZE)
  ∧ (outcome s' = Some Completed → n ≤ BATCH_SIZE * length sent).
Proof.
  intros n s' sent. pose proof BATCH_SIZE_pos as Hpos.
  destruct (decide (originalData r = [])) as [Hnil|Hne].
  - assert (calls s' = calls s) as Hcalls.
    { unfold s', handleGenerate. rewrite Hnil. simpl. by autorewrite with commit_fields. }
    assert (sent = []) as ->.
    { unfold sent. rewrite Hcalls. by rewrite drop_all. }
    rewrite app_nil_r. split; [done|]. split; [simpl; lia|].
    split; [intros q Hq; by apply elem_of_nil in Hq|].
    intros _. unfold n. rewrite Hnil. simpl. lia.
  - set (chunks := productChunks (originalData r)).
    set (begin := run_begin r (setProcessedData [] (setIsCancelled false s))).
    destruct (follows_exists r env chunks 0 (isCancelledRef begin)) as (k & e & Hrun).
    destruct (process_chunks_follows r env (length (processedData r)) chunks 0 [] 0 s begin
                k e (productChunks_nonempty _) Hrun) as (Hcalls & Hout & _).
    change (calls begin) with (calls s) in Hcalls.
    unfold chunks in Hcalls, Hout. rewrite <- handleGenerate_loop in Hcalls, Hout by done.
    fold s' in Hcalls, Hout. fold chunks in Hcalls.
    assert (sent = (λ chunk, batch_request chunk (customInstructions r))
                     <$> take (k + sent_at_end e) chunks) as Hsent.
    { unfold sent. rewrite Hcalls. by rewrite drop_app_length. }
    split; [by rewrite Hsent|].
    pose proof (productChunks_count (originalData r)) as [Hlow Hhigh].
    fold chunks in Hlow, Hhigh. fold n in Hlow, Hhigh.
    assert (length sent ≤ length chunks) as Hfew.
    { rewrite Hsent, length_fmap, length_take. lia. }
    split; [nia|]. split.
    + intros q Hq. rewrite Hsent in Hq.
      apply list_elem_of_fmap in Hq as (chunk & -> & Hchunk).
      rewrite request_rows_batch.
      apply elem_of_take in Hchunk as (j & Hj & _).
      apply productChunks_chunk_length in Hj as [Hlen Hsome]. lia.
    + intros Hdone. rewrite Hout in Hdone. inversion Hdone as [He].
      apply outcome_of_Completed in He. subst e.
      apply follows_complete_all in Hrun. subst k.
      rewrite Hsent, length_fmap, length_take. cbn [sent_at_end]. lia.
Qed.

Lemma process_chunks_tokens (r : State) (env : Env) (ipc : nat) chunks i acc tok shown s :
  Forall (λ chunk, chunk ≠ []) chunks →
  let final := process_chunks r env ipc i chunks acc tok shown s in
  outcome final = Some Completed →
  progressMessage final
  = Some (GenerationComplete (length (originalData r)) (tok + run_tokens r env i chunks)).
Proof.
  revert chunks i acc tok shown s.
  apply (process_chunks_rule r env ipc
           (λ i chunks acc tok shown s final,
              Forall (λ chunk, chunk ≠ []) chunks →
              outcome final = Some Completed →
              progressMessage final
              = Some (GenerationComplete (length (originalData r))
                        (tok + run_tokens r env i chunks)))).
  - intros i acc tok shown s _ _. autorewrite with commit_fields.
    destruct (run_end_fields r false tok s) as (_ & _ & _ & _ & _ & _ & _ & -> & _).
    simpl. by rewrite Nat.add_0_r.
  - intros i chunk rest acc tok shown s _ _ Hout. autorewrite with commit_fields in Hout.
    by destruct (run_end_fields r true tok s) as (_ & _ & _ & _ & _ & _ & Hout' & _);
      rewrite Hout' in Hout.
  - intros i rest acc tok shown s final _ _ Hne. by apply Forall_cons in Hne as [? _].
  - intros i chunk rest acc tok shown s metas tokens final _ _ Hcall IH Hne Hout.
    apply Forall_cons in Hne as [_ Hne]. rewrite IH by done.
    simpl. unfold chunk_tokens. rewrite Hcall. do 2 f_equal. lia.
  - intros i chunk rest acc tok shown s message _ _ _ _ Hout.
    autorewrite with commit_fields in Hout.
    destruct (run_catch_fields r ipc acc message (received r env i chunk shown s))
      as (_ & _ & _ & _ & _ & _ & Hout' & _).
    rewrite Hout' in Hout. by case_match.
Qed.

(** X6: the token count in the completion message.  When a run over a
    non-empty job completes, the message gives the number of records of
    originalData and the sum of the token counts the service reported for the
    chunks of this run (a resumed run counts its own chunks only). *)
Theorem completed_run_reports_its_tokens
    (r : State) (env : Env) (products : list Product) (shown s : State) :
  products ≠ [] →
  let s' := runGenerationProcess r env products shown s in
  outcome s' = Some Completed →
  progressMessage s'
  = Some (GenerationComplete (length (originalData r))
            (run_tokens r env 0 (productChunks products))).
Proof.
  intros Hne s' Hout. subst s'. rewrite runGenerationProcess_loop in * by done.
  by rewrite process_chunks_tokens by (done || apply productChunks_nonempty).
Qed.

Lemma completed_run_reports_its_tokens_witness :
  progressMessage (runGenerationProcess loaded17 always_ok records17 loaded17 loaded17)
  = Some (GenerationComplete 17 200).
Proof.
  apply (completed_run_reports_its_tokens loaded17 always_ok records17 loaded17 loaded17).
  - discriminate.
  - reflexivity.
Defined.

(** ** Stopping during the last call *)

(** The run never clears the cancellation flag, and a click during the last
    call of a run of successful calls leaves it set. *)
Lemma process_chunks_flag (r : State) (env : Env) (ipc : nat) chunks i acc tok shown s :
  let final := process_chunks r env ipc i chunks acc tok shown s in
  (isCancelledRef s = true → isCancelledRef final = true)
  ∧ (chunks ≠ [] →
     (∀ j c, chunks !! j = Some c → chunk_ok r env (i + j) c) →
     stopDuring env (i + length chunks - 1) = true →
     Forall (λ chunk, chunk ≠ []) chunks →
     isCancelledRef final = true).
Proof.
  revert chunks i acc tok shown s.
  apply (process_chunks_rule r env ipc
           (λ i chunks acc tok shown s final,
              (isCancelledRef s = true → isCancelledRef final = true)
              ∧ (chunks ≠ [] →
                 (∀ j c, chunks !! j = Some c → chunk_ok r env (i + j) c) →
                 stopDuring env (i + length chunks - 1) = true →
                 Forall (λ chunk, chunk ≠ []) chunks →
                 isCancelledRef final = true))).
  - intros i acc tok shown s. autorewrite with commit_fields.
    unfold run_end, saveCurrentStateToSession. split; [|done].
    intros Hset. repeat case_match; done.
  - intros i chunk rest acc tok shown s Hset. autorewrite with commit_fields.
    unfold run_end, saveCurrentStateToSession. split; intros; repeat case_match; done.
  - intros i rest acc tok shown s final Hclear _. split; [congruence|].
    intros _ _ _ Hne. by apply Forall_cons in Hne as [? _].
  - intros i chunk rest acc tok shown s metas tokens final Hclear _ _ [IHset IHlast].
    split; [congruence|]. intros _ Hok Hstop Hne.
    apply Forall_cons in Hne as [_ Hne].
    destruct rest as [|next rest].
    + apply IHset. autorewrite with run_fields. simpl in Hstop.
      replace (i + 1 - 1) with i in Hstop by lia. by rewrite Hstop.
    + apply IHlast; [done| | |done].
      * intros j c Hj. specialize (Hok (S j) c Hj).
        by replace (i + S j) with (S i + j) in Hok by lia.
      * simpl in Hstop |- *.
        by replace (i + S (S (length rest)) - 1) with (S i + S (length rest) - 1)
          in Hstop by lia.
  - intros i chunk rest acc tok shown s message Hclear _ Hthrew. split; [congruence|].
    intros _ Hok _ _. destruct (Hok 0 chunk eq_refl) as (metas & tokens & Hcall).
    rewrite Nat.add_0_r in Hcall. congruence.
Qed.

(** X7: the flag is read before a chunk is sent and nowhere else, so a click
    on the stop button while the last call is in flight comes too late.  In a
    fresh run whose calls all succeed, with the button pressed during the last
    call and not before, the flag ends up set and yet the run settles as
    completed, not resumable, with every key of originalData in the table. *)
Theorem stop_during_the_last_call_is_ignored (r : State) (env : Env) (s : State) :
  let chunks := productChunks (originalData r) in
  originalData r ≠ [] →
  (∀ j chunk, chunks !! j = Some chunk → chunk_ok r env j chunk) →
  (∀ j, S j < length chunks → stopDuring env j = false) →
  stopDuring env (length chunks - 1) = true →
  let s' := handleGenerate r env s in
  isCancelledRef s' = true
  ∧ outcome s' = Some Completed
  ∧ isResumable s' = false
  ∧ sku <$> processedData s' = sku <$> originalData r.
Proof.
  intros chunks Hne Hok Hquiet Hstop s'. subst s'. rewrite handleGenerate_loop by done.
  fold chunks.
  set (begin := run_begin r (setProcessedData [] (setIsCancelled false s))).
  assert (follows r env 0 (length chunks) EndsComplete chunks (isCancelledRef begin))
    as Hrun by (apply follows_complete; [done | exact Hok | exact Hquiet]).
  pose proof (run_results_rows r env 0 _ _ _ _ Hrun) as Hrows.
  rewrite take_ge in Hrows by done.
  unfold chunks in Hrows at 2. rewrite productChunks_concat in Hrows. fold chunks in Hrows.
  pose proof (rows_keys _ _ Hrows) as Hkeys.
  destruct (process_chunks_follows r env (length (processedData r)) chunks 0 [] 0 s begin
              (length chunks) EndsComplete (productChunks_nonempty _) Hrun)
    as (_ & Hout & _ & Hres & _ & _ & _ & Hpos & _).
  rewrite take_ge in Hpos by done. simpl in Hpos.
  destruct Hpos as [prev Hdata]; [by apply productChunks_length_pos|].
  destruct (process_chunks_flag r env (length (processedData r)) chunks 0 [] 0 s begin)
    as [_ Hflag].
  split.
  { apply Hflag; [|done|done|apply productChunks_nonempty].
    intros Hnil. pose proof (productChunks_length_pos _ Hne) as Hlen.
    fold chunks in Hlen. rewrite Hnil in Hlen. simpl in Hlen. lia. }
  split; [done|]. split; [done|].
  rewrite Hdata. apply merge_keys_full. intros og Hog. rewrite Hkeys.
  apply list_elem_of_fmap. by exists og.
Qed.

Lemma stop_during_the_last_call_is_ignored_witness :
  let s' := handleGenerate loaded17 stop_during_second loaded17 in
  isCancelledRef s' = true ∧ outcome s' = Some Completed ∧ isResumable s' = false.
Proof.
  destruct (stop_during_the_last_call_is_ignored loaded17 stop_during_second loaded17)
    as (Hflag & Hout & Hres & _).
  - discriminate.
  - intros j chunk _. eexists _, _. reflexivity.
  - intros j Hj. assert (j = 0) as -> by (vm_compute in Hj; lia). reflexivity.
  - reflexivity.
  - split; [exact Hflag|]. split; [exact Hout | exact Hres].
Defined.

(** ** A click on Stop outside a run *)

(** A render depends on the previous one through the dependencies of the
    effect only. *)
Lemma commit_same_deps (shown shown' s : State) :
  processedRef shown = processedRef shown' →
  isResumable shown = isResumable shown' →
  commit shown s = commit shown' s.
Proof. intros Href Hres. unfold commit. by rewrite Href, Hres. Qed.

Lemma process_chunks_same_deps (r : State) (env : Env) (ipc : nat) chunks i acc tok
    (shown shown' s : State) :
  processedRef shown = processedRef shown' →
  isResumable shown = isResumable shown' →
  process_chunks r env ipc i chunks acc tok shown s
  = process_chunks r env ipc i chunks acc tok shown' s.
Proof.
  revert i. induction chunks as [|chunk rest IH]; intros i Href Hres; simpl.
  - by apply commit_same_deps.
  - destruct (isCancelledRef s); [by apply commit_same_deps|].
    destruct (length chunk =? 0); [by apply IH|].
    unfold dispatch. by rewrite (commit_same_deps shown shown').
Qed.

Lemma runGenerationProcess_same_deps (r : State) (env : Env) (products : list Product)
    (shown shown' s : State) :
  processedRef shown = processedRef shown' →
  isResumable shown = isResumable shown' →
  runGenerationProcess r env products shown s
  = runGenerationProcess r env products shown' s.
Proof.
  intros Href Hres. unfold runGenerationProcess.
  destruct (length products =? 0).
  - by apply commit_same_deps.
  - by apply process_chunks_same_deps.
Qed.

(** X8: both handlers that start a run clear the cancellation flag first,
    so a click on the stop button made while no run was in progress, which
    leaves the flag set, changes nothing about the next run: the run started
    afterwards ends in the very state it would have ended in without the
    click. *)
Theorem a_stale_stop_does_not_cancel_the_next_run (r : State) (env : Env) (s : State) :
  isCancelledRef (handleStop s) = true
  ∧ (originalData r ≠ [] → handleGenerate r env (handleStop s) = handleGenerate r env s)
  ∧ handleResume r env (handleStop s) = handleResume r env s.
Proof.
  split; [done|]. split.
  - intros Hne. unfold handleGenerate. destruct (originalData r) as [|p ps]; [done|].
    simpl (length _ =? 0). cbv iota.
    by rewrite (runGenerationProcess_same_deps r env _ (handleStop s) s).
  - unfold handleResume.
    by rewrite (runGenerationProcess_same_deps r env _ (handleStop s) s).
Qed.

(** ** A resumed run that completes *)

Lemma sublist_full {A : Type} (l1 l2 : list A) :
  l1 `sublist_of` l2 → length l2 ≤ length l1 → l1 = l2.
Proof.
  induction 1 as [|x l1 l2 Hsub IH|x l1 l2 Hsub IH]; intros Hlen; [done| |].
  - simpl in Hlen. f_equal. apply IH. lia.
  - apply sublist_length in Hsub. simpl in Hlen. lia.
Qed.

(** A list without repetitions that is found in order inside another one and
    has all its elements is that list. *)
Lemma sublist_all {A : Type} (l1 l2 : list A) :
  l1 `sublist_of` l2 → NoDup l2 → (∀ x, x ∈ l2 → x ∈ l1) → l1 = l2.
Proof.
  intros Hsub Hnd Hall. apply sublist_full; [done|].
  apply submseteq_length, NoDup_submseteq; [done|]. exact Hall.
Qed.

(** X9: resume finishes the job.  With pairwise distinct keys, a table whose
    keys are keys of originalData, and something left to process, a resumed
    run whose calls all succeed (the stop button left alone before the last
    call) settles as completed and not resumable; the table then has exactly
    the keys of originalData, in order; the rows processed before are still
    in it; and the stored snapshot is the final state with resumable = false. *)
Theorem resume_completes_the_table (env : Env) (s : State) (fileName : string) :
  let remaining := filter (λ p, sku p ∉ sku <$> processedData s) (originalData s) in
  file s = Some fileName →
  remaining ≠ [] →
  NoDup (sku <$> originalData s) →
  NoDup (sku <$> processedData s) →
  (∀ p, p ∈ processedData s → sku p ∈ sku <$> originalData s) →
  (∀ j chunk, productChunks remaining !! j = Some chunk → chunk_ok s env j chunk) →
  (∀ j, S j < length (productChunks remaining) → stopDuring env j = false) →
  let s' := handleResume s env s in
  outcome s' = Some Completed
  ∧ isResumable s' = false
  ∧ sku <$> processedData s' = sku <$> originalData s
  ∧ (∀ p, p ∈ processedData s → p ∈ processedData s')
  ∧ localStorage s'
      = Some (SavedSession.mk fileName (originalData s) (processedData s') false).
Proof.
  intros remaining Hfile Hne Hnd Hdone Hwithin Hok Hquiet s'.
  assert (originalData s ≠ []) as Horig.
  { intros Hnil. apply Hne. unfold remaining. by rewrite Hnil. }
  unfold s'. rewrite handleResume_loop by done. fold remaining.
  set (chunks := productChunks remaining) in *.
  set (begin := run_begin s (setIsCancelled false s)).
  set (final := process_chunks s env (length (processedData s)) 0 chunks [] 0 s begin).
  assert (follows s env 0 (length chunks) EndsComplete chunks (isCancelledRef begin))
    as Hrun by (apply follows_complete; [done | exact Hok | exact Hquiet]).
  pose proof (run_results_rows s env 0 _ _ _ _ Hrun) as Hrows.
  rewrite take_ge in Hrows by done.
  unfold chunks in Hrows at 2. rewrite productChunks_concat in Hrows. fold chunks in Hrows.
  pose proof (rows_keys _ _ Hrows) as Hkeys.
  assert (∀ x, x ∈ sku <$> remaining →
               x ∈ sku <$> originalData s ∧ x ∉ sku <$> processedData s) as Hremaining.
  { intros x Hx. apply list_elem_of_fmap in Hx as (p & -> & Hp).
    unfold remaining in Hp. apply list_elem_of_filter in Hp as [Hp Hin].
    split; [|done]. apply list_elem_of_fmap. by exists p. }
  destruct (process_chunks_follows s env (length (processedData s)) chunks 0 [] 0 s begin
              (length chunks) EndsComplete (productChunks_nonempty _) Hrun)
    as (_ & Hout & _ & Hres & _ & _ & _ & Hpos & _).
  fold final in Hout, Hres, Hpos.
  rewrite take_ge in Hpos by done. simpl in Hpos, Hres.
  destruct Hpos as [prev Hdata]; [by apply productChunks_length_pos|].
  (* the rows processed before are still there *)
  assert (∀ p, p ∈ processedData s → p ∈ processedData final) as Hkept.
  { intros p Hp. apply new_Map_keyed_elem. unfold final.
    apply process_chunks_keeps;
      [by apply Hwithin| |apply not_elem_of_nil|by apply new_Map_keyed_NoDup].
    apply Forall_forall. intros c Hc q Hq Hkey.
    assert (sku q ∈ sku <$> remaining) as Hin.
    { apply list_elem_of_fmap. exists q. split; [done|].
      rewrite <- (productChunks_concat remaining).
      by apply (elem_of_concat_chunk _ c). }
    apply Hremaining in Hin as [_ Hin]. apply Hin. rewrite Hkey.
    apply list_elem_of_fmap. by exists p. }
  (* every key of originalData is in the table *)
  assert (sku <$> processedData final = sku <$> originalData s) as Hall.
  { apply sublist_all; [rewrite Hdata; apply merge_keys_sublist|done|].
    intros x Hx. apply list_elem_of_fmap in Hx as (og & -> & Hog).
    destruct (decide (sku og ∈ sku <$> processedData s)) as [Hold|Hnew].
    - apply list_elem_of_fmap in Hold as (p & Hkey & Hp).
      apply list_elem_of_fmap. exists p. split; [done|]. by apply Hkept.
    - assert (sku og ∈ sku <$> run_results s env 0 chunks) as Hin.
      { rewrite Hkeys. apply list_elem_of_fmap. exists og. split; [done|].
        unfold remaining. by apply list_elem_of_filter. }
      destruct (newDataMap_in _ prev _ Hin) as (v & Hv & _ & Hkey).
      rewrite Hdata. apply list_elem_of_fmap. exists v. split; [done|].
      apply elem_of_merge. by exists og. }
  destruct (process_chunks_stored s env (length (processedData s)) fileName Hfile Horig
              chunks 0 [] 0 s begin) as [Hstored _].
  - apply productChunks_keys_within. intros p Hp.
    apply Hremaining. apply list_elem_of_fmap. by exists p.
  - done.
  - done.
  - done.
  - by left.
  - fold final in Hstored. rewrite Hstored by (rewrite Hout; discriminate).
    rewrite Hres. by repeat split.
Qed.

Lemma resume_completes_the_table_witness :
  let s' := handleResume two_of_four_done always_ok two_of_four_done in
  outcome s' = Some Completed
  ∧ isResumable s' = false
  ∧ sku <$> processedData s' = sku <$> four_records.
Proof.
  destruct (resume_completes_the_table always_ok two_of_four_done "products.csv")
    as (Hout & Hres & Hkeys & _).
  - reflexivity.
  - vm_compute. discriminate.
  - apply (bool_decide_unpack (NoDup (sku <$> originalData two_of_four_done))).
    vm_compute. exact I.
  - apply (bool_decide_unpack (NoDup (sku <$> processedData two_of_four_done))).
    vm_compute. exact I.
  - apply Forall_forall.
    apply (bool_decide_unpack
             (Forall (λ p, sku p ∈ sku <$> originalData two_of_four_done)
                (processedData two_of_four_done))).
    vm_compute. exact I.
  - intros j chunk _. eexists _, _. reflexivity.
  - reflexivity.
  - split; [exact Hout|]. split; [exact Hres | exact Hkeys].
Defined.

(** ** Restoring a session *)

Lemma customInstructions_commit shown s :
  customInstructions (commit shown s) = customInstructions s.
Proof. commit_cases. Qed.
Lemma savedSession_commit shown s : savedSession (commit shown s) = savedSession s.
Proof. commit_cases. Qed.

(** X10: what is saved is what a later page load restores.  A snapshot saved
    by the handlers of a render with a loaded file (of non-empty name) and
    records is offered when the page is mounted again; restoring it brings
    back the file name, the records and the table of that render and the
    resumable flag as saved; a resumable snapshot comes back with the
    token-limit message for its counts, whether it was saved after a quota
    error or after a stop; the instructions are the default ones; the offer
    and the stored snapshot are gone. *)
Theorem session_round_trip (r s : State) (isPartial : bool) (fileName : string) :
  file r = Some fileName →
  fileName ≠ "" →
  originalData r ≠ [] →
  let stored := localStorage (saveCurrentStateToSession r isPartial s) in
  let offered := mount stored in
  let page := handleRestoreSession offered in
  is_Some stored
  ∧ savedSession offered = stored
  ∧ file page = Some fileName
  ∧ originalData page = originalData r
  ∧ processedData page = processedData r
  ∧ isResumable page = isPartial
  ∧ error page
      = (if isPartial
         then Some ("Daily token limit reached. " +:+ show_nat (length (processedData r))
                    +:+ " of " +:+ show_nat (length (originalData r))
                    +:+ " products were processed. You can download the partial results now or resume later when your quota is reset (midnight UTC).")
         else None)
  ∧ customInstructions page = DEFAULT_AI_INSTRUCTIONS
  ∧ savedSession page = None
  ∧ localStorage page = None.
Proof.
  intros Hfile Hname Horig stored offered page.
  assert (stored = Some (SavedSession.mk fileName (originalData r) (processedData r)
                           isPartial)) as Hstored
    by by apply saveCurrentStateToSession_stored.
  assert (offered = setSavedSession stored (initialState stored)) as Hoffered.
  { unfold offered, mount, sessionInit. rewrite Hstored. simpl.
    by destruct fileName. }
  split; [by rewrite Hstored|]. split; [by rewrite Hoffered|].
  unfold page, handleRestoreSession. rewrite Hoffered. simpl savedSession.
  rewrite Hstored. cbv beta iota.
  rewrite localStorage_commit_None by done.
  rewrite savedSession_commit, customInstructions_commit.
  autorewrite with commit_fields. by destruct isPartial.
Qed.

Lemma session_round_trip_witness :
  let stored := localStorage (saveCurrentStateToSession two_of_four_done true blank_state) in
  let page := handleRestoreSession (mount stored) in
  originalData page = four_records
  ∧ processedData page = processedData two_of_four_done
  ∧ isResumable page = true
  ∧ error page
    = Some "Daily token limit reached. 2 of 4 products were processed. You can download the partial results now or resume later when your quota is reset (midnight UTC)."
  ∧ localStorage page = None.
Proof.
  destruct (session_round_trip two_of_four_done blank_state true "products.csv")
    as (_ & _ & _ & Horig & Hdata & Hres & Herr & _ & _ & Hnone).
  - reflexivity.
  - discriminate.
  - discriminate.
  - split; [exact Horig|]. split; [exact Hdata|]. split; [exact Hres|].
    split; [exact Herr | exact Hnone].
Defined.

(** X11: restoring a session removes it from localStorage, and the effect
    that syncs the table does not write it back: a cell edit or a regeneration
    made after the restoration stores nothing. *)
Theorem restored_session_is_no_longer_stored
    (s : State) (saved : SavedSession.t) :
  savedSession s = Some saved →
  let page := handleRestoreSession s in
  localStorage page = None
  ∧ savedSession page = None
  ∧ (∀ k field value, localStorage (handleCellChange k field value page) = None)
  ∧ (∀ r product answer, localStorage (handleRegenerateRow r product answer page) = None).
Proof.
  intros Hsaved page.
  assert (localStorage page = None) as Hnone.
  { unfold page, handleRestoreSession. rewrite Hsaved.
    by apply localStorage_commit_None. }
  split; [done|]. split.
  { unfold page, handleRestoreSession. rewrite Hsaved. by rewrite savedSession_commit. }
  split.
  - intros k field value. unfold handleCellChange. by apply localStorage_commit_None.
  - intros r product answer. unfold handleRegenerateRow, regenerate_end.
    apply localStorage_commit_None.
    assert (localStorage (regenerate_begin r product page) = None) as Hbegin
      by (unfold regenerate_begin; by apply localStorage_commit_None).
    repeat case_match; simpl; done.
Qed.

Lemma restored_session_is_no_longer_stored_witness :
  let page := handleRestoreSession offered_session in
  localStorage offered_session ≠ None
  ∧ localStorage page = None
  ∧ localStorage (handleCellChange (Some "A") MetaTitle "New title" page) = None.
Proof.
  destruct (restored_session_is_no_longer_stored offered_session
              (SavedSession.mk "products.csv" four_records
                 (with_meta "Title" "Description" <$> take 2 four_records) true))
    as (Hnone & _ & Hedit & _).
  - reflexivity.
  - split; [discriminate|]. split; [exact Hnone | apply Hedit].
Defined.

(** ** Editing the table *)

Lemma obj_get_set (k k' v : string) (o : Obj) :
  obj_get k' (obj_set k v o) = if decide (k = k') then Some v else obj_get k' o.
Proof.
  case_decide as Hk; [subst; apply obj_get_set_eq | by apply obj_get_set_ne].
Qed.

(** X12: a cell edit for key k and a column other than the key column changes
    that column, and nothing else, in the rows with key k: the number of rows,
    their keys and all other rows stay as they are.  The edit is written to
    the stored snapshot when one is stored (for a loaded file with records),
    and stores nothing when none is. *)
Theorem cell_edit_changes_one_field (k : option string) (field value : string) (s : State) :
  field ≠ "sku" →
  let s' := handleCellChange k field value s in
  length (processedData s') = length (processedData s)
  ∧ sku <$> processedData s' = sku <$> processedData s
  ∧ (∀ i row, processedData s !! i = Some row → sku row ≠ k →
       processedData s' !! i = Some row)
  ∧ (∀ i row, processedData s !! i = Some row → sku row = k →
       ∃ row', processedData s' !! i = Some row'
         ∧ obj_get field row' = Some value
         ∧ ∀ c, c ≠ field → obj_get c row' = obj_get c row)
  ∧ (localStorage s = None → localStorage s' = None)
  ∧ (∀ fileName,
       file s = Some fileName → originalData s ≠ [] → processedData s ≠ [] →
       is_Some (localStorage s) →
       localStorage s'
       = Some (SavedSession.mk fileName (originalData s) (processedData s')
                 (isResumable s))).
Proof.
  intros Hfield s'.
  set (edit := λ row : Product, if decide (sku row = k) then obj_set field value row else row).
  assert (processedData s' = edit <$> processedData s) as Hdata.
  { unfold s', handleCellChange. by rewrite processedData_commit. }
  split; [by rewrite Hdata, length_fmap|]. split.
  { rewrite Hdata, <- list_fmap_compose. apply list_fmap_ext. intros i row _.
    unfold edit. simpl. case_decide; [|done]. unfold sku. by apply obj_get_set_ne. }
  split.
  { intros i row Hrow Hother. rewrite Hdata, list_lookup_fmap, Hrow. simpl.
    unfold edit. by rewrite decide_False. }
  split.
  { intros i row Hrow Hkey. exists (obj_set field value row).
    rewrite Hdata, list_lookup_fmap, Hrow. simpl. unfold edit.
    rewrite decide_True by done. split; [done|]. split; [apply obj_get_set_eq|].
    intros c Hc. by apply obj_get_set_ne. }
  split.
  { intros Hnone. unfold s', handleCellChange. by apply localStorage_commit_None. }
  intros fileName Hfile Horig Hrows [blob Hblob].
  unfold s', handleCellChange in *. rewrite processedData_commit.
  unfold commit. rewrite bool_decide_false by (simpl; lia).
  unfold syncEffect, saveCurrentStateToSession. simpl.
  rewrite Hfile, Hblob. simpl.
  destruct (processedData s) as [|row rows]; [done|]. simpl.
  by destruct (originalData s).
Qed.

Lemma cell_edit_changes_one_field_witness :
  let s' := handleCellChange (Some "A1") MetaTitle "New title" two_rows_done in
  length (processedData s') = 2
  ∧ sku <$> processedData s' = [Some "A1"; Some "B2"]
  ∧ processedData s' !! 1 = processedData two_rows_done !! 1.
Proof.
  destruct (cell_edit_changes_one_field (Some "A1") MetaTitle "New title" two_rows_done)
    as (Hlen & Hkeys & Hother & _).
  - discriminate.
  - split; [exact Hlen|]. split; [exact Hkeys|].
    apply (Hother 1 (with_meta "Lamp | Riva Home" "A lamp." [("sku", "B2"); ("name", "Lamp")])).
    + reflexivity.
    + discriminate.
Defined.

Lemma or_else_empty (v : string) : or_else (Some v) "" = v.
Proof. by destruct v. Qed.

(** X13: leaving an editable cell of the table.  When the text in the cell is
    the one it showed, nothing is saved and the state is left untouched;
    otherwise the text is handed to handleCellChange for the row's key and the
    column.  Either way the row then shows what was typed.  The Escape key
    resets the cell without saving, and the Enter key does not save in the
    multi-line cell. *)
Theorem leaving_a_cell_shows_what_was_typed
    (product : Product) (header typed : string) (s : State) :
  let initialValue := or_else (obj_get header product) "" in
  let s' := leaveCell product header typed s in
  (typed = initialValue → s' = s)
  ∧ (typed ≠ initialValue → s' = handleCellChange (sku product) header typed s)
  ∧ (∀ i, processedData s !! i = Some product →
       ∃ row, processedData s' !! i = Some row
              ∧ or_else (obj_get header row) "" = typed)
  ∧ (∀ isTextArea c,
       EditableCell.handleKeyDown isTextArea initialValue EditableCell.Escape c
       = (EditableCell.mk false initialValue, None))
  ∧ (∀ c, EditableCell.handleKeyDown true initialValue EditableCell.Enter c = (c, None)).
Proof.
  intros initialValue s'.
  assert (typed = initialValue → s' = s) as Hsame.
  { intros ->. unfold s', leaveCell, EditableCell.handleSave. simpl.
    fold initialValue. by rewrite decide_True. }
  assert (typed ≠ initialValue → s' = handleCellChange (sku product) header typed s)
    as Hchanged.
  { intros Hne. unfold s', leaveCell, EditableCell.handleSave. simpl.
    fold initialValue. by rewrite decide_False. }
  split; [done|]. split; [done|]. split; [|done].
  intros i Hrow. destruct (decide (typed = initialValue)) as [Heq|Hne].
  - rewrite Hsame by done. exists product. by split.
  - rewrite Hchanged by done. exists (obj_set header typed product).
    unfold handleCellChange. rewrite processedData_commit. simpl.
    rewrite list_lookup_fmap, Hrow. simpl. rewrite decide_True by done.
    split; [done|]. by rewrite obj_get_set_eq, or_else_empty.
Qed.

Lemma keys_obj_set (k v : string) (o : Obj) :
  keys (obj_set k v o) = if decide (k ∈ keys o) then keys o else keys o ++ [k].
Proof.
  unfold keys. induction o as [|[k' v'] o IH].
  - case_decide as Hin; [by apply elem_of_nil in Hin | done].
  - cbn [obj_set]. destruct (decide (k' = k)) as [->|Hne].
    + rewrite decide_True by (rewrite fmap_cons; by left). by rewrite !fmap_cons.
    + rewrite !fmap_cons, IH. cbn [fst]. destruct (decide (k ∈ o.*1)) as [Hin|Hout].
      * by rewrite decide_True by by right.
      * rewrite decide_False; [done|].
        intros Hin. apply elem_of_cons in Hin as [->|Hin]; done.
Qed.

Lemma elem_of_keys (k : string) (o : Obj) : k ∈ keys o ↔ is_Some (obj_get k o).
Proof.
  unfold keys. induction o as [|[k' v'] o IH]; simpl.
  - split; [intros Hin; by apply elem_of_nil in Hin | intros [? ?]; done].
  - rewrite elem_of_cons, IH. destruct (decide (k' = k)) as [->|Hne].
    + split; [by eexists | by left].
    + split; [intros [?|?]; [congruence|done] | by right].
Qed.

Lemma keys_with_meta (t d : string) (p : Product) :
  MetaTitle ∉ keys p → MetaDescription ∉ keys p →
  keys (with_meta t d p) = keys p ++ [MetaTitle; MetaDescription].
Proof.
  intros Ht Hd. unfold with_meta. rewrite !keys_obj_set.
  rewrite (decide_False (P := MetaTitle ∈ keys p)) by done.
  rewrite decide_False.
  - by rewrite <- app_assoc.
  - intros Hin. apply elem_of_app in Hin as [Hin|Hin]; [done|].
    by apply list_elem_of_singleton in Hin.
Qed.

(** X14: the table of processed rows.  When the first row carries the
    generated columns, the headers are that row's columns followed by
    Actions (for a record that had neither generated column: its columns, then
    Meta Title, Meta Description, Actions); the cells under the two generated
    columns are editable and hold the generated texts, the description in
    the multi-line editor; every other cell is plain text, empty for a column
    the row lacks; a column called Actions always holds the regenerate
    control, a spinner while the row's key is being regenerated. *)
Theorem processed_table_layout (t d : string) (og : Product) (rest : list Product)
    (regenerating : gset (option string)) :
  let data := with_meta t d og :: rest in
  isProcessed data = true
  ∧ headers data = keys (with_meta t d og) ++ [ACTIONS]
  ∧ (MetaTitle ∉ keys og → MetaDescription ∉ keys og →
     headers data = keys og ++ [MetaTitle; MetaDescription; ACTIONS])
  ∧ (∀ t' d' p,
       cell data regenerating (with_meta t' d' p) MetaTitle = Editable t' false
       ∧ cell data regenerating (with_meta t' d' p) MetaDescription = Editable d' true)
  ∧ (∀ p h, h ≠ ACTIONS → h ≠ MetaTitle → h ≠ MetaDescription →
       cell data regenerating p h = Plain (or_else (obj_get h p) ""))
  ∧ (∀ p, cell data regenerating p ACTIONS
          = ActionsCell (bool_decide (sku p ∈ regenerating))).
Proof.
  intros data.
  assert (isProcessed data = true) as Hprocessed.
  { unfold data, isProcessed, hasOwnProperty. apply bool_decide_eq_true.
    rewrite obj_get_with_meta_title. by eexists. }
  assert (headers data = keys (with_meta t d og) ++ [ACTIONS]) as Hheaders.
  { unfold headers. rewrite Hprocessed. done. }
  split; [done|]. split; [done|]. split.
  { intros Ht Hd. rewrite Hheaders, keys_with_meta by done. by rewrite <- app_assoc. }
  split.
  { intros t' d' p. unfold cell. rewrite Hprocessed.
    rewrite obj_get_with_meta_title, obj_get_with_meta_description, !or_else_empty.
    done. }
  split.
  - intros p h Ha Ht Hd. unfold cell. rewrite decide_False by done.
    rewrite !bool_decide_false by done. by rewrite andb_false_r.
  - intros p. unfold cell. by rewrite decide_True.
Qed.

(** X15: the preview of a file that already has a Meta Title column.  Before
    any run the table shows originalData; since its first row has the column,
    the table has the Actions column and editable cells.  But the handlers
    behind them work on processedData, which is empty: leaving a cell with a
    new text changes neither the records nor the table, and a regeneration
    sends its request and changes neither. *)
Theorem edits_in_the_preview_are_dropped
    (s : State) (first : Product) (rest : list Product) :
  originalData s = first :: rest →
  hasOwnProperty MetaTitle first = true →
  processedData s = [] →
  isLoading s = false →
  isResumable s = false →
  tableData s = Some (originalData s)
  ∧ ACTIONS ∈ headers (originalData s)
  ∧ (∀ regenerating p,
       cell (originalData s) regenerating p MetaTitle
       = Editable (or_else (obj_get MetaTitle p) "") false)
  ∧ (∀ product header typed,
       let s' := leaveCell product header typed s in
       originalData s' = originalData s ∧ processedData s' = []
       ∧ tableData s' = Some (originalData s))
  ∧ (∀ r product answer,
       let s' := handleRegenerateRow r product answer s in
       originalData s' = originalData s ∧ processedData s' = []
       ∧ calls s' = calls s ++ [single_request product (customInstructions r)]).
Proof.
  intros Horig Htitle Hempty Hidle Hfresh.
  assert (∀ t, originalData t = originalData s → processedData t = [] →
               isLoading t = false → isResumable t = false →
               tableData t = Some (originalData s)) as Hpreview.
  { intros t Ho Hp Hl Hr. unfold tableData, step3. rewrite Ho, Hp, Hl, Hr, Horig. done. }
  split; [by apply Hpreview|]. split.
  { unfold headers. rewrite Horig. unfold isProcessed. rewrite Htitle.
    apply elem_of_app. right. by left. }
  split.
  { intros regenerating p. unfold cell. rewrite Horig. unfold isProcessed.
    rewrite Htitle. done. }
  split.
  - intros product header typed s'.
    assert (originalData s' = originalData s ∧ processedData s' = []
            ∧ isLoading s' = false ∧ isResumable s' = false) as (Ho & Hp & Hl & Hr).
    { unfold s', leaveCell. case_match; [|done].
      unfold handleCellChange. autorewrite with commit_fields. simpl.
      by rewrite Hempty. }
    split; [done|]. split; [done|]. by apply Hpreview.
  - intros r product answer s'. unfold s', handleRegenerateRow, regenerate_end.
    autorewrite with commit_fields.
    set (begin := regenerate_begin r product s).
    assert (calls begin = calls s ++ [single_request product (customInstructions r)]
            ∧ processedData begin = [] ∧ originalData begin = originalData s)
      as (Hcalls & Hdata & Hrecords).
    { unfold begin, regenerate_begin. autorewrite with commit_fields. simpl.
      by rewrite Hempty. }
    destruct (generateMetaContentForSingleProduct product (customInstructions r) answer)
      as [[result tokens]|message]; [|destruct (includes QUOTA_TAG message)]; simpl;
      rewrite ?Hdata; done.
Qed.

Lemma edits_in_the_preview_are_dropped_witness :
  let s :=
    setOriginalData [with_meta "Old title" "Old text" [("sku", "A1"); ("name", "Dress")]]
      (setFile (Some "processed_products.csv") blank_state) in
  let row := with_meta "Old title" "Old text" [("sku", "A1"); ("name", "Dress")] in
  cell (originalData s) ∅ row MetaTitle = Editable "Old title" false
  ∧ originalData (leaveCell row MetaTitle "New title" s) = originalData s
  ∧ processedData (leaveCell row MetaTitle "New title" s) = [].
Proof.
  destruct (edits_in_the_preview_are_dropped
              (setOriginalData
                 [with_meta "Old title" "Old text" [("sku", "A1"); ("name", "Dress")]]
                 (setFile (Some "processed_products.csv") blank_state))
              (with_meta "Old title" "Old text" [("sku", "A1"); ("name", "Dress")]) [])
    as (_ & _ & Hcell & Hleave & _).
  - reflexivity.
  - reflexivity.
  - reflexivity.
  - reflexivity.
  - reflexivity.
  - cbv zeta. split; [apply Hcell|].
    destruct (Hleave (with_meta "Old title" "Old text" [("sku", "A1"); ("name", "Dress")])
                MetaTitle "New title") as (Hrecords & Htable & _).
    split; [exact Hrecords | exact Htable].
Defined.

(** X16: a regeneration makes one call, for the row it was asked for, with
    the instructions of the handler's render, whatever the outcome.  It
    keeps the keys of the table, the records, isResumable, the loading flag
    and the cancellation flag, and it leaves the row's key unmarked. *)
Theorem regeneration_makes_one_call
    (r s : State) (product : Product) (answer : Request → Reply Meta) :
  let s' := handleRegenerateRow r product answer s in
  calls s' = calls s ++ [single_request product (customInstructions r)]
  ∧ sku <$> processedData s' = sku <$> processedData s
  ∧ originalData s' = originalData s
  ∧ isResumable s' = isResumable s
  ∧ isLoading s' = isLoading s
  ∧ isCancelledRef s' = isCancelledRef s
  ∧ regeneratingSkus s' = regeneratingSkus s ∖ {[sku product]}.
Proof.
  intros s'. unfold s', handleRegenerateRow, regenerate_end.
  autorewrite with commit_fields.
  set (begin := regenerate_begin r product s).
  assert (calls begin = calls s ++ [single_request product (customInstructions r)]
          ∧ processedData begin = processedData s
          ∧ originalData begin = originalData s
          ∧ isResumable begin = isResumable s
          ∧ isLoading begin = isLoading s
          ∧ isCancelledRef begin = isCancelledRef s
          ∧ regeneratingSkus begin = {[sku product]} ∪ regeneratingSkus s)
    as (Hcalls & Hdata & Horig & Hres & Hload & Hflag & Hmarks).
  { unfold begin, regenerate_begin. by autorewrite with commit_fields. }
  assert (∀ t d, sku <$> ((λ row, if decide (sku row = sku product)
                                  then with_meta t d row else row) <$> processedData begin)
                 = sku <$> processedData s) as Hkeys.
  { intros t d. rewrite Hdata, <- list_fmap_compose. apply list_fmap_ext.
    intros i row _. simpl. case_decide; [apply sku_with_meta|done]. }
  destruct (generateMetaContentForSingleProduct product (customInstructions r) answer)
    as [[result tokens]|message]; [|destruct (includes QUOTA_TAG message)]; simpl;
    rewrite ?Hkeys, ?Hdata; repeat split; try done; rewrite Hmarks;
    by rewrite difference_union_distr_l_L, difference_diag_L, union_empty_l_L.
Qed.

(** ** Loading a file *)

Section loading.
Context `{M : StringPrototype} `{!StringPrototypeSpec M}.

Lemma foldl_normalize_lookup (k : string) (row : Row) (o : Obj) :
  obj_get k (foldl (λ normalizedRow cell,
                      obj_set (canonical_key cell.1) (default "" cell.2) normalizedRow)
               o row)
  = match last_cell k row with
    | Some v => Some v
    | None => obj_get k o
    end.
Proof.
  revert o. induction row as [|cell row IH]; intros o; [done|].
  simpl. rewrite IH. unfold last_cell. rewrite filter_cons.
  destruct (decide (canonical_key cell.1 = k)) as [Hk|Hk].
  - rewrite last_cons. destruct (last (filter _ row)); simpl; [done|].
    rewrite Hk. apply obj_get_set_eq.
  - destruct (last (filter _ row)); simpl; [done|]. by apply obj_get_set_ne.
Qed.

Lemma foldl_normalize_NoDup (row : Row) (o : Obj) :
  NoDup (keys o) →
  NoDup (keys (foldl (λ normalizedRow cell,
                        obj_set (canonical_key cell.1) (default "" cell.2) normalizedRow)
                 o row))
  ∧ length (foldl (λ normalizedRow cell,
                     obj_set (canonical_key cell.1) (default "" cell.2) normalizedRow)
              o row) ≤ length o + length row.
Proof.
  revert o. induction row as [|cell row IH]; intros o Hnd; [simpl; split; [done|lia]|].
  simpl. destruct (IH (obj_set (canonical_key cell.1) (default "" cell.2) o)) as [Hnd' Hlen].
  - rewrite keys_obj_set. case_decide as Hin; [done|].
    apply NoDup_app. split; [done|]. split; [|apply NoDup_singleton].
    intros x Hx Hx'. apply list_elem_of_singleton in Hx'. by subst.
  - split; [done|]. etrans; [exact Hlen|].
    assert (length (obj_set (canonical_key cell.1) (default "" cell.2) o) ≤ S (length o)).
    { rewrite <- !(length_fmap fst). fold (keys (obj_set (canonical_key cell.1) (default "" cell.2) o)).
      rewrite keys_obj_set. case_decide; unfold keys; [lia|]. rewrite length_app. simpl. lia. }
    lia.
Qed.

Lemma last_cell_Some (k : string) (row : Row) :
  is_Some (last_cell k row) ↔ ∃ cell, cell ∈ row ∧ canonical_key cell.1 = k.
Proof.
  unfold last_cell. rewrite fmap_is_Some. split.
  - intros [cell Hcell]. exists cell. apply last_Some_elem_of in Hcell.
    by apply list_elem_of_filter in Hcell as [? ?].
  - intros (cell & Hin & Hk).
    assert (cell ∈ filter (λ c : string * option string, canonical_key c.1 = k) row) as Hf
      by by apply list_elem_of_filter.
    destruct (filter _ row) as [|c l] eqn:Hl using rev_ind.
    + by apply elem_of_nil in Hf.
    + rewrite last_snoc. by eexists.
Qed.

Lemma normalizeRow_lookup (k : string) (row : Row) :
  obj_get k (normalizeRow row) = last_cell k row.
Proof.
  unfold normalizeRow. rewrite foldl_normalize_lookup. by destruct (last_cell k row).
Qed.

Lemma elem_of_keys_normalizeRow (k : string) (row : Row) :
  k ∈ keys (normalizeRow row) ↔ ∃ cell, cell ∈ row ∧ canonical_key cell.1 = k.
Proof. by rewrite elem_of_keys, normalizeRow_lookup, last_cell_Some. Qed.

(** X17, for the [toLowerCase] and [trim] of any engine: the columns of a
    normalised row.  No column occurs twice and there
    are at most as many as the row has cells.  A column holds the value of
    the last cell whose header is mapped onto it (the empty string for a null
    cell), and a column exists exactly when some header of the row is mapped
    onto it. *)
Theorem normalized_row_columns (row : Row) :
  NoDup (keys (normalizeRow row))
  ∧ length (normalizeRow row) ≤ length row
  ∧ (∀ k, obj_get k (normalizeRow row) = last_cell k row)
  ∧ (∀ k, k ∈ keys (normalizeRow row) ↔ ∃ cell, cell ∈ row ∧ canonical_key cell.1 = k).
Proof.
  destruct (foldl_normalize_NoDup row []) as [Hnd Hlen]; [constructor|].
  split; [done|]. split; [done|].
  split; [intros k; apply normalizeRow_lookup | intros k; apply elem_of_keys_normalizeRow].
Qed.

Lemma canonical_key_name (h : string) : canonical_key h = "name" ↔ is_name_header h.
Proof.
  unfold canonical_key, is_name_header. split.
  - intros Hname. case_bool_decide as Hkey; [done|].
    case_bool_decide as Hlower; [done|]. subst h. destruct Hlower.
    apply is_name_header_name.
  - intros Hlower. rewrite Hlower.
    rewrite bool_decide_false by (intros [?|[?|?]]; done). done.
Qed.

Lemma canonical_key_sku (h : string) : canonical_key h = "sku" ↔ is_key_header h.
Proof.
  split; [|apply canonical_key_is_sku].
  intros Hsku. destruct (decide (is_key_header h)) as [|Hno]; [done|].
  by apply canonical_key_not_sku in Hno.
Qed.

Lemma hasOwnProperty_normalizeRow (k : string) (row : Row) :
  hasOwnProperty k (normalizeRow row) = true
  ↔ ∃ cell, cell ∈ row ∧ canonical_key cell.1 = k.
Proof.
  unfold hasOwnProperty. rewrite bool_decide_eq_true, <- elem_of_keys.
  apply elem_of_keys_normalizeRow.
Qed.


Lemma canonical_key_idemp (h : string) : canonical_key (canonical_key h) = canonical_key h.
Proof.
  destruct (decide (is_key_header h)) as [Hkey|Hkey].
  { rewrite (canonical_key_is_sku h Hkey).
    apply canonical_key_is_sku, is_key_header_sku. }
  destruct (decide (trim (toLowerCase h) = "name")) as [Hname|Hname].
  { apply canonical_key_name in Hname. rewrite Hname.
    apply canonical_key_name, is_name_header_name. }
  assert (canonical_key h = h) as Hsame.
  { unfold canonical_key. by rewrite !bool_decide_false. }
  by rewrite !Hsame.
Qed.

Lemma obj_set_fresh (k v : string) (o : Obj) :
  k ∉ keys o → obj_set k v o = o ++ [(k, v)].
Proof.
  unfold keys. induction o as [|[k' v'] o IH]; intros Hfresh; [done|].
  rewrite fmap_cons in Hfresh. apply not_elem_of_cons in Hfresh as [Hne Hfresh].
  cbn [obj_set]. rewrite decide_False by done. simpl. f_equal. by apply IH.
Qed.

(** A row whose headers are canonical and pairwise distinct is its own
    normal form. *)
Lemma normalizeRow_canonical (o : Obj) :
  NoDup (keys o) →
  (∀ k, k ∈ keys o → canonical_key k = k) →
  normalizeRow ((λ kv, (kv.1, Some kv.2)) <$> o) = o.
Proof.
  unfold normalizeRow.
  induction o as [|[k v] o IH] using rev_ind; intros Hnd Hfixed; [done|].
  unfold keys in *. rewrite fmap_app in Hnd, Hfixed. simpl in Hnd, Hfixed.
  apply NoDup_app in Hnd as (Hnd & Hfresh & _).
  rewrite fmap_app, foldl_app. simpl.
  rewrite IH; [| done | intros k' Hk'; apply Hfixed, elem_of_app; by left].
  rewrite Hfixed by (apply elem_of_app; right; by left).
  apply obj_set_fresh. intros Hin. apply (Hfresh k Hin). by left.
Qed.

(** X19, for the [toLowerCase] and [trim] of any engine that treats text of
    ASCII characters as ECMAScript prescribes: normalisation is idempotent.
    The header a column is mapped onto is
    mapped onto itself, and a normalised row read again as a row (as when a
    downloaded file is uploaded again) normalises to itself: the same columns
    with the same values in the same order. *)
Theorem normalisation_is_idempotent (row : Row) :
  (∀ h, canonical_key (canonical_key h) = canonical_key h)
  ∧ normalizeRow ((λ kv, (kv.1, Some kv.2)) <$> normalizeRow row) = normalizeRow row.
Proof.
  split; [apply canonical_key_idemp|].
  apply normalizeRow_canonical.
  - apply (foldl_normalize_NoDup row []). constructor.
  - intros k Hk. apply elem_of_keys_normalizeRow in Hk as (cell & _ & <-).
    apply canonical_key_idemp.
Qed.

Lemma onload_fields (data : list Row) (s : State) :
  let s' := onload data s in
  file s' = file s
  ∧ processedData s' = processedData s
  ∧ processedRef s' = processedRef s
  ∧ isResumable s' = isResumable s
  ∧ savedSession s' = savedSession s
  ∧ localStorage s' = localStorage s
  ∧ calls s' = calls s
  ∧ customInstructions s' = customInstructions s
  ∧ ((error s' = error s ∧ originalData s' = normalizeData data
      ∧ validate (normalizeData data) = None)
     ∨ (is_Some (error s') ∧ originalData s' = originalData s)).
Proof.
  unfold onload. destruct (validate (normalizeData data)) as [message|] eqn:Hval; simpl.
  - repeat split; try done. right. by split.
  - repeat split; try done. by left.
Qed.

(** X20: whatever the file holds and however reading and parsing end, the
    selection of a file discards the table, the resumable flag, the offer and
    the stored snapshot, and leaves the requests made and the instructions
    alone.  Afterwards either no error is shown and originalData holds the
    normalised form of the rows the parser for the file's kind returned
    (for a CSV file, from non-empty text and without parse errors), which
    pass validation, or an error is shown and originalData is empty. *)
Theorem upload_loads_or_reports (parsers : Parsers) (f : SelectedFile) (s : State) :
  let s' := selectFile parsers f s in
  file s' = Some (file_name f)
  ∧ processedData s' = []
  ∧ isResumable s' = false
  ∧ savedSession s' = None
  ∧ localStorage s' = None
  ∧ calls s' = calls s
  ∧ customInstructions s' = customInstructions s
  ∧ ((error s' = None ∧ validate (originalData s') = None
      ∧ ∃ data,
          originalData s' = normalizeData data
          ∧ match fileKind (file_name f) with
            | Some Csv =>
                ∃ fileContent,
                  readAsText f = Some fileContent ∧ fileContent ≠ ""
                  ∧ Papa_parse parsers fileContent = ([], data)
            | Some Xlsx =>
                ∃ fileContent,
                  readAsArrayBuffer f = Some fileContent
                  ∧ XLSX_rows parsers fileContent = SheetRows data
            | None => False
            end)
     ∨ (is_Some (error s') ∧ originalData s' = [])).
Proof.
  intros s'. unfold s', selectFile.
  set (reset := reset_for_file (file_name f) s).
  assert (localStorage (commit s reset) = None) as Hstore
    by by apply localStorage_commit_None.
  destruct (fileKind (file_name f)) as [kind|].
  - set (shown := commit s reset) in *.
    assert (file shown = Some (file_name f) ∧ processedData shown = []
            ∧ isResumable shown = false ∧ savedSession shown = None
            ∧ calls shown = calls s ∧ customInstructions shown = customInstructions s
            ∧ error shown = None ∧ originalData shown = [])
      as (Sf & Sp & Sr & Ss & Sc & Si & Se & So).
    { unfold shown. rewrite savedSession_commit, customInstructions_commit.
      by autorewrite with commit_fields. }
    clearbody shown.
    assert (∀ data (parsed : list Row → Prop),
      parsed data →
      let t := commit shown (onload data shown) in
      file t = Some (file_name f) ∧ processedData t = [] ∧ isResumable t = false
      ∧ savedSession t = None ∧ localStorage t = None ∧ calls t = calls s
      ∧ customInstructions t = customInstructions s
      ∧ ((error t = None ∧ validate (originalData t) = None
          ∧ ∃ data, originalData t = normalizeData data ∧ parsed data)
         ∨ (is_Some (error t) ∧ originalData t = []))) as Hload.
    { intros data parsed Hparsed t.
      destruct (onload_fields data shown)
        as (Hf & Hp & _ & Hr & Hs & Hl & Hc & Hi & Hcases).
      unfold t. rewrite localStorage_commit_None by by rewrite Hl.
      rewrite savedSession_commit, customInstructions_commit.
      autorewrite with commit_fields. rewrite Hf, Hp, Hr, Hs, Hc, Hi.
      repeat (split; [done|]).
      destruct Hcases as [(He & Ho & Hv)|[He Ho]].
      - left. rewrite He, Ho. split; [done|]. split; [done|]. by exists data.
      - right. split; [done|]. by rewrite Ho. }
    assert (∀ message (parsed : list Row → Prop),
      let t := commit shown (setError (Some message) shown) in
      file t = Some (file_name f) ∧ processedData t = [] ∧ isResumable t = false
      ∧ savedSession t = None ∧ localStorage t = None ∧ calls t = calls s
      ∧ customInstructions t = customInstructions s
      ∧ ((error t = None ∧ validate (originalData t) = None
          ∧ ∃ data, originalData t = normalizeData data ∧ parsed data)
         ∨ (is_Some (error t) ∧ originalData t = []))) as Herror.
    { intros message parsed t. unfold t.
      rewrite localStorage_commit_None by done.
      rewrite savedSession_commit, customInstructions_commit.
      autorewrite with commit_fields. simpl.
      repeat (split; [done|]). right. by split. }
    destruct kind.
    + destruct (readAsText f) as [fileContent|] eqn:Hread.
      2:{ apply (Herror FAILED_TO_READ (λ data, ∃ fileContent, _)). }
      unfold onload_csv. destruct (truthy (Some fileContent)) eqn:Htruthy.
      2:{ apply (Herror COULD_NOT_READ (λ data, ∃ fileContent, _)). }
      destruct (Papa_parse parsers fileContent) as [[|first errors] data] eqn:Hparse;
        simpl.
      * apply (Hload data (λ data, ∃ fileContent', _)).
        exists fileContent. split; [done|]. split; [|done].
        intros ->. discriminate Htruthy.
      * apply (Herror (csv_error first) (λ data, ∃ fileContent', _)).
    + destruct (readAsArrayBuffer f) as [fileContent|] eqn:Hread.
      2:{ apply (Herror FAILED_TO_READ (λ data, ∃ fileContent, _)). }
      unfold onload_xlsx.
      destruct (XLSX_rows parsers fileContent) as [data|errorMessage] eqn:Hparse.
      * apply (Hload data (λ data, ∃ fileContent', _)). by exists fileContent.
      * apply (Herror (parse_error errorMessage) (λ data, ∃ fileContent', _)).
  - rewrite localStorage_commit_None by done.
    rewrite savedSession_commit, customInstructions_commit.
    autorewrite with commit_fields. simpl.
    repeat (split; [done|]). right. by split.
Qed.

Lemma isValidFile_fileKind (fileName : string) :
  isValidFile fileName = true ↔ is_Some (fileKind fileName).
Proof.
  unfold isValidFile, fileKind.
  destruct (endsWith ".csv" (toLowerCase fileName)); simpl; [by split; eauto|].
  destruct (endsWith ".xlsx" (toLowerCase fileName)); simpl; [by split; eauto|].
  split; [done|]. by intros [? ?].
Qed.

(** X21: the upload widget and the reader agree.  The widget accepts a file
    name exactly when handleFileSelect can choose a reader for it.  While a
    run is loading a drop does nothing.  Otherwise the first dropped file, if
    its name is accepted, is handed to handleFileSelect, which then never
    reports an unsupported file type; if its name is not accepted the App's
    state is left alone and the widget raises its alert. *)
Theorem upload_widget_agrees_with_the_reader
    (parsers : Parsers) (files : list SelectedFile) (c : FileUpload.t) (s : State) :
  (∀ fileName, isValidFile fileName = true ↔ is_Some (fileKind fileName))
  ∧ (isLoading s = true → dropFiles parsers files c s = s)
  ∧ (∀ first rest,
       files = first :: rest → isLoading s = false → isValidFile (file_name first) = true →
       dropFiles parsers files c s = selectFile parsers first s
       ∧ error (selectFile parsers first s) ≠ Some UNSUPPORTED_FILE)
  ∧ (∀ first rest,
       files = first :: rest → isValidFile (file_name first) = false →
       dropFiles parsers files c s = s
       ∧ (isLoading s = false →
          (FileUpload.handleDrop (isLoading s) files c).2
          = Some (FileUpload.Alert FileUpload.INVALID_FILE))).
Proof.
  split; [apply isValidFile_fileKind|]. split.
  { intros Hbusy. unfold dropFiles, FileUpload.handleDrop. by rewrite Hbusy. }
  split.
  - intros first rest -> Hidle Hvalid. split.
    { unfold dropFiles, FileUpload.handleDrop, FileUpload.take_first.
      by rewrite Hidle, Hvalid. }
    apply isValidFile_fileKind in Hvalid as [kind Hkind].
    unfold selectFile. rewrite Hkind. autorewrite with commit_fields.
    set (shown := commit s _).
    assert (error shown = None) as Hclean
      by (unfold shown; by autorewrite with commit_fields).
    assert (∀ data, error (onload data shown) ≠ Some UNSUPPORTED_FILE) as Hload.
    { intros data. unfold onload.
      destruct (validate (normalizeData data)) as [message|] eqn:Hval; simpl.
      - unfold validate in Hval. repeat case_match; try done;
          inversion Hval; subst message; done.
      - by rewrite Hclean. }
    destruct kind.
    + destruct (readAsText first) as [fileContent|]; [|done].
      unfold onload_csv. destruct (truthy (Some fileContent)); [|done].
      destruct (Papa_parse parsers fileContent) as [[|e errors] data]; simpl; [apply Hload|done].
    + destruct (readAsArrayBuffer first) as [fileContent|]; [|done].
      unfold onload_xlsx.
      destruct (XLSX_rows parsers fileContent); simpl; [apply Hload|done].
  - intros first rest -> Hinvalid.
    unfold dropFiles, FileUpload.handleDrop, FileUpload.take_first. rewrite Hinvalid.
    split; [by destruct (isLoading s)|]. by intros ->.
Qed.

End loading.


Lemma normalisation_is_idempotent_witness :
  let row := [("Name", Some "Dress"); (" SKUs ", Some "A1"); ("Season", None)] in
  normalizeRow (M := ascii_strings) row = [("name", "Dress"); ("sku", "A1"); ("Season", "")]
  ∧ normalizeRow (M := ascii_strings)
      ((λ kv, (kv.1, Some kv.2)) <$> normalizeRow (M := ascii_strings) row)
    = normalizeRow (M := ascii_strings) row.
Proof.
  intros row. split; [reflexivity|].
  apply (@normalisation_is_idempotent ascii_strings ascii_strings_spec row).
Defined.

(** ** The generation client: failures and results *)

Lemma includes_tag_after_batch_failure (d : string) :
  includes QUOTA_TAG ("Failed to generate meta content for a batch of products. " +:+ d)
  = includes QUOTA_TAG d.
Proof. cbn. reflexivity. Qed.

(** X22: how a failed batch call reaches the run.  The failure comes from an
    exception of the call or from a response that is not an array; its message
    is the quota tag or the failure prefix, followed by the detailed message;
    and the run's test for the quota tag succeeds exactly when the client
    classified the error as a quota error or the detailed message itself
    contains the tag. *)
Theorem batch_failure_is_handled_as_quota
    (products : list Product) (instructions : string)
    (generateContent : Request → Reply Parsed) (message : string) :
  generateMetaContentForBatch products instructions generateContent = Threw message →
  ∃ t,
    (generateContent (batch_request products instructions) = Rejected t
     ∨ (∃ tokens,
          generateContent (batch_request products instructions) = Resolved tokens PNotArray)
       ∧ t = mkThrown "API response was not a JSON array as expected." NotJson)
    ∧ message
      = (if isQuotaError t then "[QUOTA_EXCEEDED] "
         else "Failed to generate meta content for a batch of products. ")
        +:+ detailedMessage t
    ∧ includes QUOTA_TAG message
      = isQuotaError t || includes QUOTA_TAG (detailedMessage t).
Proof.
  unfold generateMetaContentForBatch.
  destruct (generateContent (batch_request products instructions))
    as [tokens [items|]|t] eqn:Hreply; [done| |]; intros [= <-].
  - eexists. split; [right; split; [by exists tokens|reflexivity]|].
    split; [reflexivity|]. reflexivity.
  - exists t. split; [by left|]. unfold rethrow.
    destruct (isQuotaError t); simpl orb.
    + split; [done|]. apply (includes_append QUOTA_TAG).
    + split; [done|]. apply includes_tag_after_batch_failure.
Qed.

Lemma batch_failure_is_handled_as_quota_witness :
  ∃ t,
    "Failed to generate meta content for a batch of products. network down"
    = (if isQuotaError t then "[QUOTA_EXCEEDED] "
       else "Failed to generate meta content for a batch of products. ")
      +:+ detailedMessage t
    ∧ includes QUOTA_TAG
        "Failed to generate meta content for a batch of products. network down"
      = isQuotaError t || includes QUOTA_TAG (detailedMessage t).
Proof.
  destruct (batch_failure_is_handled_as_quota records17 "" network_down
              "Failed to generate meta content for a batch of products. network down")
    as (t & _ & Hmessage & Htag).
  - reflexivity.
  - exists t. split; [exact Hmessage | exact Htag].
Defined.

Section js_map_more.
Context {K V : Type} `{Countable K}.
Implicit Types (entries : list (K * V)) (m : gmap K V).

(** What a run of [set] leaves under a key depends on the entries and on
    what was under that key. *)
Lemma lookup_map_set_all_ext entries m m' k :
  m !! k = m' !! k → map_set_all entries m !! k = map_set_all entries m' !! k.
Proof.
  revert m m'. induction entries as [|[k' v] entries IH]; intros m m' Hsame; [done|].
  change (map_set_all entries (<[k':=v]> m) !! k = map_set_all entries (<[k':=v]> m') !! k).
  apply IH. destruct (decide (k' = k)) as [->|Hne].
  - by rewrite !lookup_insert_eq.
  - by rewrite !lookup_insert_ne.
Qed.

Lemma new_Map_Permutation entries entries' :
  NoDup entries.*1 → entries ≡ₚ entries' → new_Map entries = new_Map entries'.
Proof.
  intros Hnd Hperm. apply map_eq. intros k.
  assert (NoDup entries'.*1) as Hnd' by by rewrite <- Hperm.
  destruct (decide (k ∈ entries.*1)) as [Hin|Hout].
  - destruct (lookup_map_set_all_in entries ∅ k Hin) as (v & Hv & Hmem).
    unfold new_Map. rewrite Hv. symmetry. apply lookup_map_set_all_NoDup; [done|].
    by rewrite <- Hperm.
  - pose proof Hout as Hout'. rewrite Hperm in Hout'.
    apply lookup_new_Map_None in Hout, Hout'. by rewrite Hout, Hout'.
Qed.
End js_map_more.

Lemma finalResults_ext (products : list Product) (items items' : list Meta) :
  (∀ p, p ∈ products →
     new_Map ((λ item, (m_sku item, item)) <$> items) !! sku p
     = new_Map ((λ item, (m_sku item, item)) <$> items') !! sku p) →
  finalResults products items = finalResults products items'.
Proof.
  intros Hsame. unfold finalResults. apply list_fmap_ext.
  intros i p Hp. simpl. rewrite Hsame; [done|]. by eapply list_elem_of_lookup_2.
Qed.

(** X23: the results of a batch call follow the request, not the response.
    The order of the response's items does not matter when their keys are
    pairwise distinct; items for keys that are not in the chunk are ignored;
    and of several items for one key the last one is taken. *)
Theorem batch_results_follow_the_request (products : list Product) (items : list Meta) :
  (∀ items', NoDup (m_sku <$> items) → items ≡ₚ items' →
     finalResults products items = finalResults products items')
  ∧ (∀ foreign later,
       (∀ m, m ∈ foreign → m_sku m ∉ sku <$> products) →
       finalResults products (items ++ foreign ++ later)
       = finalResults products (items ++ later))
  ∧ (∀ m i p, products !! i = Some p → m_sku m = sku p →
       finalResults products (items ++ [m]) !! i = Some m).
Proof.
  split; [|split].
  - intros items' Hnd Hperm. apply finalResults_ext. intros p _. f_equal.
    apply new_Map_Permutation.
    + by rewrite <- list_fmap_compose.
    + by apply fmap_Permutation.
  - intros foreign later Hforeign. apply finalResults_ext. intros p Hp.
    unfold new_Map. rewrite !fmap_app, !map_set_all_app.
    apply lookup_map_set_all_ext. apply lookup_map_set_all_notin.
    rewrite <- list_fmap_compose. intros Hin.
    apply list_elem_of_fmap in Hin as (m & Hkey & Hm). simpl in Hkey.
    apply (Hforeign m Hm). rewrite <- Hkey. apply list_elem_of_fmap. by exists p.
  - intros m i p Hp Hkey. rewrite (finalResults_lookup _ _ _ _ Hp).
    unfold new_Map. rewrite fmap_app. simpl. rewrite map_set_all_snoc. simpl.
    rewrite Hkey, lookup_insert_eq. by destruct m.
Qed.

(** The result the client gives for a record: it depends on the record's
    key and on the response only, and it carries the record's key. *)
Lemma or_else_truthy (v : option string) (d : string) :
  d ≠ "" → truthy (Some (or_else v d)) = true.
Proof. intros Hd. destruct v as [[|c v]|]; simpl; by destruct d. Qed.

Lemma processedChunk_truthy (chunk : list Product) (metas : list Meta) (row : Product) :
  row ∈ processedChunk chunk metas →
  truthy (obj_get MetaTitle row) = true ∧ truthy (obj_get MetaDescription row) = true.
Proof.
  intros Hrow. apply list_elem_of_lookup in Hrow as [i Hi].
  unfold processedChunk in Hi. rewrite list_lookup_fmap in Hi.
  destruct (chunk !! i) as [p|]; [|done]. simpl in Hi. inversion Hi as [Hrow].
  rewrite obj_get_with_meta_title, obj_get_with_meta_description.
  split; by apply or_else_truthy.
Qed.

Lemma run_results_from_a_chunk (r : State) (env : Env) (i : nat)
    (chunks : list (list Product)) (row : Product) :
  row ∈ run_results r env i chunks →
  ∃ chunk metas, row ∈ processedChunk chunk metas.
Proof.
  revert i. induction chunks as [|chunk rest IH]; intros i Hrow.
  - by apply elem_of_nil in Hrow.
  - simpl in Hrow. apply elem_of_app in Hrow as [Hrow|Hrow]; [|by eapply IH].
    unfold chunk_results in Hrow.
    destruct (generateMetaContentForBatch chunk (customInstructions r) (reply env i))
      as [[metas tokens]|message]; [by exists chunk, metas|].
    by apply elem_of_nil in Hrow.
Qed.

(** X24: what a run writes into the generated columns of a record after a
    successful batch call.  For a key the response omits: the client's
    'Error: No AI Response' and its companion text.  For a key the response
    has: the texts of an item of the response with that key, each replaced by
    'Error: Not Generated' when it is empty.  So no row that a fresh run puts
    into the table has an empty Meta Title or an empty Meta Description. *)
Theorem generated_columns_are_never_empty :
  (∀ chunk items i p,
     chunk !! i = Some p → sku p ∉ m_sku <$> items →
     processedChunk chunk (finalResults chunk items) !! i
     = Some (with_meta NO_AI_RESPONSE
               "The AI did not provide a response for this item in the batch." p))
  ∧ (∀ chunk items i p,
       chunk !! i = Some p → sku p ∈ m_sku <$> items →
       ∃ item, item ∈ items ∧ m_sku item = sku p
         ∧ processedChunk chunk (finalResults chunk items) !! i
           = Some (with_meta (or_else (Some (metaTitle item)) NOT_GENERATED)
                     (or_else (Some (metaDescription item)) NOT_GENERATED) p))
  ∧ (∀ r env s row,
       originalData r ≠ [] →
       row ∈ processedData (handleGenerate r env s) →
       truthy (obj_get MetaTitle row) = true
       ∧ truthy (obj_get MetaDescription row) = true).
Proof.
  split; [|split].
  - intros chunk items i p Hp Hmissing.
    rewrite (processedChunk_lookup _ _ _ _ Hp). cbv zeta.
    rewrite finalResults_by_key by by eapply list_elem_of_lookup_2.
    rewrite <- item_keys in Hmissing. apply lookup_new_Map_None in Hmissing.
    by rewrite Hmissing.
  - intros chunk items i p Hp Hpresent.
    rewrite <- item_keys in Hpresent.
    destruct (lookup_map_set_all_in _ ∅ _ Hpresent) as (item & Hitem & Hin).
    apply list_elem_of_fmap in Hin as (item' & Heq & Hin). inversion Heq; subst item'.
    exists item. split; [done|]. split; [done|].
    rewrite (processedChunk_lookup _ _ _ _ Hp). cbv zeta.
    rewrite finalResults_by_key by by eapply list_elem_of_lookup_2.
    unfold new_Map. by rewrite Hitem.
  - intros r env s row Hne Hrow. rewrite handleGenerate_loop in Hrow by done.
    set (chunks := productChunks (originalData r)) in *.
    set (begin := run_begin r (setProcessedData [] (setIsCancelled false s))) in *.
    destruct (follows_exists r env chunks 0 (isCancelledRef begin)) as (k & e & Hrun).
    destruct (process_chunks_follows r env (length (processedData r)) chunks 0 [] 0 s begin
                k e (productChunks_nonempty _) Hrun)
      as (_ & _ & _ & _ & _ & _ & _ & _ & Hfrom & _).
    destruct (Hfrom row Hrow) as [Hold|Hnew]; [by apply elem_of_nil in Hold|].
    rewrite app_nil_l in Hnew.
    apply run_results_from_a_chunk in Hnew as (chunk & metas & Hnew).
    by eapply processedChunk_truthy.
Qed.

Lemma bilingual_finalResults_lookup (products : list Product) (items : list Bilingual.Meta)
    (i : nat) (p : Product) :
  products !! i = Some p →
  Bilingual.finalResults products items !! i
  = Some match new_Map ((λ item, (Bilingual.m_sku item, item)) <$> items) !! sku p with
         | Some result => result
         | None => Bilingual.fallback (sku p)
         end.
Proof. intros Hp. unfold Bilingual.finalResults. by rewrite list_lookup_fmap, Hp. Qed.

(** X25: the two-language client gives one result per input record, in input
    order and under the record's key: the response's item for a key the
    response has, and for a key it omits the fallback with
    'Error: No AI Response' as both titles. *)
Theorem bilingual_batch_covers_every_record
    (products : list Product) (instructions : string)
    (generateContent : Bilingual.Request → Reply Bilingual.Parsed)
    (tokens : nat) (items : list Bilingual.Meta) :
  generateContent (Bilingual.batch_request products instructions)
    = Resolved tokens (Bilingual.PArray items) →
  ∃ results,
    Bilingual.generateMetaContentForBatch products instructions generateContent
      = Fulfilled (results, tokens)
    ∧ length results = length products
    ∧ Bilingual.m_sku <$> results = sku <$> products
    ∧ (∀ i p, products !! i = Some p → sku p ∉ Bilingual.m_sku <$> items →
         results !! i = Some (Bilingual.fallback (sku p)))
    ∧ (∀ i p, products !! i = Some p → sku p ∈ Bilingual.m_sku <$> items →
         ∃ item, item ∈ items ∧ Bilingual.m_sku item = sku p ∧ results !! i = Some item).
Proof.
  intros Hreply. exists (Bilingual.finalResults products items).
  unfold Bilingual.generateMetaContentForBatch. rewrite Hreply.
  assert (((λ item, (Bilingual.m_sku item, item)) <$> items).*1
          = Bilingual.m_sku <$> items) as Hkeys by by rewrite <- list_fmap_compose.
  split; [done|]. split; [unfold Bilingual.finalResults; by rewrite length_fmap|].
  split.
  { unfold Bilingual.finalResults. rewrite <- list_fmap_compose.
    apply list_fmap_ext. intros i p _. simpl.
    destruct (new_Map _ !! sku p) as [result|] eqn:Hfound; [|done].
    unfold new_Map in Hfound.
    apply lookup_map_set_all_Some in Hfound as [Hin|Hempty];
      [|by rewrite lookup_empty in Hempty].
    apply list_elem_of_fmap in Hin as (item & Heq & _). by inversion Heq. }
  split.
  - intros i p Hp Hmissing. rewrite (bilingual_finalResults_lookup _ _ _ _ Hp).
    rewrite <- Hkeys in Hmissing. apply lookup_new_Map_None in Hmissing.
    by rewrite Hmissing.
  - intros i p Hp Hpresent. rewrite (bilingual_finalResults_lookup _ _ _ _ Hp).
    rewrite <- Hkeys in Hpresent.
    destruct (lookup_map_set_all_in _ ∅ _ Hpresent) as (item & Hitem & Hin).
    unfold new_Map. rewrite Hitem.
    apply list_elem_of_fmap in Hin as (item' & Heq & Hin). inversion Heq; subst item'.
    by exists item.
Qed.

Lemma bilingual_batch_covers_every_record_witness :
  ∃ results,
    Bilingual.generateMetaContentForBatch four_records ""
      (λ _, Resolved 7
              (Bilingual.PArray
                 [Bilingual.mkMeta (Some "B") "Title" "Description" "AR title"
                    "AR description"]))
    = Fulfilled (results, 7)
    ∧ length results = 4
    ∧ results !! 0 = Some (Bilingual.fallback (Some "A")).
Proof.
  destruct (bilingual_batch_covers_every_record four_records ""
              (λ _, Resolved 7
                      (Bilingual.PArray
                         [Bilingual.mkMeta (Some "B") "Title" "Description" "AR title"
                            "AR description"]))
              7
              [Bilingual.mkMeta (Some "B") "Title" "Description" "AR title"
                 "AR description"])
    as (results & Hcall & Hlen & _ & Hmissing & _).
  - reflexivity.
  - exists results. split; [exact Hcall|]. split; [exact Hlen|].
    apply (Hmissing 0 [("sku", "A"); ("name", "a")]); [reflexivity|].
    vm_compute. intros Hin. inversion Hin as [|? ? ? Hin']. inversion Hin'.
Defined.

Lemma obj_get_without (k c : string) (o : Obj) :
  obj_get c (obj_without k o) = if decide (k = c) then None else obj_get c o.
Proof.
  case_decide as Hk; [subst; apply obj_get_without_eq | by apply obj_get_without_ne].
Qed.

Lemma bilingual_strip_lookup (p : Product) (c : string) :
  obj_get c (Bilingual.strip_generated p)
  = if decide (c ∈ Bilingual.GENERATED) then None else obj_get c p.
Proof.
  unfold Bilingual.strip_generated, Bilingual.GENERATED.
  rewrite !obj_get_without.
  destruct (decide (c ∈ _)) as [Hc|Hc]; rewrite !elem_of_cons, elem_of_nil in Hc.
  - destruct Hc as [->|[->|[->|[->|[]]]]]; repeat case_decide; done.
  - repeat case_decide; try done; destruct Hc; auto.
Qed.

Lemma bilingual_strip_set (p : Product) (c v : string) :
  c ∈ Bilingual.GENERATED →
  Bilingual.strip_generated (obj_set c v p) = Bilingual.strip_generated p.
Proof.
  unfold Bilingual.GENERATED. rewrite !elem_of_cons, elem_of_nil.
  unfold Bilingual.strip_generated.
  intros [->|[->|[->|[->|[]]]]];
    repeat (rewrite obj_without_set_ne by done); by rewrite obj_without_set_eq.
Qed.

(** X26: the two-language client removes its four generated columns from a
    record before it builds the request and keeps every other column, so the
    batch request and the single request do not depend on what a generated
    column held. *)
Theorem bilingual_request_strips_four_columns :
  (∀ p c, c ∈ Bilingual.GENERATED → obj_get c (Bilingual.strip_generated p) = None)
  ∧ (∀ p c, c ∉ Bilingual.GENERATED →
       obj_get c (Bilingual.strip_generated p) = obj_get c p)
  ∧ (∀ products instructions c v, c ∈ Bilingual.GENERATED →
       Bilingual.batch_request (obj_set c v <$> products) instructions
       = Bilingual.batch_request products instructions)
  ∧ (∀ product instructions c v, c ∈ Bilingual.GENERATED →
       Bilingual.single_request (obj_set c v product) instructions
       = Bilingual.single_request product instructions).
Proof.
  split; [|split; [|split]].
  - intros p c Hc. by rewrite bilingual_strip_lookup, decide_True.
  - intros p c Hc. by rewrite bilingual_strip_lookup, decide_False.
  - intros products instructions c v Hc. unfold Bilingual.batch_request. f_equal.
    rewrite <- list_fmap_compose. apply list_fmap_ext. intros i p _. simpl.
    by apply bilingual_strip_set.
  - intros product instructions c v Hc. unfold Bilingual.single_request.
    by rewrite bilingual_strip_set.
Qed.

(** ** Download and theme *)

Lemma includes_dot_cons (c : Ascii.ascii) (s : string) :
  includes "." (String c s) = Ascii.eqb c dot || includes "." s.
Proof.
  cbn [includes String.prefix]. destruct (Ascii.eqb_spec c dot) as [->|Hne].
  - by destruct s.
  - destruct (Ascii.ascii_dec _ c) as [<-|_]; [by destruct Hne|done].
Qed.

Lemma before_first_dot_split (base rest : string) :
  includes "." base = false →
  before_first_dot (base +:+ "." +:+ rest) = base.
Proof.
  induction base as [|c base IH]; intros Hno; [done|].
  rewrite includes_dot_cons in Hno. apply orb_false_iff in Hno as [Hc Hno].
  simpl. rewrite Hc. f_equal. by apply IH.
Qed.

Lemma before_first_dot_whole (base : string) :
  includes "." base = false → before_first_dot base = base.
Proof.
  induction base as [|c base IH]; intros Hno; [done|].
  rewrite includes_dot_cons in Hno. apply orb_false_iff in Hno as [Hc Hno].
  simpl. rewrite Hc. f_equal. by apply IH.
Qed.

Lemma or_else_nonempty (v d : string) : v ≠ "" → or_else (Some v) d = v.
Proof. by destruct v. Qed.

(** X27: the download.  With an empty table it only shows an error (the
    state is otherwise as before).
    Otherwise it leaves the state alone and (in a browser with the download
    attribute) offers the rows of the table as they are.  The file is named
    processed_, what stands before the first dot of the uploaded file's name,
    and .csv; when nothing stands before the first dot, or there is no file,
    it is processed_products.csv. *)
Theorem download_takes_the_table_and_the_base_name (supportsDownload : bool) (s : State) :
  (processedData s = [] →
     (handleDownload supportsDownload s).2 = None
     ∧ error (handleDownload supportsDownload s).1 = Some NO_PROCESSED_DATA
     ∧ (handleDownload supportsDownload s).1
       = setError (Some "No processed data to download.") s)
  ∧ (processedData s ≠ [] →
     handleDownload supportsDownload s
     = (s, if supportsDownload
           then Some (mkDownload (download_name (file s)) (processedData s))
           else None))
  ∧ (∀ base rest, base ≠ "" → includes "." base = false →
       download_name (Some (base +:+ "." +:+ rest)) = "processed_" +:+ base +:+ ".csv")
  ∧ (∀ base, base ≠ "" → includes "." base = false →
       download_name (Some base) = "processed_" +:+ base +:+ ".csv")
  ∧ (∀ rest, download_name (Some ("." +:+ rest)) = "processed_products.csv")
  ∧ download_name None = "processed_products.csv".
Proof.
  split; [|split; [|split; [|split; [|split]]]].
  - intros Hnone. unfold handleDownload. rewrite Hnone. simpl.
    autorewrite with commit_fields. split; [done|]. split; [done|].
    unfold commit. by rewrite bool_decide_true.
  - intros Hsome. unfold handleDownload. destruct (processedData s); [done|]. simpl.
    by destruct supportsDownload.
  - intros base rest Hne Hno. unfold download_name. simpl fmap.
    rewrite before_first_dot_split by done. by rewrite or_else_nonempty.
  - intros base Hne Hno. unfold download_name. simpl fmap.
    rewrite before_first_dot_whole by done. by rewrite or_else_nonempty.
  - done.
  - done.
Qed.

(** X28: the theme.  After the startup effect a theme is set and stored, the
    stored one if there is one, and the dark class follows it.  A toggle gives
    light or dark and stores it; two more toggles give the same theme again;
    and a page load in the same browser comes up with the theme last shown,
    whatever the system prefers. *)
Theorem theme_survives_reload (systemPrefersDark later : bool) (t : Theme.t) :
  let shown := themeInit systemPrefersDark t in
  let toggled := handleToggleTheme shown in
  (∃ theme, Theme.theme shown = Some theme ∧ theme ≠ ""
            ∧ Theme.stored shown = Some theme
            ∧ Theme.darkClass shown = bool_decide (theme = "dark")
            ∧ (truthy (Theme.stored t) = true → Theme.stored t = Some theme))
  ∧ Theme.theme (themeReload later shown) = Theme.theme shown
  ∧ (Theme.theme toggled = Some "light" ∨ Theme.theme toggled = Some "dark")
  ∧ Theme.stored toggled = Theme.theme toggled
  ∧ Theme.theme (themeReload later toggled) = Theme.theme toggled
  ∧ Theme.theme (handleToggleTheme (handleToggleTheme toggled)) = Theme.theme toggled.
Proof.
  intros shown toggled.
  assert (∃ theme, Theme.theme shown = Some theme ∧ theme ≠ ""
            ∧ Theme.stored shown = Some theme
            ∧ Theme.darkClass shown = bool_decide (theme = "dark")
            ∧ (truthy (Theme.stored t) = true → Theme.stored t = Some theme))
    as (theme & Htheme & Hne & Hstored & Hclass & Hsaved).
  { unfold shown, themeInit. destruct (Theme.stored t) as [[|c saved]|] eqn:Hs; simpl.
    - destruct systemPrefersDark; simpl; eexists; by repeat split.
    - eexists. by repeat split.
    - destruct systemPrefersDark; simpl; eexists; by repeat split. }
  split; [by exists theme|]. split.
  { unfold themeReload, themeInit. simpl. rewrite Hstored, Htheme.
    destruct theme as [|c theme]; [done|]. done. }
  assert ((Theme.theme toggled = Some "light" ∨ Theme.theme toggled = Some "dark")
          ∧ Theme.stored toggled = Theme.theme toggled) as [Hcases Hkept].
  { unfold toggled, handleToggleTheme.
    destruct (decide (Theme.theme shown = Some "light")); simpl;
      [split; [by right|done] | split; [by left|done]]. }
  split; [done|]. split; [done|]. split.
  - unfold themeReload, themeInit. simpl. rewrite Hkept.
    by destruct Hcases as [->| ->].
  - unfold handleToggleTheme at 1 2. destruct Hcases as [Hc|Hc]; rewrite Hc; simpl;
      rewrite ?decide_True by done; simpl; done.
Qed.
